(** * Lo-Dash custom builder ([build.js]): dependency resolution and source pruning

    A shallow embedding of the parts of [build.js] that resolve a requested
    set of identifiers into a build set and that prune the library source,
    followed by the properties established for them.

    JavaScript values are modelled as follows: strings are [string]; arrays
    of strings are [list string] in array order; an object literal used as a
    map is an association list in insertion order (the order [for..in],
    [_.forOwn] and [_.transform] enumerate it); a shared array that is
    mutated through calls (the [stack] of the traversals) is threaded through
    and returned next to the result. *)

From Stdlib Require Import String Ascii List Bool Arith Lia.
Import ListNotations.
Local Open Scope string_scope.
Local Open Scope list_scope.
Local Open Scope nat_scope.

(** Text concatenation, [+] on strings in the source. *)
Infix "+++" := String.append (right associativity, at level 60).

(** ** Array helpers of the Lo-Dash library *)

(** Modelled from the spec: [lodash.js], which [build.js] loads as [_], is
    not among the sources.  These are the collection helpers [build.js]
    calls on arrays of strings (membership, duplicate removal, set union,
    set difference, intersection), with the library's documented behaviour:
    results keep first occurrences, in array order. *)
Module Lodash.

Definition contains (l : list string) (x : string) : bool :=
  existsb (String.eqb x) l.

Fixpoint uniqAcc (seen l : list string) : list string :=
  match l with
  | [] => []
  | x :: l' => if contains seen x then uniqAcc seen l'
               else x :: uniqAcc (seen ++ [x]) l'
  end.

(** [_.uniq(array)] *)
Definition uniq (l : list string) : list string := uniqAcc [] l.

(** [_.union(a, b)] *)
Definition union (a b : list string) : list string := uniq (a ++ b).

(** [_.difference(array, other)]; several [other] arrays are concatenated
    by the caller. *)
Definition difference (a b : list string) : list string :=
  filter (fun x => negb (contains b x)) a.

(** [_.intersection(a, b)] *)
Definition intersection (a b : list string) : list string :=
  uniq (filter (contains b) a).

(** [_.pull(array, v1, v2, ...)]: every occurrence of the values is removed. *)
Definition pull (l vs : list string) : list string :=
  filter (fun x => negb (contains vs x)) l.

(** [_.compact(array)] on strings: the empty string is the only falsy one. *)
Definition compact (l : list string) : list string :=
  filter (fun x => negb (String.eqb x "")) l.

End Lodash.
Import Lodash.

(** ** Objects used as maps *)

(** A dependency map: identifier name to the array of names it depends on. *)
Definition DepMap := list (string * list string).

(** [depMap[key]] for an own property, [None] for [undefined]. *)
Fixpoint get {A : Type} (m : list (string * A)) (k : string) : option A :=
  match m with
  | [] => None
  | (k', v) :: m' => if String.eqb k k' then Some v else get m' k
  end.

(** [hasOwnProperty.call(object, key)] *)
Definition hasOwn {A : Type} (m : list (string * A)) (k : string) : bool :=
  match get m k with Some _ => true | None => false end.

(** [_.keys(object)] *)
Definition keys {A : Type} (m : list (string * A)) : list string := map fst m.

(** [object[key] = value]: an existing key keeps its place, a new one is
    appended. *)
Fixpoint set {A : Type} (m : list (string * A)) (k : string) (v : A)
  : list (string * A) :=
  match m with
  | [] => [(k, v)]
  | (k', v') :: m' => if String.eqb k k' then (k, v) :: m'
                      else (k', v') :: set m' k v
  end.

(** [delete object[key]] *)
Definition delete {A : Type} (m : list (string * A)) (k : string)
  : list (string * A) :=
  filter (fun kv => negb (String.eqb k (fst kv))) m.

(** ** The static tables (lines 50-648) *)

Definition aliasToRealMap : list (string * string) :=
  [ ("all", "every");
    ("any", "some");
    ("collect", "map");
    ("detect", "find");
    ("drop", "rest");
    ("each", "forEach");
    ("eachRight", "forEachRight");
    ("extend", "assign");
    ("findWhere", "find");
    ("foldl", "reduce");
    ("foldr", "reduceRight");
    ("head", "first");
    ("include", "contains");
    ("inject", "reduce");
    ("methods", "functions");
    ("object", "zipObject");
    ("select", "filter");
    ("tail", "rest");
    ("take", "first");
    ("unique", "uniq");
    ("unzip", "zip");
    ("value", "wrapperValueOf") ].

Definition realToAliasMap : DepMap :=
  [ ("assign", ["extend"]);
    ("contains", ["include"]);
    ("every", ["all"]);
    ("filter", ["select"]);
    ("find", ["detect"; "findWhere"]);
    ("first", ["head"; "take"]);
    ("forEach", ["each"]);
    ("forEachRight", ["eachRight"]);
    ("functions", ["methods"]);
    ("map", ["collect"]);
    ("reduce", ["foldl"; "inject"]);
    ("reduceRight", ["foldr"]);
    ("rest", ["drop"; "tail"]);
    ("some", ["any"]);
    ("uniq", ["unique"]);
    ("wrapperValueOf", ["value"]);
    ("zip", ["unzip"]);
    ("zipObject", ["object"]) ].

Definition funcDependencyMap : DepMap :=
  [ ("templateSettings", ["escape"]);
    ("defaultsIteratorOptions", ["keys"]);
    ("eachIteratorOptions", ["keys"]);
    ("htmlUnescapes", ["invert"]);
    ("reEscapedHtml", ["keys"]);
    ("reUnescapedHtml", ["keys"]);
    ("after", ["isFunction"]);
    ("assign", ["createIterator"]);
    ("at", ["baseFlatten"; "isString"]);
    ("bind", ["createBound"]);
    ("bindAll", ["baseFlatten"; "bind"; "functions"]);
    ("bindKey", ["createBound"]);
    ("chain", ["lodashWrapper"]);
    ("clone", ["baseClone"; "baseCreateCallback"]);
    ("cloneDeep", ["baseClone"; "baseCreateCallback"]);
    ("compact", []);
    ("compose", ["isFunction"]);
    ("contains", ["baseEach"; "getIndexOf"; "isString"]);
    ("countBy", ["createAggregator"]);
    ("createCallback", ["baseCreateCallback"; "baseIsEqual"; "isObject"; "keys"]);
    ("curry", ["createBound"]);
    ("debounce", ["isFunction"; "isObject"]);
    ("defaults", ["createIterator"]);
    ("defer", ["isFunction"]);
    ("delay", ["isFunction"]);
    ("difference", ["baseFlatten"; "cacheIndexOf"; "createCache"; "getIndexOf"; "releaseObject"]);
    ("escape", ["escapeHtmlChar"; "keys"]);
    ("every", ["baseEach"; "createCallback"; "isArray"]);
    ("filter", ["baseEach"; "createCallback"; "isArray"]);
    ("find", ["baseEach"; "createCallback"; "isArray"]);
    ("findIndex", ["createCallback"]);
    ("findLastIndex", ["createCallback"]);
    ("findKey", ["createCallback"; "forOwn"]);
    ("findLast", ["createCallback"; "forEachRight"]);
    ("findLastKey", ["createCallback"; "forOwnRight"]);
    ("first", ["createCallback"; "slice"]);
    ("flatten", ["baseFlatten"; "map"]);
    ("forEach", ["baseCreateCallback"; "baseEach"; "isArray"]);
    ("forEachRight", ["baseCreateCallback"; "forEach"; "isString"; "keys"]);
    ("forIn", ["createIterator"]);
    ("forInRight", ["baseCreateCallback"; "forIn"]);
    ("forOwn", ["createIterator"]);
    ("forOwnRight", ["baseCreateCallback"; "keys"]);
    ("functions", ["forIn"; "isFunction"]);
    ("groupBy", ["createAggregator"]);
    ("has", []);
    ("identity", []);
    ("indexBy", ["createAggregator"]);
    ("indexOf", ["baseIndexOf"; "sortedIndex"]);
    ("initial", ["createCallback"; "slice"]);
    ("intersection", ["cacheIndexOf"; "createCache"; "getArray"; "getIndexOf"; "releaseArray"; "releaseObject"]);
    ("invert", ["keys"]);
    ("invoke", ["forEach"]);
    ("isArguments", []);
    ("isArray", []);
    ("isBoolean", []);
    ("isDate", []);
    ("isElement", []);
    ("isEmpty", ["forOwn"; "isArguments"; "isFunction"]);
    ("isEqual", ["baseCreateCallback"; "baseIsEqual"]);
    ("isFinite", []);
    ("isFunction", []);
    ("isNaN", ["isNumber"]);
    ("isNull", []);
    ("isNumber", []);
    ("isObject", []);
    ("isPlainObject", ["isArguments"; "shimIsPlainObject"]);
    ("isRegExp", []);
    ("isString", []);
    ("isUndefined", []);
    ("keys", ["isArguments"; "isObject"; "shimKeys"]);
    ("last", ["createCallback"; "slice"]);
    ("lastIndexOf", []);
    ("lodash", ["isArray"; "lodashWrapper"]);
    ("map", ["baseEach"; "createCallback"; "isArray"]);
    ("max", ["baseEach"; "charAtCallback"; "createCallback"; "isArray"; "isString"]);
    ("memoize", ["isFunction"]);
    ("merge", ["baseCreateCallback"; "baseMerge"; "getArray"; "isObject"; "releaseArray"]);
    ("min", ["baseEach"; "charAtCallback"; "createCallback"; "isArray"; "isString"]);
    ("mixin", ["forEach"; "functions"; "isFunction"; "lodash"]);
    ("noConflict", []);
    ("omit", ["baseFlatten"; "createCallback"; "forIn"; "getIndexOf"]);
    ("once", ["isFunction"]);
    ("pairs", ["keys"]);
    ("parseInt", ["isString"]);
    ("partial", ["createBound"]);
    ("partialRight", ["createBound"]);
    ("pick", ["baseFlatten"; "createCallback"; "forIn"; "isObject"]);
    ("pluck", ["map"]);
    ("pull", []);
    ("random", []);
    ("range", []);
    ("reduce", ["baseCreateCallback"; "baseEach"; "isArray"]);
    ("reduceRight", ["baseCreateCallback"; "forEachRight"]);
    ("reject", ["createCallback"; "filter"]);
    ("remove", ["createCallback"]);
    ("rest", ["createCallback"; "slice"]);
    ("result", ["isFunction"]);
    ("runInContext", ["defaults"; "pick"]);
    ("sample", ["random"; "shuffle"; "toArray"]);
    ("shuffle", ["forEach"; "random"]);
    ("size", ["keys"]);
    ("some", ["baseEach"; "createCallback"; "isArray"]);
    ("sortBy", ["compareAscending"; "createCallback"; "forEach"; "getObject"; "releaseObject"]);
    ("sortedIndex", ["createCallback"; "identity"]);
    ("tap", []);
    ("template", ["defaults"; "escape"; "escapeStringChar"; "keys"; "values"]);
    ("throttle", ["debounce"; "getObject"; "isFunction"; "isObject"; "releaseObject"]);
    ("times", ["baseCreateCallback"]);
    ("toArray", ["isString"; "slice"; "values"]);
    ("transform", ["baseCreateCallback"; "baseEach"; "createObject"; "forOwn"; "isArray"]);
    ("unescape", ["keys"; "unescapeHtmlChar"]);
    ("union", ["baseFlatten"; "baseUniq"]);
    ("uniq", ["baseUniq"; "createCallback"]);
    ("uniqueId", []);
    ("values", ["keys"]);
    ("where", ["filter"]);
    ("without", ["difference"]);
    ("wrap", ["isFunction"]);
    ("wrapperChain", []);
    ("wrapperToString", []);
    ("wrapperValueOf", []);
    ("zip", ["max"; "pluck"]);
    ("zipObject", []);
    ("baseClone", ["assign"; "baseEach"; "forOwn"; "getArray"; "isArray"; "isObject"; "isNode"; "releaseArray"; "slice"]);
    ("baseCreateCallback", ["bind"; "identity"; "setBindData"]);
    ("baseEach", ["createIterator"]);
    ("baseFlatten", ["isArguments"; "isArray"]);
    ("baseIndexOf", []);
    ("baseIsEqual", ["forIn"; "getArray"; "isArguments"; "isFunction"; "isNode"; "releaseArray"]);
    ("baseMerge", ["forEach"; "forOwn"; "isArray"; "isPlainObject"]);
    ("baseUniq", ["cacheIndexOf"; "createCache"; "getArray"; "getIndexOf"; "releaseArray"; "releaseObject"]);
    ("cacheIndexOf", ["baseIndexOf"]);
    ("cachePush", []);
    ("charAtCallback", []);
    ("compareAscending", []);
    ("createAggregator", ["createCallback"; "forEach"]);
    ("createBound", ["createObject"; "isFunction"; "isObject"; "setBindData"]);
    ("createCache", ["cachePush"; "getObject"; "releaseObject"]);
    ("createIterator", ["baseCreateCallback"; "getObject"; "isArguments"; "isArray"; "isString"; "iteratorTemplate"; "releaseObject"]);
    ("createObject", ["isObject"; "noop"]);
    ("escapeHtmlChar", []);
    ("escapeStringChar", []);
    ("getArray", []);
    ("getIndexOf", ["baseIndexOf"; "indexOf"]);
    ("getObject", []);
    ("isNode", []);
    ("iteratorTemplate", []);
    ("lodashWrapper", []);
    ("noop", []);
    ("releaseArray", []);
    ("releaseObject", []);
    ("setBindData", ["getObject"; "noop"; "releaseObject"]);
    ("shimIsPlainObject", ["forIn"; "isArguments"; "isFunction"; "isNode"]);
    ("shimKeys", ["createIterator"]);
    ("slice", []);
    ("unescapeHtmlChar", []);
    ("findWhere", ["where"]) ].

Definition propDependencyMap : DepMap :=
  [ ("at", ["support"]);
    ("baseClone", ["support"]);
    ("baseIsEqual", ["support"]);
    ("bind", ["support"]);
    ("createBound", ["support"]);
    ("forEachRight", ["support"]);
    ("isArguments", ["support"]);
    ("isEmpty", ["support"]);
    ("isPlainObject", ["support"]);
    ("iteratorTemplate", ["support"]);
    ("keys", ["support"]);
    ("shimIsPlainObject", ["support"]);
    ("template", ["templateSettings"]);
    ("toArray", ["support"]) ].

Definition varDependencyMap : DepMap :=
  [ ("assign", ["defaultsIteratorOptions"]);
    ("baseEach", ["eachIteratorOptions"]);
    ("baseIsEqual", ["objectTypes"]);
    ("baseUniq", ["largeArraySize"]);
    ("bind", ["reNative"]);
    ("cacheIndexOf", ["keyPrefix"]);
    ("cachePush", ["keyPrefix"]);
    ("createIterator", ["indicatorObject"; "objectTypes"]);
    ("createBound", ["reNative"]);
    ("createObject", ["reNative"]);
    ("debounce", ["reNative"]);
    ("defaults", ["defaultsIteratorOptions"]);
    ("defer", ["objectTypes"; "reNative"]);
    ("difference", ["largeArraySize"]);
    ("escape", ["reUnescapedHtml"]);
    ("escapeHtmlChar", ["htmlEscapes"]);
    ("forIn", ["eachIteratorOptions"; "forOwnIteratorOptions"]);
    ("forOwn", ["eachIteratorOptions"; "forOwnIteratorOptions"]);
    ("forOwnIteratorOptions", ["eachIteratorOptions"]);
    ("getArray", ["arrayPool"]);
    ("getObject", ["objectPool"]);
    ("htmlUnescapes", ["htmlEscapes"]);
    ("intersection", ["largeArraySize"]);
    ("isArray", ["reNative"]);
    ("isObject", ["objectTypes"]);
    ("isPlainObject", ["reNative"]);
    ("isRegExp", ["objectTypes"]);
    ("keys", ["reNative"]);
    ("memoize", ["keyPrefix"]);
    ("reEscapedHtml", ["htmlUnescapes"]);
    ("releaseArray", ["arrayPool"; "maxPoolSize"]);
    ("releaseObject", ["maxPoolSize"; "objectPool"]);
    ("reUnescapedHtml", ["htmlEscapes"]);
    ("setBindData", ["reNative"]);
    ("support", ["reNative"]);
    ("template", ["reInterpolate"]);
    ("templateSettings", ["reInterpolate"]);
    ("unescape", ["reEscapedHtml"]);
    ("unescapeHtmlChar", ["htmlUnescapes"]) ].

Definition categoryMap : DepMap :=
  [ ("Arrays", ["compact"; "difference"; "findIndex"; "findLastIndex"; "first"; "flatten"; "indexOf"; "initial"; "intersection"; "last"; "lastIndexOf"; "pull"; "range"; "remove"; "rest"; "sortedIndex"; "union"; "uniq"; "without"; "zip"; "zipObject"]);
    ("Chaining", ["chain"; "lodash"; "tap"; "wrapperChain"; "wrapperToString"; "wrapperValueOf"]);
    ("Collections", ["at"; "contains"; "countBy"; "every"; "filter"; "find"; "findLast"; "findWhere"; "forEach"; "forEachRight"; "groupBy"; "indexBy"; "invoke"; "map"; "max"; "min"; "pluck"; "reduce"; "reduceRight"; "reject"; "sample"; "shuffle"; "size"; "some"; "sortBy"; "toArray"; "where"]);
    ("Functions", ["after"; "bind"; "bindAll"; "bindKey"; "createCallback"; "compose"; "curry"; "debounce"; "defer"; "delay"; "memoize"; "once"; "partial"; "partialRight"; "throttle"; "wrap"]);
    ("Objects", ["assign"; "clone"; "cloneDeep"; "defaults"; "findKey"; "findLastKey"; "forIn"; "forInRight"; "forOwn"; "forOwnRight"; "functions"; "has"; "invert"; "isArguments"; "isArray"; "isBoolean"; "isDate"; "isElement"; "isEmpty"; "isEqual"; "isFinite"; "isFunction"; "isNaN"; "isNull"; "isNumber"; "isObject"; "isPlainObject"; "isRegExp"; "isString"; "isUndefined"; "keys"; "merge"; "omit"; "pairs"; "pick"; "transform"; "values"]);
    ("Utilities", ["escape"; "identity"; "mixin"; "noConflict"; "parseInt"; "random"; "result"; "runInContext"; "template"; "templateSettings"; "times"; "unescape"; "uniqueId"]) ].

Definition backboneDependencies : list string :=
  [ "bind"; "bindAll"; "chain"; "clone"; "contains"; "countBy"; "defaults";
    "escape"; "every"; "extend"; "filter"; "find"; "first"; "forEach";
    "groupBy"; "has"; "indexOf"; "initial"; "invert"; "invoke"; "isArray";
    "isEmpty"; "isEqual"; "isFunction"; "isObject"; "isRegExp"; "isString";
    "keys"; "last"; "lastIndexOf"; "lodash"; "map"; "max"; "min"; "mixin";
    "omit"; "once"; "pairs"; "pick"; "reduce"; "reduceRight"; "reject";
    "rest"; "result"; "shuffle"; "size"; "some"; "sortBy"; "sortedIndex";
    "toArray"; "uniqueId"; "value"; "values"; "without"; "wrapperChain";
    "wrapperValueOf" ].

Definition allExports : list string :=
  [ "amd"; "commonjs"; "global"; "node" ].

Definition complexVars : list string :=
  [ "cloneableClasses"; "contextProps"; "ctorByClass"; "freeGlobal";
    "nonEnumProps"; "shadowedProps"; "support"; "whitespace" ].

Definition lodashOnlyFuncs : list string :=
  [ "at"; "bindKey"; "cloneDeep"; "createCallback"; "curry"; "findIndex";
    "findKey"; "findLast"; "findLastIndex"; "findLastKey"; "forEachRight";
    "forIn"; "forInRight"; "forOwn"; "forOwnRight"; "indexBy";
    "isPlainObject"; "merge"; "parseInt"; "partialRight"; "pull"; "remove";
    "runInContext"; "sample"; "transform"; "wrapperToString" ].

Definition privateFuncs : list string :=
  [ "baseClone"; "baseCreateCallback"; "baseEach"; "baseFlatten";
    "baseIndexOf"; "baseIsEqual"; "baseMerge"; "baseUniq"; "cacheIndexOf";
    "cachePush"; "charAtCallback"; "compareAscending"; "createBound";
    "createCache"; "createIterator"; "escapeHtmlChar"; "escapeStringChar";
    "getArray"; "getObject"; "isNode"; "iteratorTemplate"; "lodashWrapper";
    "noop"; "releaseArray"; "releaseObject"; "setBindData";
    "shimIsPlainObject"; "shimKeys"; "slice"; "unescapeHtmlChar" ].


(** [_.uniq(_.transform(depMap, (result, names) => push.apply(result, names), []))] *)
Definition allDependencies (m : DepMap) : list string :=
  uniq (flat_map snd m).

Definition propDependencies : list string := allDependencies propDependencyMap.
Definition varDependencies : list string := allDependencies varDependencyMap.

Definition allCategories : list string := keys categoryMap.

(** ** Alias resolution (lines 1466-1472) *)

(** [getRealName(funcName, depMap)]; [depMap] is optional and defaults to
    [funcDependencyMap].  The table value is used when it is truthy, that is
    a non-empty string. *)
Definition getRealName (funcName : string) (depMap : option DepMap) : string :=
  let m := match depMap with Some m => m | None => funcDependencyMap end in
  if negb (hasOwn m funcName) && hasOwn aliasToRealMap funcName then
    match get aliasToRealMap funcName with
    | Some real => if String.eqb real "" then funcName else real
    | None => funcName
    end
  else funcName.

(** ** Dependency traversals (lines 1298-1360) *)

(** The first argument of [getDependencies] and [getDependants]: one name or
    an array of names ([_.isArray(funcName)]). *)
Inductive funcArg : Type :=
| Name (s : string)
| Names (l : list string).

(** [_.isArray(funcName) ? funcName : [funcName]] *)
Definition argNames (funcName : funcArg) : list string :=
  match funcName with Names l => l | Name n => [n] end.

(** [depMap[name]] when [name] is an own property; the absent case ([false]
    in the source) behaves as the empty array wherever it is used. *)
Definition depsOf (depMap : DepMap) (n : string) : list string :=
  match get depMap n with Some d => d | None => [] end.

(** [_.isArray(funcName) ? funcName
      : (hasOwnProperty.call(depMap, funcName) && depMap[funcName])] *)
Definition argDeps (funcName : funcArg) (depMap : DepMap) : list string :=
  match funcName with Names l => l | Name n => depsOf depMap n end.

(** A traversal returns its result and the final state of the shared stack;
    [None] when the fuel of the model ran out. *)
Definition Traversal : Type := option (list string * list string).

Section Each.
(** The recursive call, given a name and the current stack. *)
Variable recur : string -> list string -> Traversal.

(** The callback of [_.transform(deps, ...)] in [getDependencies], run over
    [deps] from left to right on the accumulated [result] and the shared
    [stack]. *)
Fixpoint eachDependency (deps result stack : list string) : Traversal :=
  match deps with
  | [] => Some (result, stack)
  | otherName :: deps' =>
      if negb (contains stack otherName) then
        match recur otherName (stack ++ [otherName]) with
        | Some (sub, stack') =>
            eachDependency deps' (result ++ (sub ++ [otherName])) stack'
        | None => None
        end
      else eachDependency deps' result stack
  end.

(** The callback of [_.transform(depMap, ...)] in [getDependants], run over
    the entries of the map in order. *)
Fixpoint eachDependant (funcNames : list string) (entries : DepMap)
    (result stack : list string) : Traversal :=
  match entries with
  | [] => Some (result, stack)
  | (otherName, deps) :: entries' =>
      if negb (contains stack otherName)
         && existsb (fun funcName => contains deps funcName) funcNames then
        match recur otherName (stack ++ [otherName]) with
        | Some (sub, stack') =>
            eachDependant funcNames entries' (result ++ (otherName :: sub)) stack'
        | None => None
        end
      else eachDependant funcNames entries' result stack
  end.
End Each.

Definition uniqResult (t : Traversal) : Traversal :=
  match t with
  | Some (result, stack) => Some (uniq result, stack)
  | None => None
  end.

(** [getDependencies(funcName, depMap, isShallow, stack)].  The recursion of
    the source is bounded here by [fuel], one unit per nested call; the
    result carries the final state of the shared [stack]. *)
Fixpoint getDependenciesRec (fuel : nat) (funcName : funcArg) (depMap : DepMap)
    (isShallow : bool) (stack : list string) : Traversal :=
  let deps := argDeps funcName depMap in
  match deps with
  | [] => Some ([], stack)
  | _ :: _ =>
      if isShallow then Some (deps, stack)
      else match fuel with
           | 0 => None
           | S fuel' =>
               uniqResult
                 (eachDependency
                    (fun otherName stack' =>
                       getDependenciesRec fuel' (Name otherName) depMap isShallow stack')
                    deps [] stack)
           end
  end.

(** [getDependants(funcName, depMap, stack)] *)
Fixpoint getDependantsRec (fuel : nat) (funcName : funcArg) (depMap : DepMap)
    (stack : list string) : Traversal :=
  let funcNames := argNames funcName in
  match fuel with
  | 0 => None
  | S fuel' =>
      uniqResult
        (eachDependant
           (fun otherName stack' =>
              getDependantsRec fuel' (Name otherName) depMap stack')
           funcNames depMap [] stack)
  end.

(** Fuel that always suffices: one nested call per key of the map, plus the
    outer call (see [getDependenciesRec_total], [getDependantsRec_total]). *)
Definition traversalFuel (depMap : DepMap) : nat := S (length depMap).

Definition resultOf (t : Traversal) : list string :=
  match t with Some (result, _) => result | None => [] end.

(** A call from outside: no [stack] is passed, so a fresh one is created. *)
Definition getDependencies (funcName : funcArg) (depMap : DepMap)
    (isShallow : bool) : list string :=
  resultOf (getDependenciesRec (traversalFuel depMap) funcName depMap isShallow []).

Definition getDependants (funcName : funcArg) (depMap : DepMap) : list string :=
  resultOf (getDependantsRec (traversalFuel depMap) funcName depMap []).

(** ** Regular expressions and the string methods that take them

    The patterns of [build.js] are kept as the pattern text the source
    writes; [RegExp] parses that text and the matcher below runs it with the
    backtracking semantics of ECMAScript 5: greedy and lazy quantifiers,
    capture groups and back references, lookahead, [^] and [$] under the
    [m] flag, word boundaries.  Strings are taken as sequences of 8-bit
    characters.  A pattern text that is not well formed (a [SyntaxError] in
    the source) has no match here; every pattern of [build.js] is well
    formed once the spliced identifier is a word. *)
Module RegExp.

Inductive classItem : Type :=
| CChar (c : ascii)
| CRange (lo hi : ascii)
| CWord (negated : bool)
| CSpace (negated : bool)
| CDigit (negated : bool).

Inductive node : Type :=
| Empty
| Char (c : ascii)
| Dot
| Class (negated : bool) (items : list classItem)
| Seq (a b : node)
| Alt (a b : node)
| Repeat (min : nat) (max : option nat) (greedy : bool) (r : node)
| Group (index : nat) (r : node)
| Backref (index : nat)
| Look (positive : bool) (r : node)
| Bol
| Eol
| WordBoundary (negated : bool).

Definition code (c : ascii) : nat := nat_of_ascii c.
Definition between (lo hi n : nat) : bool := (lo <=? n) && (n <=? hi).

Definition isDigit (c : ascii) : bool := between 48 57 (code c).
Definition isWordChar (c : ascii) : bool :=
  between 97 122 (code c) || between 65 90 (code c) || isDigit c
  || (code c =? 95).
Definition isSpace (c : ascii) : bool :=
  between 9 13 (code c) || (code c =? 32) || (code c =? 160).
Definition isLineTerminator (c : ascii) : bool :=
  (code c =? 10) || (code c =? 13).

(** [Canonicalize] under the [i] flag. *)
Definition toUpper (c : ascii) : ascii :=
  if between 97 122 (code c) then ascii_of_nat (code c - 32) else c.

(** *** Parsing the pattern text *)

Definition ch (c : ascii) (s : string) : bool :=
  match s with
  | String c' EmptyString => Ascii.eqb c c'
  | _ => false
  end.

Definition controlEscape (c : ascii) : option ascii :=
  if ch c "n" then Some (ascii_of_nat 10)
  else if ch c "r" then Some (ascii_of_nat 13)
  else if ch c "t" then Some (ascii_of_nat 9)
  else if ch c "v" then Some (ascii_of_nat 11)
  else if ch c "f" then Some (ascii_of_nat 12)
  else if ch c "0" then Some (ascii_of_nat 0)
  else None.

Definition classEscape (c : ascii) : option classItem :=
  if ch c "w" then Some (CWord false)
  else if ch c "W" then Some (CWord true)
  else if ch c "s" then Some (CSpace false)
  else if ch c "S" then Some (CSpace true)
  else if ch c "d" then Some (CDigit false)
  else if ch c "D" then Some (CDigit true)
  else None.

(** The items of a character class, after the opening bracket and the
    optional [^], up to the closing bracket. *)
Fixpoint parseClassItems (inp : list ascii) (acc : list classItem)
  : option (list classItem * list ascii) :=
  match inp with
  | [] => None
  | c :: inp1 =>
      if ch c "]" then Some (rev acc, inp1)
      else if ch c "\" then
        match inp1 with
        | [] => None
        | e :: inp2 =>
            match classEscape e with
            | Some item => parseClassItems inp2 (item :: acc)
            | None =>
                let ch := if ch e "b" then ascii_of_nat 8
                          else match controlEscape e with
                               | Some x => x
                               | None => e
                               end in
                parseClassItems inp2 (CChar ch :: acc)
            end
        end
      else
        match inp1 with
        | d :: hi :: inp3 =>
            if ch d "-" && negb (ch hi "]") && negb (ch hi "\")
            then parseClassItems inp3 (CRange c hi :: acc)
            else parseClassItems inp1 (CChar c :: acc)
        | _ => parseClassItems inp1 (CChar c :: acc)
        end
  end.

Fixpoint parseDigits (inp : list ascii) (acc : option nat)
  : option nat * list ascii :=
  match inp with
  | c :: inp' =>
      if isDigit c
      then parseDigits inp'
             (Some (10 * match acc with Some n => n | None => 0 end
                    + (code c - 48)))
      else (acc, inp)
  | [] => (acc, inp)
  end.

(** A quantifier at the head of the input: minimum, maximum, rest. *)
Definition parseQuantifier (inp : list ascii)
  : option (nat * option nat * list ascii) :=
  match inp with
  | [] => None
  | c :: inp1 =>
      if ch c "*" then Some (0, None, inp1)
      else if ch c "+" then Some (1, None, inp1)
      else if ch c "?" then Some (0, Some 1, inp1)
      else if ch c "{" then
        match parseDigits inp1 None with
        | (Some lo, c1 :: inp2) =>
            if ch c1 "}" then Some (lo, Some lo, inp2)
            else if ch c1 "," then
              match parseDigits inp2 None with
              | (None, c2 :: inp3) =>
                  if ch c2 "}" then Some (lo, None, inp3) else None
              | (Some hi, c2 :: inp3) =>
                  if ch c2 "}" then Some (lo, Some hi, inp3) else None
              | _ => None
              end
            else None
        | _ => None
        end
      else None
  end.

(** An atom followed by its quantifier, if any, and the lazy mark. *)
Definition quantified (atom : node) (inp : list ascii) : node * list ascii :=
  match parseQuantifier inp with
  | Some (lo, hi, inp1) =>
      match inp1 with
      | c :: inp2 =>
          if ch c "?" then (Repeat lo hi false atom, inp2)
          else (Repeat lo hi true atom, inp1)
      | [] => (Repeat lo hi true atom, inp1)
      end
  | None => (atom, inp)
  end.

Definition parsed : Type := option (node * list ascii * nat).

Definition closeGroup (wrap : node -> node) (quantify : bool) (p : parsed)
  : parsed :=
  match p with
  | Some (r, c :: inp, n) =>
      if ch c ")" then
        if quantify
        then let (t, inp') := quantified (wrap r) inp in Some (t, inp', n)
        else Some (wrap r, inp, n)
      else None
  | _ => None
  end.

(** [n] counts the capture groups opened so far. *)
Fixpoint parseDisjunction (fuel : nat) (inp : list ascii) (n : nat) : parsed :=
  match fuel with
  | 0 => None
  | S fuel' =>
      match parseAlternative fuel' inp n with
      | Some (a, c :: inp1, n1) =>
          if ch c "|" then
            match parseDisjunction fuel' inp1 n1 with
            | Some (b, inp2, n2) => Some (Alt a b, inp2, n2)
            | None => None
            end
          else Some (a, c :: inp1, n1)
      | other => other
      end
  end
with parseAlternative (fuel : nat) (inp : list ascii) (n : nat) : parsed :=
  match fuel with
  | 0 => None
  | S fuel' =>
      match inp with
      | [] => Some (Empty, inp, n)
      | c :: _ =>
          if ch c "|" || ch c ")" then Some (Empty, inp, n)
          else
            match parseTerm fuel' inp n with
            | Some (t, inp1, n1) =>
                match parseAlternative fuel' inp1 n1 with
                | Some (r, inp2, n2) => Some (Seq t r, inp2, n2)
                | None => None
                end
            | None => None
            end
      end
  end
with parseTerm (fuel : nat) (inp : list ascii) (n : nat) : parsed :=
  match fuel with
  | 0 => None
  | S fuel' =>
      match inp with
      | [] => None
      | c :: inp1 =>
          if ch c "^" then Some (Bol, inp1, n)
          else if ch c "$" then Some (Eol, inp1, n)
          else if ch c "(" then
            match inp1 with
            | q :: k :: inp2 =>
                if ch q "?" then
                  if ch k ":" then
                    closeGroup (fun r => r) true (parseDisjunction fuel' inp2 n)
                  else if ch k "=" then
                    closeGroup (Look true) false (parseDisjunction fuel' inp2 n)
                  else if ch k "!" then
                    closeGroup (Look false) false (parseDisjunction fuel' inp2 n)
                  else None
                else
                  closeGroup (Group (S n)) true (parseDisjunction fuel' inp1 (S n))
            | _ =>
                closeGroup (Group (S n)) true (parseDisjunction fuel' inp1 (S n))
            end
          else if ch c "[" then
            let (negated, inp2) :=
              match inp1 with
              | h :: t => if ch h "^" then (true, t) else (false, inp1)
              | [] => (false, inp1)
              end in
            match parseClassItems inp2 [] with
            | Some (items, inp3) =>
                let (t, inp4) := quantified (Class negated items) inp3 in
                Some (t, inp4, n)
            | None => None
            end
          else if ch c "\" then
            match inp1 with
            | [] => None
            | e :: inp2 =>
                if ch e "b" then Some (WordBoundary false, inp2, n)
                else if ch e "B" then Some (WordBoundary true, inp2, n)
                else
                  let atom :=
                    match classEscape e with
                    | Some item => Class false [item]
                    | None =>
                        if between 49 57 (code e) then Backref (code e - 48)
                        else match controlEscape e with
                             | Some x => Char x
                             | None => Char e
                             end
                    end in
                  let (t, inp3) := quantified atom inp2 in Some (t, inp3, n)
            end
          else if ch c "*" || ch c "+" || ch c "?" then None
          else
            let atom := if ch c "." then Dot else Char c in
            let (t, inp2) := quantified atom inp1 in Some (t, inp2, n)
      end
  end.

(** A regular expression object: the parsed pattern, the number of its
    capture groups and its flags. *)
Record regexp : Type := {
  pattern : option node;
  groupCount : nat;
  ignoreCase : bool;
  global : bool;
  multiline : bool
}.

Definition hasFlag (flags : string) (f : ascii) : bool :=
  existsb (Ascii.eqb f) (list_ascii_of_string flags).

(** [RegExp(pattern, flags)] *)
Definition RegExp (source flags : string) : regexp :=
  let inp := list_ascii_of_string source in
  let p := match parseDisjunction (3 * List.length inp + 3) inp 0 with
           | Some (r, [], n) => Some (r, n)
           | _ => None
           end in
  {| pattern := option_map fst p;
     groupCount := match p with Some (_, n) => n | None => 0 end;
     ignoreCase := hasFlag flags "i";
     global := hasFlag flags "g";
     multiline := hasFlag flags "m" |}.

(** *** Matching *)

(** The characters before the current position (nearest first), those
    from it on, and the captures made so far. *)
Record state : Type := {
  before : list ascii;
  after : list ascii;
  captures : list (nat * list ascii)
}.

Definition advance (k : nat) (s : state) : state :=
  {| before := rev (firstn k (after s)) ++ before s;
     after := skipn k (after s);
     captures := captures s |}.

Fixpoint capture (caps : list (nat * list ascii)) (i : nat)
  : option (list ascii) :=
  match caps with
  | [] => None
  | (j, v) :: caps' => if i =? j then Some v else capture caps' i
  end.

Fixpoint groupsIn (r : node) : list nat :=
  match r with
  | Seq a b | Alt a b => groupsIn a ++ groupsIn b
  | Repeat _ _ _ a | Look _ a => groupsIn a
  | Group i a => i :: groupsIn a
  | _ => []
  end.

Definition clearCaptures (gs : list nat) (s : state) : state :=
  {| before := before s;
     after := after s;
     captures := filter (fun c => negb (existsb (Nat.eqb (fst c)) gs))
                   (captures s) |}.

Section Matcher.
Variable re : regexp.

Definition sameChar (a b : ascii) : bool :=
  if ignoreCase re then Ascii.eqb (toUpper a) (toUpper b) else Ascii.eqb a b.

Definition itemMatches (c : ascii) (item : classItem) : bool :=
  match item with
  | CChar x => sameChar x c
  | CRange lo hi =>
      between (code lo) (code hi) (code c)
      || (ignoreCase re
          && (between (code lo) (code hi) (code (toUpper c))
              || (between 65 90 (code c)
                  && between (code lo) (code hi) (code c + 32))))
  | CWord negated => xorb negated (isWordChar c)
  | CSpace negated => xorb negated (isSpace c)
  | CDigit negated => xorb negated (isDigit c)
  end.

Definition one (p : ascii -> bool) (s : state) (k : state -> option state)
  : option state :=
  match after s with
  | c :: _ => if p c then k (advance 1 s) else None
  | [] => None
  end.

Fixpoint isPrefix (p l : list ascii) : bool :=
  match p, l with
  | [], _ => true
  | a :: p', b :: l' => sameChar a b && isPrefix p' l'
  | _ :: _, [] => false
  end.

Definition wordBefore (s : state) : bool :=
  match before s with c :: _ => isWordChar c | [] => false end.
Definition wordAfter (s : state) : bool :=
  match after s with c :: _ => isWordChar c | [] => false end.

(** [run r s k]: match [r] at [s], then go on with [k]; the first
    success in backtracking order. *)
Fixpoint run (r : node) (s : state) (k : state -> option state)
  {struct r} : option state :=
  match r with
  | Empty => k s
  | Char c => one (sameChar c) s k
  | Dot => one (fun c => negb (isLineTerminator c)) s k
  | Class negated items =>
      one (fun c => xorb negated (existsb (itemMatches c) items)) s k
  | Seq a b => run a s (fun s' => run b s' k)
  | Alt a b =>
      match run a s k with
      | Some z => Some z
      | None => run b s k
      end
  | Repeat lo hi greedy a =>
      (fix repeat (fuel lo : nat) (hi : option nat) (s : state)
         {struct fuel} : option state :=
         match fuel with
         | 0 => None
         | S fuel' =>
             match hi with
             | Some 0 => k s
             | _ =>
                 let again :=
                   run a (clearCaptures (groupsIn a) s)
                     (fun s' =>
                        if (lo =? 0)
                           && (List.length (after s') =? List.length (after s))
                        then None
                        else repeat fuel' (pred lo) (option_map pred hi) s') in
                 if 0 <? lo then again
                 else if greedy then
                   match again with
                   | Some z => Some z
                   | None => k s
                   end
                 else
                   match k s with
                   | Some z => Some z
                   | None => again
                   end
             end
         end) (lo + List.length (after s) + 1) lo hi s
  | Group i a =>
      run a s
        (fun s' =>
           let taken := List.length (before s') - List.length (before s) in
           k {| before := before s';
                after := after s';
                captures := (i, rev (firstn taken (before s')))
                              :: captures s' |})
  | Backref i =>
      match capture (captures s) i with
      | None => k s
      | Some v =>
          if isPrefix v (after s) then k (advance (List.length v) s) else None
      end
  | Look positive a =>
      match run a s (fun s' => Some s') with
      | Some s' =>
          if positive
          then k {| before := before s; after := after s;
                    captures := captures s' |}
          else None
      | None => if positive then None else k s
      end
  | Bol =>
      match before s with
      | [] => k s
      | c :: _ => if multiline re && isLineTerminator c then k s else None
      end
  | Eol =>
      match after s with
      | [] => k s
      | c :: _ => if multiline re && isLineTerminator c then k s else None
      end
  | WordBoundary negated =>
      if xorb negated (xorb (wordBefore s) (wordAfter s)) then k s else None
  end.

(** A match: where it starts, the matched text, the text of each
    capture group ([None] for a group that took no part), and what
    follows the match. *)
Record found : Type := {
  index : nat;
  matched : string;
  groups : list (option string);
  following : list ascii
}.

Definition matchAt (prev rest : list ascii) : option found :=
  match pattern re with
  | None => None
  | Some r =>
      match run r {| before := prev; after := rest; captures := [] |}
              (fun s => Some s) with
      | None => None
      | Some s =>
          let taken := List.length (before s) - List.length prev in
          Some {| index := List.length prev;
                  matched := string_of_list_ascii (firstn taken rest);
                  groups := map (fun i => option_map string_of_list_ascii
                                            (capture (captures s) i))
                              (seq 1 (groupCount re));
                  following := after s |}
      end
  end.

(** The first match at or after the current position. *)
Fixpoint search (prev rest : list ascii) : option found :=
  match matchAt prev rest with
  | Some f => Some f
  | None =>
      match rest with
      | [] => None
      | c :: rest' => search (c :: prev) rest'
      end
  end.
End Matcher.

(** [regexp.exec(string)] for a regular expression without the [g] flag,
    and [string.match(regexp)] for the same. *)
Definition exec (re : regexp) (s : string) : option found :=
  search re [] (list_ascii_of_string s).

(** [regexp.test(string)] *)
Definition test (re : regexp) (s : string) : bool :=
  match exec re s with Some _ => true | None => false end.

(** The match array: the matched text, then the groups. *)
Definition matchArray (f : found) : list (option string) :=
  Some (matched f) :: groups f.

(** [array[i]] of a match array; [None] for [undefined]. *)
Definition item (l : list (option string)) (i : nat) : option string :=
  nth i l None.

(** A value used as a string where the source relies on it being one:
    [undefined] prints as the empty text in replacements. *)
Definition text (o : option string) : string :=
  match o with Some s => s | None => "" end.

(** *** Replacing *)

(** [string.replace(regexp, callback)]: the first match, or every match
    under the [g] flag, is replaced by what [callback] returns for it. *)
Fixpoint replaceLoop (re : regexp) (callback : found -> string)
    (fuel : nat) (prev rest : list ascii) : list ascii :=
  match fuel with
  | 0 => rest
  | S fuel' =>
      match search re prev rest with
      | None => rest
      | Some f =>
          let skipped := firstn (index f - List.length prev) rest in
          let out := skipped ++ list_ascii_of_string (callback f) in
          let taken := list_ascii_of_string (matched f) in
          if global re then
            match taken, following f with
            | [], c :: rest' =>
                out ++ c :: replaceLoop re callback fuel'
                              (c :: rev skipped ++ prev) rest'
            | [], [] => out
            | _, _ =>
                out ++ replaceLoop re callback fuel'
                         (rev taken ++ rev skipped ++ prev) (following f)
            end
          else out ++ following f
      end
  end.

Definition replaceWith (s : string) (re : regexp) (callback : found -> string)
  : string :=
  let l := list_ascii_of_string s in
  string_of_list_ascii (replaceLoop re callback (S (List.length l)) [] l).

(** The replacement text of [string.replace(pattern, text)]: [$1]..[$9]
    stand for the groups, [$&] for the match, [$$] for a dollar sign. *)
Fixpoint expand (template : list ascii) (f : found) : list ascii :=
  match template with
  | [] => []
  | c :: t1 =>
      if ch c "$" then
        match t1 with
        | d :: t2 =>
            if ch d "$" then d :: expand t2 f
            else if ch d "&" then list_ascii_of_string (matched f) ++ expand t2 f
            else if between 49 57 (code d) && (code d - 48 <=? List.length (groups f))
            then list_ascii_of_string (text (nth (code d - 49) (groups f) None))
                   ++ expand t2 f
            else c :: expand t1 f
        | [] => [c]
        end
      else c :: expand t1 f
  end.

(** [string.replace(regexp, text)] *)
Definition replace (s : string) (re : regexp) (replacement : string) : string :=
  replaceWith s re
    (fun f => string_of_list_ascii (expand (list_ascii_of_string replacement) f)).

(** The matches [string.replace] visits for a regular expression under
    the [g] flag, in order. *)
Fixpoint findAllLoop (re : regexp) (fuel : nat) (prev rest : list ascii)
  : list found :=
  match fuel with
  | 0 => []
  | S fuel' =>
      match search re prev rest with
      | None => []
      | Some f =>
          let skipped := firstn (index f - List.length prev) rest in
          let taken := list_ascii_of_string (matched f) in
          match taken, following f with
          | [], c :: rest' =>
              f :: findAllLoop re fuel' (c :: rev skipped ++ prev) rest'
          | [], [] => [f]
          | _, _ =>
              f :: findAllLoop re fuel' (rev taken ++ rev skipped ++ prev)
                     (following f)
          end
      end
  end.

Definition findAll (s : string) (re : regexp) : list found :=
  let l := list_ascii_of_string s in
  findAllLoop re (S (List.length l)) [] l.

(** *** Replacing a text that is searched as it is *)

Fixpoint startsWith (p l : list ascii) : bool :=
  match p, l with
  | [], _ => true
  | a :: p', b :: l' => Ascii.eqb a b && startsWith p' l'
  | _ :: _, [] => false
  end.

(** The text before and after the first occurrence of [p]. *)
Fixpoint splitAtFirst (p prev rest : list ascii)
  : option (list ascii * list ascii) :=
  if startsWith p rest then Some (rev prev, skipn (List.length p) rest)
  else match rest with
       | [] => None
       | c :: rest' => splitAtFirst p (c :: prev) rest'
       end.

(** [string.replace(searchText, callback)]: the first occurrence of the
    text is replaced by what [callback] returns for it. *)
Definition replaceTextWith (s searchText : string) (callback : string -> string)
  : string :=
  match splitAtFirst (list_ascii_of_string searchText) []
          (list_ascii_of_string s) with
  | Some (l, r) =>
      string_of_list_ascii (l ++ list_ascii_of_string (callback searchText) ++ r)
  | None => s
  end.

(** [string.replace(searchText, '')] *)
Definition removeText (s searchText : string) : string :=
  replaceTextWith s searchText (fun _ => "").

(** *** Splitting *)

(** [string.split(regexp)] for a pattern without capture groups. *)
Fixpoint splitLoop (re : regexp) (fuel : nat) (piece prev rest : list ascii)
  : list string :=
  match fuel with
  | 0 => []
  | S fuel' =>
      match rest with
      | [] => [string_of_list_ascii (rev piece)]
      | c :: rest' =>
          match matchAt re prev rest with
          | Some f =>
              match list_ascii_of_string (matched f), piece with
              | [], [] => splitLoop re fuel' [c] (c :: prev) rest'
              | taken, _ =>
                  string_of_list_ascii (rev piece)
                    :: splitLoop re fuel' [] (rev taken ++ prev) (following f)
              end
          | None => splitLoop re fuel' (c :: piece) (c :: prev) rest'
          end
      end
  end.

Definition split (s : string) (re : regexp) : list string :=
  match list_ascii_of_string s with
  | [] => match matchAt re [] [] with Some _ => [] | None => [""] end
  | l => splitLoop re (S (S (List.length l))) [] [] l
  end.

End RegExp.

Import RegExp.

(** The line feed and the double quote, for pattern and source texts. *)
Definition LF : string := String (ascii_of_nat 10) "".
Definition DQ : string := String (ascii_of_nat 34) "".

(** A value in a condition: [null], [undefined] and the empty text are falsy. *)
Definition truthy (o : option string) : bool :=
  match o with
  | Some s => negb (String.eqb s "")
  | None => false
  end.

(** ** Locating declarations in the source text (lines 1529-1630) *)

(** Used to create regexes that may detect multi-line comment blocks
    (line 42). *)
Definition multilineComment : string :=
  "(?:\n */\*[^*]*\*+(?:[^/][^*]*\*+)*/)?\n".

(** The four declaration patterns of [matchFunction], in the order tried. *)
Definition functionPatterns (funcName : string) : list string :=
  [ (* variable declarations using createAggregator, createIterator, template *)
    "( *)var " +++ funcName
      +++ " *=.*?(?:create[A-Z][a-z]+|template)\((?:.+|[\s\S]+?\n\3}?)\);\n";
    (* a function declaration *)
    "( *)function " +++ funcName +++ "\b[\s\S]+?\n\3}\n";
    (* a variable declaration with function expression *)
    "( *)var " +++ funcName
      +++ " *=.*?function\(.+?{\n[\s\S]+?\n\3}(?:\(\)\))?;\n";
    (* a simple variable declaration *)
    " *var " +++ funcName +++ " *=.+?;\n" ].

(** The regular expression [matchFunction] builds from one of them. *)
Definition functionRegExp (reSource : string) : regexp :=
  RegExp ("(" +++ multilineComment +++ ")" +++ "(" +++ reSource +++ ")") "".

(** [matchFunction(source, funcName, leadingComments)].  The reduction keeps
    [result.slice(1, 3)] of the first pattern that matches. *)
Definition matchFunction (source funcName : string) (leadingComments : bool)
  : string :=
  let result :=
    fold_left
      (fun (result : option (list (option string))) reSource =>
         match result with
         | Some _ => result
         | None =>
             match exec (functionRegExp reSource) source with
             | Some f => Some (firstn 2 (skipn 1 (matchArray f)))
             | None => None
             end
         end)
      (functionPatterns funcName) None in
  match result with
  | Some r =>
      if test (RegExp "@type +Function\b" "") (text (item r 0))
         || test (RegExp "(?:function(?:\s+\w+)?\b|create[A-Z][a-z]+|template)\(" "")
              (text (item r 1))
      then (if leadingComments then text (item r 0) else "") +++ text (item r 1)
      else ""
  | None => ""
  end.

(** The regular expression of [matchProp]. *)
Definition propRegExp (propName : string) (leadingComments : bool) : regexp :=
  RegExp
    ((if leadingComments then multilineComment else "\n")
     +++ "(?: {2,4}var " +++ propName +++ "\b.+|(?: *|.*?=\s*)lodash\._?"
     +++ propName +++ "\s*)=[\s\S]+?"
     +++ "(?:\(function[\s\S]+?\([^)]*\)\);\n(?=\n)|"
     +++ "[;}]\n(?=\n(?!\s*\(func)))") "".

(** [matchProp(source, propName, leadingComments)] *)
Definition matchProp (source propName : string) (leadingComments : bool)
  : string :=
  match exec (propRegExp propName leadingComments) source with
  | Some f => matched f
  | None => ""
  end.

(** List of variables with complex assignments (line 538). *)
Definition isComplexVar (varName : string) : bool := contains complexVars varName.

(** The declaration patterns of [matchVar], in the order tried. *)
Definition varPatterns (varName : string) (isShallow : bool) : list string :=
  let indentA := if isShallow then " {2}" else " {2,4}" in
  let indentB := if isShallow then " {6}" else " {6,8}" in
  if negb (String.eqb varName "freeGlobal") && isComplexVar varName then
    (* complex variable assignments *)
    [ indentA +++ "var " +++ varName +++ " *=[\s\S]+?"
        +++ "(?:\(function[\s\S]+?\([^)]*\)\);\n(?=\n)|"
        +++ "[;}]\n(?=\n(?!\s*\(func)))" ]
  else
    [ (* a variable at the start of a declaration list *)
      indentA +++ "var " +++ varName +++ " *=.+?,\n(?= *\w+ *=)";
      (* a variable declaration in a declaration list *)
      indentB +++ varName +++ " *=.+?[,;]\n";
      (* a variable that is not part of a declaration list *)
      "(" +++ indentA +++ ")var " +++ varName
        +++ " *(?:|= *(?:.+?(?:&&\n[^;]+)?|(?:\w+\(|[{[(]\n)[\s\S]+?\n\1[^\n ]+?));\n" ].

(** The regular expression [matchVar] builds from one of them. *)
Definition varRegExp (reSource : string) : regexp := RegExp ("^" +++ reSource) "m".

(** [matchVar(source, varName, isShallow)] *)
Definition matchVar (source varName : string) (isShallow : bool) : string :=
  let result :=
    fold_left
      (fun (result : option string) reSource =>
         if truthy result then result
         else match exec (varRegExp reSource) source with
              | Some f => Some (matched f)
              | None => None
              end)
      (varPatterns varName isShallow) None in
  if truthy result then text result else "".

(** [isVarUsed(source, varName, isShallow)] *)
Definition isVarUsed (source varName : string) (isShallow : bool) : bool :=
  let match_ := matchVar source varName isShallow in
  if String.eqb match_ "" then false
  else
    (* remove the variable assignment from the source *)
    let source := removeText source match_ in
    test (RegExp ("[^\w" +++ DQ +++ "'.]" +++ varName +++ "\b") "") source.

(** ** Removing declarations from the source text *)

(** [removeComments(source)] (line 1703) *)
Definition removeComments (source : string) : string :=
  replace source (RegExp "^ *(?:\/\*[^*]*\*+(?:[^\/][^*]*\*+)*\/|\/\/.+)\n" "gm") "".

(** [removeStrings(source)] (line 2053) *)
Definition removeStrings (source : string) : string :=
  replace source
    (RegExp ("([" +++ DQ +++ "'])(?:(?!\1)[^\n\\]|\\.)*\1") "g") "".

(** [removeProp(source, propName)] (line 1970) *)
Definition removeProp (source propName : string) : string :=
  removeText source (matchProp source propName true).

Section RemoveFunction.
(** [removeRunInContext], to which [removeFunction] defers. *)
Variable removeRunInContext : string -> string.

(** [removeFunction(source, funcName)] (line 1834) *)
Definition removeFunctionWith (source funcName : string) : string :=
  (* defer to specialized removal functions *)
  if String.eqb funcName "runInContext" then removeRunInContext source
  else
    (* remove function *)
    let snippet := matchFunction source funcName true in
    if negb (String.eqb snippet "") then removeText source snippet else source.

(** [removeVar(source, varName)] (line 2320): the first of the four
    removals that changes the source is kept. *)
Definition removeVarWith (source varName : string) : string :=
  (* simplify complex variable assignments *)
  let source :=
    if isComplexVar varName then
      replace source
        (RegExp ("^( *var " +++ varName +++ ") *=[\s\S]+?"
                 +++ "(?:\(function[\s\S]+?\([^)]*\)\);(?=\n\n)|"
                 +++ "[;}](?=\n\n(?!\s*\(func)))") "m")
        "$1 = null;"
    else source in
  let attempts : list (unit -> string) :=
    [ fun _ => removeFunctionWith source varName;
      (* a variable at the start of a declaration list *)
      fun _ => replace source (RegExp ("(var +)" +++ varName +++ " *=.+?,\n *") "") "$1";
      (* a variable declaration in a declaration list *)
      fun _ => replace source
                 (RegExp ("( *(?:var +)?\w+ *=.+?),\n *" +++ varName
                          +++ " *=.+?([,;])(?=\n)") "") "$1$2";
      (* a variable that is not part of a declaration list *)
      fun _ => replace source
                 (RegExp (multilineComment +++ "( *)var " +++ varName
                          +++ " *(?:|= *(?:.+?(?:|&&\n[^;]+)|(?:\w+\(|[{[(]\n)[\s\S]+?\n\1[^\n ]+?));\n")
                    "") "" ] in
  (fix some (attempts : list (unit -> string)) : string :=
     match attempts with
     | [] => source
     | func :: attempts' =>
         let result := func tt in
         if negb (String.eqb result source) then result else some attempts'
     end) attempts.
End RemoveFunction.

(** [removeFunction], [removeRunInContext] and [removeVar] call one another
    in the source.  [removeRunInContext] only removes the three timer
    variables, for which [removeFunction] does not defer again; the
    functions are defined along that chain of calls. *)
Definition removeRunInContext (source : string) : string :=
  let removeVar := removeVarWith (fun source => source) in
  (* replace reference in `reThis` assignment *)
  let source := replace source (RegExp "\btest\(runInContext\)" "")
                  "test(function() { return this; })" in
  (* remove assignment *)
  let source := replace source
                  (RegExp "^(?: *\/\/.*\s*)* *lodash\.runInContext *=[\s\S]+?;\n" "m") "" in
  (* remove function scaffolding, leaving most of its content *)
  let source :=
    replaceTextWith source (matchFunction source "runInContext" true)
      (fun match_ =>
         replace
           (replace match_
              (RegExp "^[\s\S]+?function runInContext[\s\S]+?context *= *context.+| *return lodash[\s\S]+$" "g")
              "")
           (RegExp "^ {4}" "gm") "  ") in
  (* cleanup adjusted source *)
  let source := replace source (RegExp "\bcontext\b" "g") "window" in
  let source := replace source
                  (RegExp "(?:\n +\/\*[^*]*\*+(?:[^\/][^*]*\*+)*\/)?\n *var Array *=[\s\S]+?;\n" "")
                  "" in
  let source := replace source (RegExp "(return *|= *)_([;)])" "g") "$1lodash$2" in
  let source := replace source
                  (RegExp "^(?: *\/\/.*\s*)* *var _ *= *runInContext\b.+\n+" "m") "" in
  (* remove local timer variables *)
  let source := removeVar source "clearTimeout" in
  let source := removeVar source "setImmediate" in
  let source := removeVar source "setTimeout" in
  source.

Definition removeFunction : string -> string -> string :=
  removeFunctionWith removeRunInContext.

Definition removeVar : string -> string -> string :=
  removeVarWith removeRunInContext.

(** ** String methods *)

(** [array.join(separator)] *)
Fixpoint join (separator : string) (l : list string) : string :=
  match l with
  | [] => ""
  | [x] => x
  | x :: l' => x +++ separator +++ join separator l'
  end.

Definition mapChars (f : ascii -> ascii) (s : string) : string :=
  string_of_list_ascii (map f (list_ascii_of_string s)).

Definition lowerChar (c : ascii) : ascii :=
  if between 65 90 (code c) then ascii_of_nat (code c + 32) else c.

(** [string.toLowerCase()], [string.toUpperCase()] *)
Definition toLowerCase : string -> string := mapChars lowerChar.
Definition toUpperCase : string -> string := mapChars toUpper.

(** [capitalize(string)] (line 1114) *)
Definition capitalize (s : string) : string :=
  match s with
  | EmptyString => ""
  | String c rest => toUpperCase (String c "") +++ rest
  end.

(** [array.sort()]: ascending by character codes. *)
Fixpoint insertSorted (x : string) (l : list string) : list string :=
  match l with
  | [] => [x]
  | y :: l' => if String.leb x y then x :: l else y :: insertSorted x l'
  end.

Definition sort (l : list string) : list string := fold_right insertSorted [] l.

(** [_.sortBy(collection, callback)] for a callback that returns a boolean:
    the sort is stable and [false] comes before [true]. *)
Definition sortBy (l : list string) (callback : string -> bool) : list string :=
  filter (fun x => negb (callback x)) l ++ filter callback l.

(** A value passed where a string is expected: [undefined] reads
    ["undefined"]. *)
Definition toString (o : option string) : string :=
  match o with Some s => s | None => "undefined" end.

(** ** Options (lines 1639-1660) *)

(** [optionToArray(value)] for the text of an option; its callers have
    checked that the option has the form [name=...]. *)
Definition optionToArray (value : string) : list string :=
  match exec (RegExp "\w+=(.*)$" "") value with
  | Some f => compact (split (text (item (matchArray f) 1)) (RegExp ", *" ""))
  | None => []
  end.

(** [optionToMethodsArray(value, depMap)] *)
Definition optionToMethodsArray (value : string) (depMap : DepMap) : list string :=
  map (fun identifier => getRealName identifier (Some depMap)) (optionToArray value).

(** [getNamesByCategory(category)] (line 1454) *)
Definition getNamesByCategory (category : string) : list string :=
  depsOf categoryMap category.

(** ** Editing a dependency map in place *)

(** [_.pull(depMap[key], v1, ...)] *)
Definition pullAt (m : DepMap) (key : string) (values : list string) : DepMap :=
  match get m key with
  | Some deps => set m key (pull deps values)
  | None => m
  end.

(** [depMap[key].push(v1, ...)], for a key the map holds. *)
Definition pushAt (m : DepMap) (key : string) (values : list string) : DepMap :=
  match get m key with
  | Some deps => set m key (deps ++ values)
  | None => m
  end.

(** [(depMap[key] || (depMap[key] = [])).push(v1, ...)] *)
Definition pushOrCreate (m : DepMap) (key : string) (values : list string) : DepMap :=
  set m key (depsOf m key ++ values).

(** [_.forOwn(depMap, (deps, key) => ...)] where the callback edits the
    array of the key it is called for. *)
Definition forOwn (m : DepMap) (edit : DepMap -> string -> list string -> list string)
  : DepMap :=
  fold_left
    (fun m key => match get m key with
                  | Some deps => set m key (edit m key deps)
                  | None => m
                  end)
    (keys m) m.

(** [_.each(names, name => ...)] where the callback edits the map. *)
Definition each (names : list string) (edit : DepMap -> string -> DepMap) (m : DepMap)
  : DepMap :=
  fold_left edit names m.

(** ** The build (lines 2468-4482) *)

(** The flags and name lists [build] derives from its options, and its
    private copies of the dependency maps. *)
Record BuildState : Type := {
  isBackbone : bool;
  isCSP : bool;
  isLegacy : bool;
  isMobile : bool;
  isModern : bool;
  isModularize : bool;
  isStrict : bool;
  isUnderscore : bool;
  isTemplate : bool;
  categoryOptions : list string;
  exportsOptions : list string;
  includeFuncs : list string;
  includeProps : list string;
  includeVars : list string;
  minusFuncs : list string;
  plusFuncs : list string;
  funcDepMap : DepMap;
  propDepMap : DepMap;
  varDepMap : DepMap
}.

(** What one invocation of [build] does before it resolves and prunes. *)
Inductive Outcome : Type :=
| DisplayedHelp                          (* displayHelp(); return *)
| LoggedVersion                          (* console.log(_.VERSION); return *)
| Threw (body : string)                  (* Function(body)() throws *)
| LoggedWarnings (message : string)      (* console.log(message); return *)
| Continues (state : BuildState).        (* goes on to resolve, prune and emit *)

(** The shared state of [expand]: the accumulated identifiers, the stack of
    names already expanded, and the outer [buildFuncs] it adds to. *)
Record Expansion : Type := {
  identifiers : list string;
  expanded : list string;
  kept : list string
}.

(** The build set of one invocation. *)
Record Resolved : Type := {
  resolvedFuncDepMap : DepMap;
  resolvedPropDepMap : DepMap;
  resolvedVarDepMap : DepMap;
  buildFuncs : list string;
  buildProps : list string;
  buildVars : list string
}.

Section Build.
(** [typeof _[key]] for the library [build.js] loads from [lodash.js]. *)
Variable typeofLodash : string -> string.
(** [path.sepEscaped] of [build/util.js]. *)
Variable sepEscaped : string.
(** Whether [Function(body)()] returns for the text [body]; it throws when
    it does not.  The object it returns goes into [templateSettings], which
    only a template build reads; what else the evaluated text may do is
    outside the model. *)
Variable evaluates : string -> bool.

Definition isFunctionOrUndefined (key : string) : bool :=
  let type := typeofLodash key in
  String.eqb type "function" || String.eqb type "undefined".

(** List of all functions (line 639) *)
Definition allFuncs : list string :=
  filter isFunctionOrUndefined
    (difference (keys funcDependencyMap) (propDependencies ++ varDependencies)).

(** List of Lo-Dash functions (line 645) *)
Definition lodashFuncs : list string :=
  difference allFuncs (privateFuncs ++ ["findWhere"]).

(** List of Underscore functions (line 648) *)
Definition underscoreFuncs : list string :=
  difference allFuncs (lodashOnlyFuncs ++ privateFuncs).

(** Used to detect the Node.js executable in command-line arguments
    (line 45) *)
Definition reNode : regexp :=
  RegExp ("(?:^|" +++ sepEscaped +++ ")node(?:\.exe)?$") "i".

(** [isLodash(funcName)] (line 2493), on the current values of
    [includeFuncs], [plusFuncs] and [minusFuncs]. *)
Definition isLodash (includeFuncs plusFuncs minusFuncs : list string)
    (funcName : string) : bool :=
  let funcName := getRealName funcName None in
  if contains lodashOnlyFuncs funcName
     || test (RegExp "^(?:assign|zipObject)$" "") funcName
  then contains (difference (union includeFuncs plusFuncs) minusFuncs) funcName
  else contains (difference plusFuncs minusFuncs) funcName.

(** The names of a category that a build may use (lines 2709-2719). *)
Definition categoryFuncs (isBackbone isUnderscore : bool) (category : string)
  : list string :=
  let otherFuncs := filter isFunctionOrUndefined (getNamesByCategory category) in
  (* limit function names to those available for specific builds *)
  if isBackbone then intersection otherFuncs backboneDependencies
  else if isUnderscore then intersection otherFuncs underscoreFuncs
  else otherFuncs.

(** expand categories to function names (lines 2705-2722) *)
Definition expandCategories (isBackbone isUnderscore : bool)
    (funcNames : list string) : list string :=
  fold_left
    (fun funcNames category =>
       funcNames ++ categoryFuncs isBackbone isUnderscore category)
    (intersection funcNames allCategories) funcNames.

(** The option-dependent values of [build], as they stand at line 2729. *)
Definition parseOptions (options : list string) : BuildState :=
  let isBackbone := contains options "backbone" in
  let isCSP := contains options "csp" || contains options "CSP" in
  let isMobile := contains options "mobile" in
  let isModern := isCSP || isMobile || contains options "modern" in
  let isModularize := contains options "modularize" in
  let isStrict := contains options "strict" in
  let isUnderscore := isBackbone || contains options "underscore" in
  let isLegacy := negb (isModern || isUnderscore) && contains options "legacy" in
  (* used to specify the ways to export the `lodash` function *)
  let exportsOptions :=
    fold_left
      (fun result value =>
         if test (RegExp "^exports=.*$" "") value
         then sort (optionToArray value) else result)
      options
      (if isUnderscore then ["commonjs"; "global"; "node"] else allExports) in
  (* used to match external template files to precompile *)
  let templatePattern :=
    fold_left
      (fun result value =>
         match exec (RegExp "^template=(.+)$" "") value with
         | Some f => text (item (matchArray f) 1)
         | None => result
         end)
      options "" in
  let isTemplate := negb (String.eqb templatePattern "") in
  (* delete the `_.findWhere` dependency map to enable its alias mapping;
     the three name lists are not assigned yet when `isLodash` runs here *)
  let funcDepMap :=
    if negb isUnderscore || isLodash [] [] [] "findWhere"
    then delete funcDependencyMap "findWhere" else funcDependencyMap in
  (* categories of functions to include in the build *)
  let categoryOptions :=
    fold_left
      (fun accumulator value =>
         if test (RegExp "^category=.+$" "") value
         then uniq (map (fun category => capitalize (toLowerCase category))
                        (optionToArray value))
         else accumulator)
      options [] in
  (* functions to include in the build *)
  let includeFuncs :=
    fold_left
      (fun accumulator value =>
         if test (RegExp "^include=.*$" "") value
         then union accumulator (optionToMethodsArray value funcDepMap)
         else accumulator)
      options categoryOptions in
  (* properties and variables to include in the build *)
  let includeProps := intersection includeFuncs propDependencies in
  let includeVars := intersection includeFuncs varDependencies in
  (* functions to remove from the build *)
  let minusFuncs :=
    fold_left
      (fun accumulator value =>
         if test (RegExp "^(?:exclude|minus)=.*$" "") value
         then union accumulator (optionToMethodsArray value funcDepMap)
         else accumulator)
      options [] in
  (* functions to add to the build *)
  let plusFuncs :=
    fold_left
      (fun accumulator value =>
         if test (RegExp "^plus=.*$" "") value
         then union accumulator (optionToMethodsArray value funcDepMap)
         else accumulator)
      options [] in
  (* expand categories to function names *)
  let includeFuncs := expandCategories isBackbone isUnderscore includeFuncs in
  let minusFuncs := expandCategories isBackbone isUnderscore minusFuncs in
  let plusFuncs := expandCategories isBackbone isUnderscore plusFuncs in
  (* remove categories from function names *)
  let includeFuncs :=
    difference includeFuncs (allCategories ++ includeProps ++ includeVars) in
  let minusFuncs := difference minusFuncs allCategories in
  let plusFuncs := difference plusFuncs allCategories in
  {| isBackbone := isBackbone; isCSP := isCSP; isLegacy := isLegacy;
     isMobile := isMobile; isModern := isModern; isModularize := isModularize;
     isStrict := isStrict; isUnderscore := isUnderscore; isTemplate := isTemplate;
     categoryOptions := categoryOptions; exportsOptions := exportsOptions;
     includeFuncs := includeFuncs; includeProps := includeProps;
     includeVars := includeVars; minusFuncs := minusFuncs; plusFuncs := plusFuncs;
     funcDepMap := funcDepMap;
     propDepMap := propDependencyMap;
     varDepMap := varDependencyMap |}.

(** *** Validation of the options (lines 2731-2812) *)

Definition validArguments : list string :=
  [ "backbone"; "csp"; "legacy"; "mobile"; "modern"; "modularize"; "strict";
    "underscore"; "-c"; "--stdout"; "-d"; "--debug"; "-h"; "--help";
    "-m"; "--minify"; "-n"; "--no-dep"; "-o"; "--output";
    "-p"; "--source-map"; "-s"; "--silent"; "-V"; "--version" ].

(** The callback of [_.reject] at line 2732: [true] for an argument that
    is accepted; [previous] is [options[index - 1]]. *)
Definition isValidArgument (previous : option string) (value : string) : bool :=
  if test (RegExp "^(?:-o|--output)$" "") (toString previous)
     || test (RegExp "^(?:category|exclude|exports|iife|include|moduleId|minus|plus|settings|template)=[\s\S]*$" "") value
  then true
  else
    let result := contains validArguments value in
    if negb result && test (RegExp "^(?:-p|--source-map)$" "") (toString previous)
    then true else result.

Fixpoint rejectValid (previous : option string) (options : list string)
  : list string :=
  match options with
  | [] => []
  | value :: options' =>
      if isValidArgument previous value then rejectValid (Some value) options'
      else value :: rejectValid (Some value) options'
  end.

(** used to detect invalid command-line arguments *)
Definition invalidArguments (options : list string) : list string :=
  rejectValid None
    (skipn (if test reNode (toString (nth_error options 0)) then 2 else 0) options).

(** The commands that may not be combined, as found in the options. *)
Definition exclusiveCommands (st : BuildState) (options : list string)
  : list string :=
  intersection options ["backbone"; "csp"; "legacy"; "mobile"; "modern"; "underscore"]
  ++ (if isTemplate st then ["template"] else []).

(** The entries checked for each command, with the entries it accepts, in
    the order of the object literal at line 2778. *)
Definition commandEntries (st : BuildState)
  : list (string * (list string * list string)) :=
  [ ("category", (categoryOptions st, allCategories));
    ("exports", (exportsOptions st, allExports));
    ("include", (includeFuncs st, allFuncs));
    ("minus", (minusFuncs st, allFuncs));
    ("plus", (plusFuncs st, allFuncs)) ].

Definition invalidEntries (data : list string * list string) : list string :=
  difference (fst data) (snd data ++ ["none"]).

(** The warnings [build] has accumulated when it reaches line 2806. *)
Definition warnings (st : BuildState) (options : list string) : list string :=
  let invalidArgs := invalidArguments options in
  (* report invalid command and option arguments *)
  (if negb (List.length invalidArgs =? 0)
   then ["Invalid argument" +++ (if 1 <? List.length invalidArgs then "s" else "")
         +++ " passed: " +++ join ", " invalidArgs]
   else [])
  ++
  (* report invalid command combinations *)
  (let invalidArgs := exclusiveCommands st options in
   if 1 <? List.length invalidArgs
   then ["The `" +++ join "`, `" (removelast invalidArgs) +++ "`"
         +++ (if 2 <? List.length invalidArgs then "," else "")
         +++ " and `" +++ last invalidArgs "" +++ "` commands may not be combined."]
   else [])
  ++
  (* report invalid command entries *)
  flat_map
    (fun command =>
       let invalidArgs := invalidEntries (snd command) in
       if negb (List.length invalidArgs =? 0)
       then ["Invalid `" +++ fst command +++ "` entr"
             +++ (if 1 <? List.length invalidArgs then "ies" else "y")
             +++ " passed: " +++ join ", " invalidArgs]
       else [])
    (commandEntries st).

(** The text a [settings=] option has evaluated (line 2641), for an option
    of that form. *)
Definition settingsBody (value : string) : option string :=
  match exec (RegExp "^settings=(.+)$" "") value with
  | Some f =>
      Some ("return {"
              +++ replace (text (item (matchArray f) 1)) (RegExp "^{|}$" "g") ""
              +++ "}")
  | None => None
  end.

(** used as the template settings for precompiled templates (lines
    2637-2645): the options are gone through in order and each [settings=]
    option is evaluated; this is the text of the first one whose
    evaluation throws. *)
Definition failedSettings (options : list string) : option string :=
  find (fun body => negb (evaluates body))
    (flat_map
       (fun value =>
          match settingsBody value with Some body => [body] | None => [] end)
       options).

(** [build(options, callback)] for an array of commands, up to line 2812.
    The library file is read before the options are validated; reading it
    is outside the model. *)
Definition build (options : list string) : Outcome :=
  (* display help message *)
  if existsb (test (RegExp "^(?:-h|--help)$" "")) options then DisplayedHelp
  (* display `lodash.VERSION` *)
  else if existsb (test (RegExp "^(?:-V|--version)$" "")) options then LoggedVersion
  else
    match failedSettings options with
    | Some body => Threw body
    | None =>
        let st := parseOptions options in
        let warnings := warnings st options in
        if negb (List.length warnings =? 0)
        then LoggedWarnings
               (join LF ([""] ++ warnings
                         ++ ["For more information type: lodash --help"]))
        else Continues st
    end.

(** *** The dependency maps of the chosen environment (lines 2820-3043) *)

(** The three private maps, edited in the order of the source. *)
Definition updateDependencies (st : BuildState) : DepMap * DepMap * DepMap :=
  let isLodash := isLodash (includeFuncs st) (plusFuncs st) (minusFuncs st) in
  let isLegacy := isLegacy st in
  let isMobile := isMobile st in
  let isModern := isModern st in
  let isModularize := isModularize st in
  let isUnderscore := isUnderscore st in
  let funcDepMap := funcDepMap st in
  let propDepMap := propDepMap st in
  let varDepMap := varDepMap st in
  (* every dependant of the name, and the name, is not a Lo-Dash one *)
  let noneIsLodash (funcDepMap : DepMap) (funcName : string) : bool :=
    forallb (fun otherName => negb (isLodash otherName))
      (getDependants (Name funcName) funcDepMap ++ [funcName]) in
  (* if (isLegacy) *)
  let propDepMap :=
    if isLegacy then pullAt propDepMap "createBound" ["support"] else propDepMap in
  let funcDepMap :=
    if isLegacy then
      let funcDepMap := set funcDepMap "isPlainObject" (depsOf funcDepMap "shimIsPlainObject") in
      set funcDepMap "keys" (depsOf funcDepMap "shimKeys")
    else funcDepMap in
  let varDepMap :=
    if isLegacy then forOwn varDepMap (fun _ _ deps => pull deps ["reNative"])
    else varDepMap in
  (* if (isModularize) ... else ... *)
  let funcDepMap :=
    if isModularize then
      let funcDepMap := pushAt funcDepMap "lodash" ["support"; "baseEach"; "forOwn"; "mixin"] in
      pullAt funcDepMap "mixin" ["lodash"]
    else
      let funcDepMap := pushAt funcDepMap "chain" ["wrapperChain"] in
      let funcDepMap :=
        pushAt funcDepMap "wrapperValueOf"
          ["baseEach"; "chain"; "forOwn"; "mixin"; "wrapperChain"; "wrapperToString"] in
      each ["lodashWrapper"; "tap"; "wrapperChain"; "wrapperToString"]
        (fun m funcName => pushAt m funcName ["wrapperValueOf"]) funcDepMap in
  (* if (isMobile) *)
  let funcDepMap :=
    if isMobile then
      each ["assign"; "defaults"] (fun m funcName => pullAt m funcName ["keys"]) funcDepMap
    else funcDepMap in
  (* if (isLegacy || isMobile || isUnderscore) *)
  let funcDepMap :=
    if isLegacy || isMobile || isUnderscore then
      each ["baseCreateCallback"; "createBound"]
        (fun m funcName => pullAt m funcName ["setBindData"]) funcDepMap
    else funcDepMap in
  (* if (!isModularize && _.contains(plusFuncs, 'chain') == !isUnderscore) *)
  let funcDepMap :=
    if negb isModularize
       && Bool.eqb (contains (plusFuncs st) "chain") (negb isUnderscore)
    then pullAt funcDepMap "mixin" ["isFunction"] else funcDepMap in
  (* if (isUnderscore) *)
  let '(funcDepMap, varDepMap) :=
    if isUnderscore then
      let funcDepMap :=
        if negb (isLodash "baseClone") && negb (isLodash "clone")
           && negb (isLodash "cloneDeep")
        then pushAt (pullAt funcDepMap "clone" ["baseClone"]) "clone"
               ["assign"; "isArray"; "isObject"]
        else funcDepMap in
      let funcDepMap :=
        if negb (isLodash "baseIsEqual") && negb (isLodash "isEqual")
        then pullAt funcDepMap "baseIsEqual" ["isArguments"] else funcDepMap in
      let funcDepMap :=
        if negb (isLodash "chain")
        then pullAt funcDepMap "wrapperValueOf" ["wrapperToString"] else funcDepMap in
      let funcDepMap :=
        if negb (isLodash "contains")
        then pullAt funcDepMap "contains" ["isString"] else funcDepMap in
      let funcDepMap :=
        if negb (isLodash "flatten")
        then pullAt funcDepMap "flatten" ["map"] else funcDepMap in
      let funcDepMap :=
        if negb (isLodash "isEmpty")
        then set funcDepMap "isEmpty" ["isArray"; "isString"] else funcDepMap in
      let funcDepMap :=
        if negb (isLodash "lodash")
        then pullAt funcDepMap "lodash" ["isArray"] else funcDepMap in
      let funcDepMap :=
        if negb (isLodash "pick")
        then pullAt funcDepMap "pick" ["forIn"; "isObject"] else funcDepMap in
      let funcDepMap :=
        if negb (isLodash "template")
        then pullAt funcDepMap "template" ["keys"; "values"] else funcDepMap in
      let funcDepMap :=
        if negb (isLodash "toArray")
        then pushAt funcDepMap "toArray" ["isArray"; "map"] else funcDepMap in
      let funcDepMap :=
        if negb (isLodash "findWhere") || negb (isLodash "where")
        then pushAt (pullAt funcDepMap "createCallback" ["baseIsEqual"]) "where"
               ["find"; "isEmpty"]
        else funcDepMap in
      (* unexpose "exit early" feature from functions *)
      let varDepMap :=
        if negb (isLodash "forEach") && negb (isLodash "forEachRight")
           && negb (isLodash "forIn") && negb (isLodash "forInRight")
           && negb (isLodash "forOwn") && negb (isLodash "forOwnRight")
        then
          each (["baseEach"; "forEach"; "forIn"; "forInRight"; "forOwn"; "forOwnRight"]
                ++ ["findLast"; "forEachRight"; "transform"]
                ++ ["baseIsEqual"; "shimIsPlainObject"]
                ++ ["contains"; "every"; "find"; "findKey"; "some"]
                ++ ["findLastKey"])
            (fun m funcName => pushOrCreate m funcName ["indicatorObject"]) varDepMap
        else varDepMap in
      let funcDepMap :=
        each ["baseUniq"; "difference"; "intersection"]
          (fun m funcName =>
             if (if String.eqb funcName "baseUniq"
                 then negb (isLodash "baseUniq") && negb (isLodash "uniq")
                 else negb (isLodash funcName))
             then pushAt (pullAt m funcName ["cacheIndexOf"; "createCache"]) funcName
                    ["getIndexOf"]
             else m) funcDepMap in
      let funcDepMap :=
        each ["isEqual"; "omit"; "pick"]
          (fun m funcName =>
             if (if String.eqb funcName "isEqual"
                 then negb (isLodash "baseIsEqual") && negb (isLodash "isEqual")
                 else negb (isLodash funcName))
             then pullAt m funcName ["baseCreateCallback"; "createCallback"]
             else m) funcDepMap in
      let funcDepMap :=
        forOwn funcDepMap
          (fun m funcName deps =>
             if noneIsLodash m funcName then
               let deps := if contains deps "charAtCallback"
                           then pull deps ["charAtCallback"; "isArray"; "isString"]
                           else deps in
               if contains deps "slice" then pull deps ["slice"] else deps
             else deps) in
      let varDepMap :=
        forOwn varDepMap
          (fun _ funcName deps =>
             if negb (isLodash funcName)
             then pull deps ["arrayPool"; "largeArraySize"; "maxPoolSize"; "objectPool"]
             else deps) in
      (funcDepMap, varDepMap)
    else (funcDepMap, varDepMap) in
  (* if (isModern || isUnderscore) *)
  let '(funcDepMap, propDepMap, varDepMap) :=
    if isModern || isUnderscore then
      let '(funcDepMap, varDepMap) :=
        fold_left
          (fun '(funcDepMap, varDepMap) funcName =>
             if negb (isUnderscore && isLodash funcName) then
               let funcDepMap := pullAt funcDepMap funcName ["createIterator"] in
               let varDepMap :=
                 set varDepMap funcName
                   (pull (depsOf varDepMap funcName)
                      ["defaultsIteratorOptions"; "eachIteratorOptions";
                       "forOwnIteratorOptions"]
                    ++ ["objectTypes"]) in
               let funcDepMap :=
                 if negb (String.eqb funcName "baseEach")
                 then pushAt funcDepMap funcName ["isArguments"] else funcDepMap in
               let funcDepMap :=
                 if negb (String.eqb funcName "defaults")
                    && negb (String.eqb funcName "shimKeys")
                 then pushAt funcDepMap funcName ["baseCreateCallback"] else funcDepMap in
               let funcDepMap :=
                 if negb (String.eqb funcName "forIn")
                    && negb (String.eqb funcName "shimKeys")
                 then pushAt funcDepMap funcName ["keys"] else funcDepMap in
               (funcDepMap, varDepMap)
             else (funcDepMap, varDepMap))
          ["assign"; "baseEach"; "defaults"; "forIn"; "forOwn"; "shimKeys"]
          (funcDepMap, varDepMap) in
      let propDepMap :=
        forOwn propDepMap
          (fun _ funcName deps =>
             if negb (String.eqb funcName "createBound")
                && negb (isMobile && String.eqb funcName "keys")
                && negb (isUnderscore && isLodash funcName)
             then pull deps ["support"] else deps) in
      let funcDepMap :=
        forOwn funcDepMap
          (fun _ funcName deps =>
             let deps := if contains deps "isNode" then pull deps ["isNode"] else deps in
             if contains deps "toString" && negb (String.eqb funcName "contains")
                && negb (String.eqb funcName "parseInt")
             then pull deps ["isString"] else deps) in
      let funcDepMap :=
        if isUnderscore then
          forOwn funcDepMap
            (fun m funcName deps =>
               if noneIsLodash m funcName then
                 let deps := if contains deps "releaseArray"
                             then pull deps ["getArray"; "releaseArray"] else deps in
                 if contains deps "releaseObject"
                 then pull deps ["getObject"; "releaseObject"] else deps
               else deps)
        else funcDepMap in
      let funcDepMap :=
        if negb isMobile then
          let funcDepMap := pullAt funcDepMap "setBindData" ["noop"] in
          let funcDepMap :=
            each ["baseClone"; "lodash"; "transform"; "wrapperValueOf"]
              (fun m funcName => pushAt (pullAt m funcName ["baseEach"]) funcName ["forEach"])
              funcDepMap in
          let funcDepMap :=
            each ["contains"; "every"; "filter"; "find"; "forEach"; "map"; "max";
                  "min"; "reduce"; "some"]
              (fun m funcName => pushAt (pullAt m funcName ["baseEach"]) funcName ["forOwn"])
              funcDepMap in
          let funcDepMap :=
            each ["every"; "find"; "filter"; "forEach"; "forIn"; "forOwn"; "map";
                  "reduce"; "shimKeys"]
              (fun m funcName =>
                 if negb (isUnderscore && isLodash funcName)
                 then pullAt m funcName ["isArray"] else m)
              funcDepMap in
          let funcDepMap :=
            each ["max"; "min"]
              (fun m funcName =>
                 if negb (isUnderscore && isLodash funcName)
                 then pushAt m funcName ["forEach"] else m)
              funcDepMap in
          forOwn funcDepMap
            (fun _ funcName deps =>
               if negb (String.eqb funcName "baseFlatten")
                  && contains deps "isArguments"
                  && negb (isUnderscore && isLodash funcName)
               then pull deps ["isArguments"] else deps)
        else funcDepMap in
      (funcDepMap, propDepMap, varDepMap)
    else (funcDepMap, propDepMap, varDepMap) in
  (* if (isModularize) *)
  let funcDepMap :=
    if isModularize then
      forOwn funcDepMap
        (fun _ _ deps =>
           if contains deps "getIndexOf"
           then pull deps ["getIndexOf"] ++ ["baseIndexOf"] else deps)
    else funcDepMap in
  (funcDepMap, propDepMap, varDepMap).

(** *** The requested names (lines 3044-3076) *)

(** add function names explicitly, add default function names
    (lines 3044-3059); [None] stands for [undefined]. *)
Definition initialResult (st : BuildState) : option (list string) :=
  let result := if negb (List.length (includeFuncs st) =? 0)
                then Some (includeFuncs st) else None in
  if (List.length (includeProps st) =? 0) && (List.length (includeVars st) =? 0) then
    match result with
    | Some _ => result
    | None =>
        if isBackbone st then Some backboneDependencies
        else if isUnderscore st then Some underscoreFuncs
        else Some lodashFuncs
    end
  else result.

(** [result == 'none']: an array is compared through its text, the
    elements joined by commas. *)
Definition looselyEqualsNone (result : option (list string)) : bool :=
  match result with
  | Some names => String.eqb (join "," names) "none"
  | None => false
  end.

(** remove special "none" entry (lines 3060-3065) *)
Definition removeNone (result : option (list string)) : option (list string) :=
  if looselyEqualsNone result then Some []
  else option_map (fun names => pull names ["none"]) result.

(** An array helper handed [undefined] treats it as no array. *)
Definition orEmpty (result : option (list string)) : list string :=
  match result with Some names => names | None => [] end.

(** add and subtract function names (lines 3066-3075) *)
Definition addAndSubtract (plusFuncs minusFuncs : list string) (isModularize : bool)
    (funcDepMap : DepMap) (result : option (list string)) : option (list string) :=
  let result := if negb (List.length plusFuncs =? 0)
                then Some (union (orEmpty result) plusFuncs) else result in
  let result :=
    if negb (List.length minusFuncs =? 0)
    then Some (difference (orEmpty result)
                 (minusFuncs ++ getDependants (Names minusFuncs) funcDepMap))
    else result in
  if isModularize then option_map (fun names => pull names ["runInContext"]) result
  else result.

(** The names handed to [getDependencies] at line 3076. *)
Definition requestedNames (st : BuildState) (funcDepMap : DepMap)
  : option (list string) :=
  addAndSubtract (plusFuncs st) (minusFuncs st) (isModularize st) funcDepMap
    (removeNone (initialResult st)).

(** names of functions to include in the build (line 2817); the [false]
    of a template build holds no name. *)
Definition initialBuildFuncs (st : BuildState) (funcDepMap : DepMap) : list string :=
  if isTemplate st then []
  else getDependencies (Names (orEmpty (requestedNames st funcDepMap))) funcDepMap false.

(** *** Properties, variables and their function dependencies
        (lines 3079-3106) *)

Section Expand.
Variable funcDepMap : DepMap.
Variable depMap : DepMap.

(** The body of the callback of [expand] for one name and its
    [identifiers], once its condition holds; [again] is the nested call
    [expand(result, depMap, deps, stack)]. *)
Definition expandName (again : list string -> Expansion -> option Expansion)
    (funcName : string) (ids : list string) (e : Expansion) : option Expansion :=
  let deps :=
    uniq (flat_map (fun identifier =>
                      getDependencies (Name identifier) funcDepMap false) ids) in
  again deps
    {| identifiers := identifiers e ++ ids;
       expanded := expanded e ++ [funcName];
       kept := union (kept e) deps |}.

Definition uniqIdentifiers (e : option Expansion) : option Expansion :=
  match e with
  | Some e => Some {| identifiers := uniq (identifiers e);
                      expanded := expanded e;
                      kept := kept e |}
  | None => None
  end.

(** The reduction of [expand] over an array [funcNames]. *)
Fixpoint reduceNames (again : list string -> Expansion -> option Expansion)
    (funcNames : list string) (e : Expansion) : option Expansion :=
  match funcNames with
  | [] => Some e
  | funcName :: funcNames' =>
      if negb (contains (expanded e) funcName) then
        match expandName again funcName (depsOf depMap funcName) e with
        | Some e' => reduceNames again funcNames' e'
        | None => None
        end
      else reduceNames again funcNames' e
  end.

(** [expand(result, depMap, funcNames, stack)] for an array [funcNames]:
    the nested calls.  [fuel] bounds their depth. *)
Fixpoint expandNames (fuel : nat) (funcNames : list string) (e : Expansion)
  : option Expansion :=
  match fuel with
  | 0 => None
  | S fuel' => uniqIdentifiers (reduceNames (expandNames fuel') funcNames e)
  end.

(** [expand(result, depMap)]: the outer call, over the entries of
    [depMap], for the names that are in [buildFuncs]. *)
Fixpoint expandEntries (fuel : nat) (entries : DepMap) (e : Expansion)
  : option Expansion :=
  match entries with
  | [] => Some e
  | (funcName, ids) :: entries' =>
      if negb (contains (expanded e) funcName) && contains (kept e) funcName then
        match expandName (expandNames fuel) funcName ids e with
        | Some e' => expandEntries fuel entries' e'
        | None => None
        end
      else expandEntries fuel entries' e
  end.

Definition expand (fuel : nat) (result buildFuncs : list string)
  : option Expansion :=
  uniqIdentifiers
    (expandEntries fuel depMap
       {| identifiers := result; expanded := []; kept := buildFuncs |}).
End Expand.

(** Fuel that always suffices for [expand]: one nested call per name that
    occurs as a dependency in [funcDepMap] (see [expand_total]). *)
Definition expandFuel (funcDepMap : DepMap) : nat :=
  S (List.length (flat_map snd funcDepMap)).

(** The build set: [buildFuncs], [includeProps] and [includeVars] as they
    stand at line 3107. *)
Definition resolve (st : BuildState) : option Resolved :=
  let '(funcDepMap, propDepMap, varDepMap) := updateDependencies st in
  let buildFuncs := initialBuildFuncs st funcDepMap in
  match expand funcDepMap propDepMap (expandFuel funcDepMap)
          (includeProps st) buildFuncs with
  | None => None
  | Some props =>
      match expand funcDepMap varDepMap (expandFuel funcDepMap)
              (includeVars st) (kept props) with
      | None => None
      | Some vars =>
          Some {| resolvedFuncDepMap := funcDepMap;
                  resolvedPropDepMap := propDepMap;
                  resolvedVarDepMap := varDepMap;
                  buildFuncs := kept vars;
                  buildProps := identifiers props;
                  buildVars := identifiers vars |}
      end
  end.

(** *** Unused variables (lines 1494-1518 and 4348-4373) *)

(** [getVars(source, isShallow)]: each pattern is applied to what the
    patterns before it left of the source. *)
Definition getVars (source : string) (isShallow : bool) : list string :=
  let indentA := if isShallow then " {2}" else " {2,4}" in
  let indentB := if isShallow then " {6}" else " {6,8}" in
  let '(_, result) :=
    fold_left
      (fun '(source, result) reSource =>
         let re := RegExp ("^" +++ reSource) "gm" in
         (* the callback pushes the last group and returns '' *)
         let varNames :=
           map (fun f => match groups f with
                         | [indent] => text indent
                         | _ => text (nth 1 (groups f) None)
                         end) (findAll source re) in
         (replace source re "", result ++ varNames))
      [ (* a variable at the start of a declaration list *)
        indentA +++ "var (\w+) *=.+?,\n(?= *\w+ *=)";
        (* a variable declaration in a declaration list *)
        indentB +++ "(\w+) *=.+?[,;]\n";
        (* a variable that is not part of a declaration list *)
        "(" +++ indentA +++ ")var (\w+) *(?:|= *(?:.+?(?:&&\n[^;]+)?|(?:\w+\(|[{[(]\n)[\s\S]+?\n\1[^\n ]+?));\n" ]
      (source, []) in
  (* remove duplicates and function names *)
  sort (difference (uniq result) allFuncs).

(** The text being pruned, and its copy without strings and comments on
    which the uses of a variable are looked up. *)
Record Pruning : Type := {
  snippet : string;
  source : string
}.

Section UnusedVars.
Variable includeVars : list string.
Variable isShallow : bool.

(** The callback of [_.sortBy] at line 4356; its result is what
    [useMap] holds for the name during the pass. *)
Definition isKept (p : Pruning) (varName : string) : bool :=
  contains includeVars varName || isVarUsed (snippet p) varName isShallow.

(** The inner loop at line 4366, over the names at the head of the
    sorted array that are not used. *)
Definition removeVars (varNames : list string) (p : Pruning) : Pruning :=
  fold_left
    (fun p varName => {| snippet := removeVar (snippet p) varName;
                         source := removeVar (source p) varName |})
    varNames p.

(** The loop at line 4355.  Each pass takes at least one name off
    [varNames]; [fuel] counts the passes. *)
Fixpoint removeUnusedLoop (fuel : nat) (varNames : list string) (p : Pruning)
  : option Pruning :=
  match varNames with
  | [] => Some p
  | _ :: _ =>
      match fuel with
      | 0 => None
      | S fuel' =>
          let varNames := sortBy varNames (isKept p) in
          match varNames with
          | [] => Some p
          | first :: rest =>
              if isKept p first then removeUnusedLoop fuel' rest p
              else
                removeUnusedLoop fuel' (filter (isKept p) varNames)
                  (removeVars (filter (fun v => negb (isKept p v)) varNames) p)
          end
      end
  end.

(** The names the loop takes off [varNames] without handing them to
    [removeVar]. *)
Fixpoint leftInPlace (fuel : nat) (varNames : list string) (p : Pruning)
  : list string :=
  match varNames, fuel with
  | [], _ | _, 0 => []
  | _ :: _, S fuel' =>
      let varNames := sortBy varNames (isKept p) in
      match varNames with
      | [] => []
      | first :: rest =>
          if isKept p first then first :: leftInPlace fuel' rest p
          else
            leftInPlace fuel' (filter (isKept p) varNames)
              (removeVars (filter (fun v => negb (isKept p v)) varNames) p)
      end
  end.
End UnusedVars.

(** remove unused variables (lines 4348-4373), on the source and the
    build set as they stand there. *)
Definition removeUnusedVars (buildFuncs includeVars : list string)
    (text : string) : option string :=
  let isShallow := negb (contains buildFuncs "runInContext") in
  let p := {| snippet := removeStrings (removeComments text); source := text |} in
  let varNames := getVars (snippet p) isShallow in
  option_map source
    (removeUnusedLoop includeVars isShallow (List.length varNames) varNames p).

End Build.

(** * Notions used to state the properties *)

(** Keys of the map that are not on the stack yet: every nested call that
    goes on puts a new one on it. *)
Definition unvisited (depMap : DepMap) (stack : list string) : nat :=
  length (filter (fun k => negb (contains stack k)) (keys depMap)).

(** The stack only grows, by the names [new]; the result holds exactly the
    new names; the names asked for ([wanted]) are on the final stack, and so
    are the direct successors of every new name. *)
Definition visited (succ : string -> list string -> Prop)
    (wanted : list string -> Prop) (stack r st : list string) : Prop :=
  exists new,
    st = stack ++ new
    /\ (forall x, In x r <-> In x new)
    /\ wanted st
    /\ (forall m, In m new -> succ m st).

(** A set of names is closed under a dependency map when it holds the direct
    dependencies of each of its members. *)
Definition closedUnder (depMap : DepMap) (names : list string) : Prop :=
  forall i d, In i names -> In d (depsOf depMap i) -> In d names.

(** [i] depends on [x], directly or through other names of the map. *)
Inductive dependsOn (depMap : DepMap) : string -> string -> Prop :=
| dependsOn_direct i x :
    In x (depsOf depMap i) -> dependsOn depMap i x
| dependsOn_trans i d x :
    In d (depsOf depMap i) -> dependsOn depMap d x -> dependsOn depMap i x.

(** What a traversal of dependencies owes a name it visited: its direct
    dependencies are on the stack. *)
Definition succDependencies (depMap : DepMap) (m : string) (st : list string) : Prop :=
  incl (depsOf depMap m) st.

(** What a traversal of dependants owes a name it visited: every entry of
    the map that lists the name is on the stack. *)
Definition succDependants (depMap : DepMap) (m : string) (st : list string) : Prop :=
  forall k deps, In (k, deps) depMap -> In m deps -> In k st.

(** Names that occur as a dependency in the map and are not on the stack
    yet: every nested call of [expand] puts a new one on it. *)
Definition unexpanded (funcDepMap : DepMap) (stack : list string) : nat :=
  List.length (filter (fun k => negb (contains stack k)) (flat_map snd funcDepMap)).

(** The alias resolution as the specification words it: the name is
    returned unchanged if it is not a known alias or if the alias target is
    not a tracked identifier of the map; otherwise the real name is. *)
Definition specifiedRealName (funcName : string) (depMap : DepMap) : string :=
  match get aliasToRealMap funcName with
  | None => funcName
  | Some real => if hasOwn depMap real then real else funcName
  end.

(** ** A library and a platform to run the build on *)

(** Modelled from the spec: [lodash.js] is not among the sources, and the
    definitions of the build take [typeof _[key]] as a parameter.  This is
    the library the closed examples run on: its public functions, that is
    the names of the category table and their aliases, are functions;
    [templateSettings] and [support] are objects; [VERSION] is a string;
    nothing else is defined. *)
Definition libraryTypeof (key : string) : string :=
  if contains ["templateSettings"; "support"] key then "object"
  else if String.eqb key "VERSION" then "string"
  else if contains (flat_map snd categoryMap ++ keys aliasToRealMap) key
  then "function"
  else "undefined".

(** Modelled from the spec: [build/util.js] is not among the sources, and
    the definitions of the build take [path.sepEscaped] as a parameter.
    This is its value where the path separator is a slash. *)
Definition slashEscaped : string := "\/".

(** The engine that evaluates a [settings=] option is no part of the
    sources, and [build] takes the outcome of [Function(body)()] as a
    parameter.  This is the engine the closed examples run on, as far as
    they need one: a body whose parentheses, brackets and braces do not
    pair up is a syntax error, and throws; any other body returns. *)
Fixpoint pairsUp (opened body : list ascii) : bool :=
  match body with
  | [] => match opened with [] => true | _ :: _ => false end
  | c :: body' =>
      if ch c "(" then pairsUp (")"%char :: opened) body'
      else if ch c "[" then pairsUp ("]"%char :: opened) body'
      else if ch c "{" then pairsUp ("}"%char :: opened) body'
      else if ch c ")" || ch c "]" || ch c "}"
      then match opened with
           | d :: opened' => Ascii.eqb c d && pairsUp opened' body'
           | [] => false
           end
      else pairsUp opened body'
  end.

Definition libraryEvaluates (body : string) : bool :=
  pairsUp [] (list_ascii_of_string body).

(** A dependency map with a cycle: [a] needs [b], and [b] needs [a] and [c]. *)
Definition cyclicMap : DepMap := [("a", ["b"]); ("b", ["a"; "c"])].

(** A pattern of a locator does not match: the regular expression is well
    formed and finds nothing in the source. *)
Definition noMatch (re : regexp) (source : string) : Prop :=
  pattern re <> None /\ exec re source = None.

(** The same, decided. *)
Definition hasNoMatch (re : regexp) (source : string) : bool :=
  match pattern re, exec re source with
  | Some _, None => true
  | _, _ => false
  end.

(** The options ask for the help message or for the version. *)
Definition requestsHelpOrVersion (options : list string) : bool :=
  existsb (test (RegExp "^(?:-h|--help)$" "")) options
  || existsb (test (RegExp "^(?:-V|--version)$" "")) options.

(** One of the three checks of the validation finds something: an argument
    that is not accepted, more than one of the commands that may not be
    combined, or an entry that its command does not accept. *)
Definition findsInvalidDirective (typeofLodash : string -> string)
    (sepEscaped : string) (options : list string) : bool :=
  let st := parseOptions typeofLodash options in
  negb (List.length (invalidArguments sepEscaped options) =? 0)
  || (1 <? List.length (exclusiveCommands st options))
  || existsb (fun command => negb (List.length (invalidEntries (snd command)) =? 0))
       (commandEntries typeofLodash st).

(** The text [build] logs for the warnings of the options. *)
Definition warningMessage (typeofLodash : string -> string) (sepEscaped : string)
    (options : list string) : string :=
  join LF ([""] ++ warnings typeofLodash sepEscaped (parseOptions typeofLodash options) options
           ++ ["For more information type: lodash --help"]).

(** What holds of an [Expansion] all along: the names kept are closed, and
    the stack and the names kept have only grown since [e0]. *)
Definition sound (funcDepMap : DepMap) (e0 e : Expansion) : Prop :=
  closedUnder funcDepMap (kept e) /\ incl (expanded e0) (expanded e)
  /\ incl (kept e0) (kept e).

(** ** Sample sources *)

(** A piece of source that uses [context] and declares no [runInContext]. *)
Definition sourceUsingContext : string :=
  LF +++ "  root = context;" +++ LF.

(** A declaration list whose first variable is unused, after a comment
    that quotes the first line of the list. *)
Definition sourceWithQuotedDeclaration : string :=
  LF +++ "  /* var a = 1," +++ LF
     +++ "   */" +++ LF
     +++ "  var a = 1," +++ LF
     +++ "      b = 2;" +++ LF
     +++ "  b();" +++ LF.

(** A declaration list and a declaration, of which only [c] is used. *)
Definition sourceWithDeadVariables : string :=
  LF +++ "  var a = 1," +++ LF
     +++ "      b = a;" +++ LF
     +++ "  var c = 3;" +++ LF
     +++ "  function f() { return c; }" +++ LF.

(** The source text without strings and comments (line 4352). *)
Definition withoutStringsAndComments (text : string) : Pruning :=
  {| snippet := removeStrings (removeComments text); source := text |}.

(** ** Notions used to state the further properties *)

(** [k] depends on one of the names [roots], directly or through other
    names of the map. *)
Definition reachesRoot (depMap : DepMap) (roots : list string) (k : string) : Prop :=
  exists f, In f roots /\ dependsOn depMap k f.

(** ** Aliases and categories (lines 1242-1263) *)

(** [getAliases(funcName, depMap)]; [depMap] is optional and defaults to
    [funcDependencyMap].  A name without aliases has [false] for its array,
    which [_.reject] reads as no element. *)
Definition getAliases (funcName : string) (depMap : option DepMap) : list string :=
  let aliases := depsOf realToAliasMap funcName in
  let depMap := match depMap with Some m => m | None => funcDependencyMap end in
  filter (fun funcName => negb (hasOwn depMap funcName)) aliases.

(** [getCategory(identifier, depMap)]: the key of the first category that
    holds the real name, the empty text when none does. *)
Definition getCategory (identifier : string) (depMap : option DepMap) : string :=
  let identifier := getRealName identifier depMap in
  match find (fun entry => contains (snd entry) identifier) categoryMap with
  | Some (category, _) => category
  | None => ""
  end.

(** ** Notions for the expansion of properties and variables *)

(** The function dependencies [expand] gathers for some identifiers. *)
Definition gathered (funcDepMap : DepMap) (ids : list string) : list string :=
  uniq (flat_map (fun identifier => getDependencies (Name identifier) funcDepMap false)
          ids).

(** The state of an expansion has only grown, as sets of names. *)
Definition grows (e e' : Expansion) : Prop :=
  incl (identifiers e) (identifiers e')
  /\ incl (expanded e) (expanded e')
  /\ incl (kept e) (kept e').

(** What holds of the state of [expand] all along, for the identifiers
    [result] and the names [buildFuncs] it started from: the names
    expanded are kept, their identifiers are collected and the function
    dependencies of these are kept; and nothing else was collected or
    kept. *)
Definition expansionInvariant (funcDepMap depMap : DepMap)
    (result buildFuncs : list string) (e : Expansion) : Prop :=
  incl (expanded e) (kept e)
  /\ (forall f, In f (expanded e) -> incl (depsOf depMap f) (identifiers e))
  /\ (forall f, In f (expanded e) -> incl (gathered funcDepMap (depsOf depMap f)) (kept e))
  /\ (forall id, In id (identifiers e) ->
        In id result \/ exists f, In f (expanded e) /\ In id (depsOf depMap f))
  /\ (forall g, In g (kept e) ->
        In g buildFuncs
        \/ exists f, In f (expanded e) /\ In g (gathered funcDepMap (depsOf depMap f))).

(** Every name kept is one [expand] started from, has been expanded, or
    is still [pending]. *)
Definition keptAccounted (buildFuncs : list string) (pending : string -> Prop)
    (e : Expansion) : Prop :=
  forall g, In g (kept e) -> In g buildFuncs \/ In g (expanded e) \/ pending g.

(** What a nested call of [expand] on [names] achieves. *)
Definition expandsNames (funcDepMap depMap : DepMap) (result buildFuncs : list string)
    (names : list string) (e e' : Expansion) : Prop :=
  expansionInvariant funcDepMap depMap result buildFuncs e'
  /\ grows e e'
  /\ incl names (expanded e')
  /\ forall pending : string -> Prop,
       keptAccounted buildFuncs (fun g => pending g \/ In g names) e ->
       keptAccounted buildFuncs pending e'.

(** ** Notions for the edits of the dependency maps *)

(** The keys of a map are still those of [m0], in the same order. *)
Definition sameKeys (m0 m : DepMap) : Prop := keys m = keys m0.

(** The map has distinct keys and still holds the keys of [m0]. *)
Definition extendsKeys (m0 m : DepMap) : Prop :=
  incl (keys m0) (keys m) /\ NoDup (keys m).

(** The three maps of a build, compared with those it started from: no
    function and no property was added or dropped; variables were only
    added, each once. *)
Definition mapsKept (st : BuildState) (maps : DepMap * DepMap * DepMap) : Prop :=
  sameKeys (funcDepMap st) (fst (fst maps))
  /\ sameKeys (propDepMap st) (snd (fst maps))
  /\ extendsKeys (varDepMap st) (snd maps).

(** The same for the two maps the Underscore rewrites work on. *)
Definition pairKept (st : BuildState) (maps : DepMap * DepMap) : Prop :=
  sameKeys (funcDepMap st) (fst maps) /\ extendsKeys (varDepMap st) (snd maps).

(** ** Notions for the candidates of the removal of variables *)

(** Each name is at most the next one, by character codes, as
    [array.sort()] leaves an array of strings. *)
Fixpoint ascending (l : list string) : Prop :=
  match l with
  | a :: (b :: _) as rest => String.leb a b = true /\ ascending rest
  | _ => True
  end.

(** The name is not one of [includeVars]. *)
Definition notIncluded (includeVars : list string) (varName : string) : bool :=
  negb (contains includeVars varName).

(** ** The loop of a quantifier *)

Section RepeatFrom.
Variable re : regexp.
Variable a : node.
Variable k : state -> option state.
Variable greedy : bool.

(** The loop that [run] goes through for [Repeat lo hi greedy a] followed
  by [k], under its own name (see [run_Repeat]). *)
Fixpoint repeatFrom (fuel lo : nat) (hi : option nat) (s : state) {struct fuel}
: option state :=
match fuel with
| 0 => None
| S fuel' =>
    match hi with
    | Some 0 => k s
    | _ =>
        let again :=
          run re a (clearCaptures (groupsIn a) s)
            (fun s' =>
               if (lo =? 0)
                  && (List.length (after s') =? List.length (after s))
               then None
               else repeatFrom fuel' (pred lo) (option_map pred hi) s') in
        if 0 <? lo then again
        else if greedy then
          match again with
          | Some z => Some z
          | None => k s
          end
        else
          match k s with
          | Some z => Some z
          | None => again
          end
    end
end.
End RepeatFrom.

(** The node [atom] takes exactly one character, one that [p] accepts,
    and has no capture group. *)
Definition takesOne (re : regexp) (atom : node) (p : ascii -> bool) : Prop :=
  groupsIn atom = []
  /\ forall b a c k,
       run re atom {| before := b; after := a; captures := c |} k
       = match a with
         | x :: a' =>
             if p x then k {| before := x :: b; after := a'; captures := c |}
             else None
         | [] => None
         end.

(** ** Notions for the text of an option *)

(** The name of an option: word characters, at least one. *)
Definition isOptionName (s : string) : bool :=
  negb (String.eqb s "") && forallb isWordChar (list_ascii_of_string s).

(** An entry of an option: not empty, without a comma or a line break,
    and not starting with a space. *)
Definition isEntry (s : string) : bool :=
  match list_ascii_of_string s with
  | [] => false
  | c :: _ => negb (ch c " ")
  end
  && forallb (fun c => negb (ch c ",") && negb (isLineTerminator c))
       (list_ascii_of_string s).

(** A text of [n] spaces. *)
Definition blanks (n : nat) : string := string_of_list_ascii (repeat " "%char n).

(** ** The build commands in the header (lines 660-691) *)

(** [string.split(separator)] for a separator text that is not empty. *)
Fixpoint splitTextLoop (fuel : nat) (p rest : list ascii) : list string :=
  match fuel with
  | 0 => [string_of_list_ascii rest]
  | S fuel' =>
      match splitAtFirst p [] rest with
      | Some (l, r) => string_of_list_ascii l :: splitTextLoop fuel' p r
      | None => [string_of_list_ascii rest]
      end
  end.

Definition splitText (s separator : string) : list string :=
  let l := list_ascii_of_string s in
  splitTextLoop (S (List.length l)) (list_ascii_of_string separator) l.

(** The callback of [_.map(commands, ...)] (lines 667-681): quotes are
    added to a command with a space or an equals sign, then line feeds,
    carriage returns and the end token of a comment are escaped. *)
Definition quoteCommand (command : string) : string :=
  let command :=
    match exec (RegExp "[= ]" "") command with
    | Some f =>
        let separator := text (item (matchArray f) 0) in
        let pair := splitText command separator in
        toString (nth_error pair 0) +++ separator +++ DQ
          +++ toString (nth_error pair 1) +++ DQ
    | None => command
    end in
  replace
    (replace (replace command (RegExp "\n" "g") "\n") (RegExp "\r" "g") "\r")
    (RegExp "\*\/" "g") "*\/".

(** The commands as they are written into the header (lines 662-682):
    without [node path/to/build.js] in front, each one quoted and escaped.
    [reNode] is built from [path.sepEscaped]. *)
Definition headerCommands (sepEscaped : string) (commands : list string)
  : list string :=
  let commands :=
    if test (reNode sepEscaped) (toString (nth_error commands 0))
    then skipn 2 commands else commands in
  map quoteCommand commands.

(** [addCommandsToHeader(source, commands)] *)
Definition addCommandsToHeader (sepEscaped : string) (source : string)
    (commands : list string) : string :=
  replaceWith source
    (RegExp "(\/\**\n)( \*)( *@license[\s*]+)( *Lo-Dash [\w.-]+)(.*)" "")
    (fun f =>
       let parts := groups f in
       text (item parts 0) +++ text (item parts 1)
         +++ text (item parts 2) +++ text (item parts 3) +++ " (Custom Build)"
         +++ text (item parts 4) +++ LF
         +++ text (item parts 1) +++ " Build: `lodash "
         +++ join " " (headerCommands sepEscaped commands) +++ "`").

(** The character [a] directly followed by [b] somewhere in [l]. *)
Fixpoint pairIn (a b : ascii) (l : list ascii) : bool :=
  match l with
  | [] => false
  | x :: t =>
      (Ascii.eqb a x && match t with y :: _ => Ascii.eqb b y | [] => false end)
      || pairIn a b t
  end.

(** A character of the class [[= ]]. *)
Definition isSeparator (c : ascii) : bool := Ascii.eqb "=" c || Ascii.eqb " " c.

(** A text without a line feed, a carriage return or the end token of a
    comment. *)
Definition needsNoEscape (l : list ascii) : bool :=
  forallb (fun c => negb (Ascii.eqb "010" c) && negb (Ascii.eqb "013" c)) l
  && negb (pairIn "*" "/" l).

(** * Properties *)

(** ** Membership in the array helpers *)

Lemma contains_In l x : contains l x = true <-> In x l.
Proof.
  unfold contains. rewrite existsb_exists. split.
  - intros [y [Hy Heq]]. apply String.eqb_eq in Heq. now subst.
  - intros H. exists x. split; [assumption | apply String.eqb_refl].
Qed.

Lemma contains_false l x : contains l x = false <-> ~ In x l.
Proof.
  rewrite <- contains_In. destruct (contains l x); split; intros; congruence.
Qed.

Lemma uniqAcc_In seen l x :
  In x (uniqAcc seen l) <-> In x l /\ ~ In x seen.
Proof.
  revert seen. induction l as [|y l IH]; intros seen; simpl.
  - tauto.
  - destruct (contains seen y) eqn:E.
    + apply contains_In in E. rewrite IH. split.
      * intros [H1 H2]. tauto.
      * intros [[->|H1] H2]; tauto.
    + apply contains_false in E. simpl. rewrite IH, in_app_iff. simpl.
      destruct (string_dec y x) as [->|Hne]; [tauto|].
      split.
      * intros [H|[H1 H2]]; [congruence|]. tauto.
      * intros [[H|H1] H2]; [congruence|]. right. split; [assumption|].
        intros [H|[H|[]]]; congruence.
Qed.

Lemma uniq_In l x : In x (uniq l) <-> In x l.
Proof. unfold uniq. rewrite uniqAcc_In. simpl. tauto. Qed.

Lemma union_In a b x : In x (union a b) <-> In x a \/ In x b.
Proof. unfold union. now rewrite uniq_In, in_app_iff. Qed.

Lemma difference_In a b x : In x (difference a b) <-> In x a /\ ~ In x b.
Proof.
  unfold difference. rewrite filter_In, negb_true_iff, contains_false. tauto.
Qed.

Lemma pull_In l vs x : In x (pull l vs) <-> In x l /\ ~ In x vs.
Proof. apply difference_In. Qed.

Lemma intersection_In a b x : In x (intersection a b) <-> In x a /\ In x b.
Proof.
  unfold intersection. now rewrite uniq_In, filter_In, contains_In.
Qed.

(** ** Lookup *)

Lemma get_In {A} (m : list (string * A)) k v : get m k = Some v -> In (k, v) m.
Proof.
  induction m as [|[k' v'] m IH]; simpl; [discriminate|].
  destruct (String.eqb k k') eqn:E.
  - apply String.eqb_eq in E. intros [= ->]. subst. now left.
  - intros H. right. now apply IH.
Qed.

Lemma get_key {A} (m : list (string * A)) k v : get m k = Some v -> In k (keys m).
Proof. intros H. apply get_In in H. now apply (in_map fst) in H. Qed.

Lemma getDependenciesRec_S fuel funcName depMap stack :
  getDependenciesRec (S fuel) funcName depMap false stack =
  match argDeps funcName depMap with
  | [] => Some ([], stack)
  | _ :: _ =>
      uniqResult
        (eachDependency
           (fun otherName stack' =>
              getDependenciesRec fuel (Name otherName) depMap false stack')
           (argDeps funcName depMap) [] stack)
  end.
Proof. reflexivity. Qed.

Lemma getDependenciesRec_nodeps fuel funcName depMap isShallow stack :
  argDeps funcName depMap = [] ->
  getDependenciesRec fuel funcName depMap isShallow stack = Some ([], stack).
Proof. intros H. destruct fuel; simpl; now rewrite H. Qed.

Lemma getDependantsRec_S fuel funcName depMap stack :
  getDependantsRec (S fuel) funcName depMap stack =
  uniqResult
    (eachDependant
       (fun otherName stack' =>
          getDependantsRec fuel (Name otherName) depMap stack')
       (argNames funcName) depMap [] stack).
Proof. reflexivity. Qed.

(** ** Termination of the traversals *)


Lemma filter_length_mono {A} (p q : A -> bool) l :
  (forall x, In x l -> p x = true -> q x = true) ->
  length (filter p l) <= length (filter q l).
Proof.
  induction l as [|a l IH]; simpl; intros H; [lia|].
  assert (IH' := IH (fun x Hx => H x (or_intror Hx))).
  destruct (p a) eqn:Ep.
  - rewrite (H a (or_introl eq_refl) Ep). simpl. lia.
  - destruct (q a); simpl; lia.
Qed.

Lemma filter_length_lt {A} (p q : A -> bool) l a :
  (forall x, In x l -> p x = true -> q x = true) ->
  In a l -> p a = false -> q a = true ->
  length (filter p l) < length (filter q l).
Proof.
  induction l as [|b l IH]; simpl; intros H Ha Hp Hq; [contradiction|].
  assert (Hle := filter_length_mono p q l (fun x Hx => H x (or_intror Hx))).
  destruct Ha as [->|Ha].
  - rewrite Hp, Hq. simpl. lia.
  - assert (IH' := IH (fun x Hx => H x (or_intror Hx)) Ha Hp Hq).
    destruct (p b) eqn:Ep.
    + rewrite (H b (or_introl eq_refl) Ep). simpl. lia.
    + destruct (q b); simpl; lia.
Qed.

Lemma unvisited_le_length depMap stack : unvisited depMap stack <= length depMap.
Proof.
  unfold unvisited, keys.
  etransitivity; [apply List.filter_length_le|]. now rewrite length_map.
Qed.

Lemma unvisited_mono depMap st st' :
  incl st st' -> unvisited depMap st' <= unvisited depMap st.
Proof.
  intros Hincl. apply filter_length_mono. intros x _.
  rewrite !negb_true_iff, !contains_false. intros H Hx. apply H.
  now apply Hincl.
Qed.

Lemma unvisited_push depMap st n :
  In n (keys depMap) -> ~ In n st ->
  unvisited depMap (st ++ [n]) < unvisited depMap st.
Proof.
  intros Hk Hn. apply filter_length_lt with (a := n); trivial.
  - intros x _. rewrite !negb_true_iff, !contains_false, in_app_iff. tauto.
  - rewrite negb_false_iff, contains_In, in_app_iff. simpl. tauto.
  - now rewrite negb_true_iff, contains_false.
Qed.

Section EachTotal.
Variable recur : string -> list string -> Traversal.
Variable Q : list string -> Prop.
Variable K : string -> Prop.
Hypothesis recur_total : forall n st,
  Q st -> K n -> ~ In n st ->
  exists r st', recur n (st ++ [n]) = Some (r, st') /\ Q st'.

Lemma eachDependency_total deps : forall result stack,
  Forall K deps -> Q stack ->
  exists r st', eachDependency recur deps result stack = Some (r, st') /\ Q st'.
Proof.
  induction deps as [|n deps IH]; intros result stack HK HQ; simpl.
  - eauto.
  - inversion HK as [|? ? Hn HK']; subst.
    destruct (contains stack n) eqn:E; simpl.
    + now apply IH.
    + apply contains_false in E.
      destruct (recur_total n stack HQ Hn E) as (r & st' & -> & HQ').
      now apply IH.
Qed.

Lemma eachDependant_total funcNames entries : forall result stack,
  Forall K (keys entries) -> Q stack ->
  exists r st',
    eachDependant recur funcNames entries result stack = Some (r, st') /\ Q st'.
Proof.
  induction entries as [|[n deps] entries IH]; intros result stack HK HQ; simpl.
  - eauto.
  - inversion HK as [|? ? Hn HK']; subst.
    destruct (contains stack n) eqn:E; simpl.
    + now apply IH.
    + destruct (existsb _ funcNames); [|now apply IH].
      apply contains_false in E.
      destruct (recur_total n stack HQ Hn E) as (r & st' & -> & HQ').
      now apply IH.
Qed.
End EachTotal.

Lemma getDependenciesRec_total depMap : forall fuel funcName stack,
  unvisited depMap stack < fuel ->
  exists r st,
    getDependenciesRec fuel funcName depMap false stack = Some (r, st)
    /\ incl stack st.
Proof.
  induction fuel as [|fuel IH]; intros funcName stack Hlt; [lia|].
  rewrite getDependenciesRec_S.
  destruct (argDeps funcName depMap) as [|d deps] eqn:Hdeps.
  - exists [], stack. split; [reflexivity | apply incl_refl].
  - destruct (eachDependency_total
                (fun otherName stack' =>
                   getDependenciesRec fuel (Name otherName) depMap false stack')
                (fun st => incl stack st) (fun _ => True)) with (deps := d :: deps)
                (result := @nil string) (stack := stack)
      as (r & st & Heq & Hincl).
    + intros n st Hst _ Hn.
      destruct (argDeps (Name n) depMap) as [|d' ds'] eqn:Hn'.
      * exists [], (st ++ [n]). rewrite getDependenciesRec_nodeps by assumption.
        split; [reflexivity | now apply incl_appl].
      * destruct (IH (Name n) (st ++ [n])) as (r & st' & Heq & Hincl).
        { simpl in Hn'. unfold depsOf in Hn'.
          destruct (get depMap n) eqn:Hget; [|discriminate].
          apply get_key in Hget.
          pose proof (unvisited_push depMap st n Hget Hn).
          pose proof (unvisited_mono depMap stack st Hst). lia. }
        exists r, st'. split; [assumption|].
        intros x Hx. apply Hincl, in_or_app. left. now apply Hst.
    + apply Forall_forall. trivial.
    + apply incl_refl.
    + rewrite Heq. simpl. eauto.
Qed.

Lemma getDependantsRec_total depMap : forall fuel funcName stack,
  unvisited depMap stack < fuel ->
  exists r st,
    getDependantsRec fuel funcName depMap stack = Some (r, st) /\ incl stack st.
Proof.
  induction fuel as [|fuel IH]; intros funcName stack Hlt; [lia|].
  rewrite getDependantsRec_S.
  destruct (eachDependant_total
              (fun otherName stack' =>
                 getDependantsRec fuel (Name otherName) depMap stack')
              (fun st => incl stack st) (fun n => In n (keys depMap)))
    with (funcNames := argNames funcName)
         (entries := depMap) (result := @nil string) (stack := stack)
    as (r & st & Heq & Hincl).
  - intros n st Hst Hk Hn.
    destruct (IH (Name n) (st ++ [n])) as (r & st' & Heq & Hincl).
    { pose proof (unvisited_push depMap st n Hk Hn).
      pose proof (unvisited_mono depMap stack st Hst). lia. }
    exists r, st'. split; [assumption|].
    intros x Hx. apply Hincl, in_or_app. left. now apply Hst.
  - apply Forall_forall. trivial.
  - apply incl_refl.
  - rewrite Heq. simpl. eauto.
Qed.

(** More fuel never changes a result. *)
Lemma eachDependency_ext recur recur' deps : forall result stack x,
  (forall n st y, recur n st = Some y -> recur' n st = Some y) ->
  eachDependency recur deps result stack = Some x ->
  eachDependency recur' deps result stack = Some x.
Proof.
  induction deps as [|n deps IH]; intros result stack x H; simpl; [trivial|].
  destruct (negb (contains stack n)); [|now apply IH].
  destruct (recur n (stack ++ [n])) as [[sub st']|] eqn:E; [|discriminate].
  rewrite (H _ _ _ E). now apply IH.
Qed.

Lemma eachDependant_ext recur recur' funcNames entries : forall result stack x,
  (forall n st y, recur n st = Some y -> recur' n st = Some y) ->
  eachDependant recur funcNames entries result stack = Some x ->
  eachDependant recur' funcNames entries result stack = Some x.
Proof.
  induction entries as [|[n deps] entries IH]; intros result stack x H; simpl;
    [trivial|].
  destruct (negb (contains stack n) && _); [|now apply IH].
  destruct (recur n (stack ++ [n])) as [[sub st']|] eqn:E; [|discriminate].
  rewrite (H _ _ _ E). now apply IH.
Qed.

Lemma uniqResult_Some t x :
  uniqResult t = Some x ->
  exists r st, t = Some (r, st) /\ x = (uniq r, st).
Proof.
  destruct t as [[r st]|]; simpl; [|discriminate].
  intros [= <-]. eauto.
Qed.

Lemma getDependenciesRec_fuel_mono depMap : forall fuel fuel' funcName stack x,
  fuel <= fuel' ->
  getDependenciesRec fuel funcName depMap false stack = Some x ->
  getDependenciesRec fuel' funcName depMap false stack = Some x.
Proof.
  induction fuel as [|fuel IH]; intros fuel' funcName stack x Hle.
  - simpl. destruct (argDeps funcName depMap) eqn:E; [|discriminate].
    intros <-. now apply getDependenciesRec_nodeps.
  - destruct fuel' as [|fuel']; [lia|]. rewrite !getDependenciesRec_S.
    destruct (argDeps funcName depMap); trivial.
    intros H. apply uniqResult_Some in H. destruct H as (r & st & H & ->).
    rewrite (eachDependency_ext _ _ _ _ _ _ (fun n st0 y => IH fuel' (Name n) st0 y ltac:(lia)) H).
    reflexivity.
Qed.

Lemma getDependantsRec_fuel_mono depMap : forall fuel fuel' funcName stack x,
  fuel <= fuel' ->
  getDependantsRec fuel funcName depMap stack = Some x ->
  getDependantsRec fuel' funcName depMap stack = Some x.
Proof.
  induction fuel as [|fuel IH]; intros fuel' funcName stack x Hle;
    [discriminate|].
  destruct fuel' as [|fuel']; [lia|]. rewrite !getDependantsRec_S.
  intros H. apply uniqResult_Some in H. destruct H as (r & st & H & ->).
  rewrite (eachDependant_ext _ _ _ _ _ _ _ (fun n st0 y => IH fuel' (Name n) st0 y ltac:(lia)) H).
  reflexivity.
Qed.

(** ** What a finished traversal has visited *)


Section DependenciesSpec.
Variable depMap : DepMap.
Variable recur : string -> list string -> Traversal.

Hypothesis recur_spec : forall n st sub st',
  recur n st = Some (sub, st') ->
  visited (succDependencies depMap) (succDependencies depMap n) st sub st'.

Lemma eachDependency_spec deps : forall result stack r st,
  eachDependency recur deps result stack = Some (r, st) ->
  exists new,
    st = stack ++ new
    /\ (forall x, In x r <-> In x result \/ In x new)
    /\ incl deps st
    /\ (forall m, In m new -> succDependencies depMap m st).
Proof.
  unfold visited, succDependencies in *.
  induction deps as [|n deps IH]; intros result stack r st; simpl.
  - intros [= <- <-]. exists []. rewrite app_nil_r. repeat split.
    + tauto.
    + intros [H|[]]; assumption.
    + intros x [].
    + intros m [].
  - destruct (contains stack n) eqn:E; simpl.
    + intros H. destruct (IH _ _ _ _ H) as (new & -> & Hr & Hd & Hs).
      exists new. repeat split; trivial; try apply Hr.
      intros x [<-|Hx]; [|now apply Hd].
      apply in_or_app. left. now apply contains_In.
    + destruct (recur n (stack ++ [n])) as [[sub st1]|] eqn:Hrec; [|discriminate].
      intros H.
      destruct (recur_spec _ _ _ _ Hrec) as (new1 & -> & Hsub & Hn & Hs1).
      destruct (IH _ _ _ _ H) as (new2 & -> & Hr & Hd & Hs2).
      exists ((n :: new1) ++ new2).
      assert (Hmono : incl ((stack ++ [n]) ++ new1) (((stack ++ [n]) ++ new1) ++ new2))
        by (apply incl_appl, incl_refl).
      repeat split.
      * rewrite <- !app_assoc. reflexivity.
      * intros Hx. apply Hr in Hx. rewrite !in_app_iff in *. simpl in *.
        rewrite Hsub in Hx. tauto.
      * intros Hx. apply Hr. rewrite !in_app_iff in *. simpl in *.
        rewrite Hsub. tauto.
      * intros x [<-|Hx]; [|now apply Hd].
        rewrite !in_app_iff. simpl. tauto.
      * intros m Hm. rewrite in_app_iff in Hm. simpl in Hm.
        destruct Hm as [[<-|Hm]|Hm].
        -- intros x Hx. apply Hmono. now apply Hn.
        -- intros x Hx. apply Hmono. now apply (Hs1 m).
        -- now apply Hs2.
Qed.
End DependenciesSpec.

Lemma getDependenciesRec_spec depMap : forall fuel funcName stack r st,
  getDependenciesRec fuel funcName depMap false stack = Some (r, st) ->
  visited (succDependencies depMap) (incl (argDeps funcName depMap)) stack r st.
Proof.
  unfold visited, succDependencies.
  induction fuel as [|fuel IH]; intros funcName stack r st.
  - simpl. destruct (argDeps funcName depMap); [|discriminate].
    intros [= <- <-]. exists []. rewrite app_nil_r.
    repeat split; try tauto; intros x [].
  - rewrite getDependenciesRec_S.
    destruct (argDeps funcName depMap) as [|d deps] eqn:Hdeps.
    + intros [= <- <-]. exists []. rewrite app_nil_r.
      repeat split; try tauto; intros x [].
    + intros H. apply uniqResult_Some in H. destruct H as (r0 & st0 & H & [= -> ->]).
      apply eachDependency_spec with (depMap := depMap) in H.
      * destruct H as (new & -> & Hr & Hd & Hs). exists new.
        repeat split; trivial.
        -- rewrite uniq_In, Hr. simpl. tauto.
        -- rewrite uniq_In, Hr. tauto.
      * intros n st1 sub st2 Hrec. apply (IH (Name n)). exact Hrec.
Qed.


Lemma closedUnder_union depMap a b :
  closedUnder depMap a -> closedUnder depMap b -> closedUnder depMap (union a b).
Proof.
  intros Ha Hb i d Hi Hd. rewrite union_In in *.
  destruct Hi as [Hi|Hi]; [left; eapply Ha | right; eapply Hb]; eassumption.
Qed.

Lemma closedUnder_app depMap a b :
  closedUnder depMap a -> closedUnder depMap b -> closedUnder depMap (a ++ b).
Proof.
  intros Ha Hb i d Hi Hd. rewrite in_app_iff in *.
  destruct Hi as [Hi|Hi]; [left; eapply Ha | right; eapply Hb]; eassumption.
Qed.

Lemma closedUnder_uniq depMap a :
  closedUnder depMap a -> closedUnder depMap (uniq a).
Proof.
  intros Ha i d Hi Hd. rewrite uniq_In in *. eapply Ha; eassumption.
Qed.

Lemma getDependencies_run funcName depMap :
  exists st,
    getDependenciesRec (traversalFuel depMap) funcName depMap false []
    = Some (getDependencies funcName depMap false, st).
Proof.
  destruct (getDependenciesRec_total depMap (traversalFuel depMap) funcName [])
    as (r & st & Heq & _).
  - unfold traversalFuel. pose proof (unvisited_le_length depMap []). lia.
  - exists st. unfold getDependencies. now rewrite Heq.
Qed.

(** The result of a non-shallow [getDependencies] holds the names asked for
    (the array itself, or the dependencies of the name) and is closed. *)
Lemma getDependencies_closed funcName depMap :
  incl (argDeps funcName depMap) (getDependencies funcName depMap false)
  /\ closedUnder depMap (getDependencies funcName depMap false).
Proof.
  destruct (getDependencies_run funcName depMap) as (st & Hrun).
  apply getDependenciesRec_spec in Hrun.
  destruct Hrun as (new & Hst & Hr & Hd & Hs). simpl in Hst. subst st.
  split.
  - intros x Hx. apply Hr. now apply Hd.
  - intros i d Hi Hdep. apply Hr. apply Hr in Hi. now apply (Hs i).
Qed.

(** Nothing else is in the result: it lies inside every closed set that
    holds the names asked for. *)
Section DependenciesSound.
Variable depMap : DepMap.
Variable good : string -> Prop.
Hypothesis good_closed : forall i d, good i -> In d (depsOf depMap i) -> good d.

Lemma eachDependency_sound recur deps :
  (forall n st sub st', recur n st = Some (sub, st') -> good n ->
                        forall x, In x sub -> good x) ->
  forall result stack r st,
  (forall d, In d deps -> good d) ->
  (forall x, In x result -> good x) ->
  eachDependency recur deps result stack = Some (r, st) ->
  forall x, In x r -> good x.
Proof.
  intros Hrec. induction deps as [|n deps IH]; intros result stack r st Hd Hres; simpl.
  - intros [= <- <-]. assumption.
  - destruct (negb (contains stack n)).
    + destruct (recur n (stack ++ [n])) as [[sub st1]|] eqn:E; [|discriminate].
      apply IH.
      * intros d H. apply Hd. now right.
      * intros x Hx. rewrite !in_app_iff in Hx. simpl in Hx.
        destruct Hx as [Hx|[Hx|[<-|[]]]].
        -- now apply Hres.
        -- eapply Hrec; [exact E | apply Hd; now left | exact Hx].
        -- apply Hd. now left.
    + apply IH; trivial. intros d H. apply Hd. now right.
Qed.

Lemma getDependenciesRec_sound : forall fuel funcName stack r st,
  (forall d, In d (argDeps funcName depMap) -> good d) ->
  getDependenciesRec fuel funcName depMap false stack = Some (r, st) ->
  forall x, In x r -> good x.
Proof.
  induction fuel as [|fuel IH]; intros funcName stack r st Hd.
  - simpl. destruct (argDeps funcName depMap); [|discriminate].
    intros [= <- <-] x [].
  - rewrite getDependenciesRec_S.
    destruct (argDeps funcName depMap) as [|d deps] eqn:Hdeps.
    + intros [= <- <-] x [].
    + intros H. apply uniqResult_Some in H. destruct H as (r0 & st0 & H & [= -> ->]).
      intros x Hx. rewrite uniq_In in Hx. revert x Hx.
      refine (eachDependency_sound _ _ _ _ _ _ _ Hd
                (fun x (F : In x []) => match F with end) H).
      intros n st1 sub st2 Hrec Hn. refine (IH (Name n) _ _ _ _ Hrec).
      intros d' Hd'. simpl in Hd'. now apply (good_closed n).
Qed.

Lemma getDependencies_sound funcName :
  (forall d, In d (argDeps funcName depMap) -> good d) ->
  forall x, In x (getDependencies funcName depMap false) -> good x.
Proof.
  intros Hd. destruct (getDependencies_run funcName depMap) as (st & Hrun).
  eapply getDependenciesRec_sound; eassumption.
Qed.
End DependenciesSound.

(** The dependants found by [getDependants]: every entry of the map that
    lists one of the names asked for, or one of the names found, is found. *)
Section DependantsSpec.
Variable depMap : DepMap.
Variable recur : string -> list string -> Traversal.

Hypothesis recur_spec : forall n st sub st',
  recur n st = Some (sub, st') ->
  visited (succDependants depMap) (succDependants depMap n) st sub st'.

Lemma eachDependant_spec funcNames entries : forall result stack r st,
  incl entries depMap ->
  eachDependant recur funcNames entries result stack = Some (r, st) ->
  exists new,
    st = stack ++ new
    /\ (forall x, In x r <-> In x result \/ In x new)
    /\ (forall k deps f, In (k, deps) entries -> In f funcNames -> In f deps ->
                         In k st)
    /\ (forall m, In m new -> succDependants depMap m st).
Proof.
  unfold visited, succDependants in *.
  induction entries as [|[n deps] entries IH]; intros result stack r st Hincl; simpl.
  - intros [= <- <-]. exists []. rewrite app_nil_r. repeat split.
    + tauto.
    + intros [H|[]]; assumption.
    + intros k deps f [].
    + intros m [].
  - assert (Hincl' : incl entries depMap)
      by (intros x Hx; apply Hincl; now right).
    destruct (contains stack n) eqn:E; simpl.
    + intros H. destruct (IH _ _ _ _ Hincl' H) as (new & -> & Hr & Hd & Hs).
      exists new. repeat split; trivial; try apply Hr.
      intros k deps' f [[= <- <-]|Hk] Hf Hin; [|now apply (Hd k deps' f)].
      apply in_or_app. left. now apply contains_In.
    + destruct (existsb (fun funcName => contains deps funcName) funcNames) eqn:Ex.
      * destruct (recur n (stack ++ [n])) as [[sub st1]|] eqn:Hrec; [|discriminate].
        intros H.
        destruct (recur_spec _ _ _ _ Hrec) as (new1 & -> & Hsub & Hn & Hs1).
        destruct (IH _ _ _ _ Hincl' H) as (new2 & -> & Hr & Hd & Hs2).
        exists ((n :: new1) ++ new2).
        repeat split.
        -- rewrite <- !app_assoc. reflexivity.
        -- intros Hx. apply Hr in Hx. rewrite !in_app_iff in *. simpl in *.
           rewrite Hsub in Hx. tauto.
        -- intros Hx. apply Hr. rewrite !in_app_iff in *. simpl in *.
           rewrite Hsub. tauto.
        -- intros k deps' f [[= <- <-]|Hk] Hf Hin; [|now apply (Hd k deps' f)].
           rewrite !in_app_iff. simpl. tauto.
        -- intros m Hm. rewrite in_app_iff in Hm. simpl in Hm.
           destruct Hm as [[<-|Hm]|Hm].
           ++ intros k deps' Hk Hin. apply in_or_app. left. now apply (Hn k deps').
           ++ intros k deps' Hk Hin. apply in_or_app. left. now apply (Hs1 m Hm k deps').
           ++ now apply Hs2.
      * intros H. destruct (IH _ _ _ _ Hincl' H) as (new & -> & Hr & Hd & Hs).
        exists new. repeat split; trivial; try apply Hr.
        intros k deps' f [[= <- <-]|Hk] Hf Hin; [|now apply (Hd k deps' f)].
        exfalso. rewrite <- not_true_iff_false in Ex. apply Ex.
        apply existsb_exists. exists f. split; [assumption|]. now apply contains_In.
Qed.
End DependantsSpec.

Lemma getDependantsRec_spec depMap : forall fuel funcName stack r st,
  getDependantsRec fuel funcName depMap stack = Some (r, st) ->
  visited (succDependants depMap)
          (fun st => forall k deps f, In (k, deps) depMap ->
                                      In f (argNames funcName) -> In f deps -> In k st)
          stack r st.
Proof.
  unfold visited, succDependants.
  induction fuel as [|fuel IH]; intros funcName stack r st; [discriminate|].
  rewrite getDependantsRec_S.
  intros H. apply uniqResult_Some in H. destruct H as (r0 & st0 & H & [= -> ->]).
  apply eachDependant_spec with (depMap := depMap) in H.
  - destruct H as (new & -> & Hr & Hd & Hs). exists new.
    repeat split; trivial.
    + rewrite uniq_In, Hr. simpl. tauto.
    + rewrite uniq_In, Hr. tauto.
  - intros n st1 sub st2 Hrec. apply (IH (Name n)) in Hrec.
    destruct Hrec as (new & Hst & Hr & Hd & Hs). exists new.
    repeat split; trivial; try apply Hr.
    intros k deps Hk Hin. apply (Hd k deps n); simpl; auto.
  - apply incl_refl.
Qed.

Lemma getDependants_run funcName depMap :
  exists st,
    getDependantsRec (traversalFuel depMap) funcName depMap []
    = Some (getDependants funcName depMap, st).
Proof.
  destruct (getDependantsRec_total depMap (traversalFuel depMap) funcName [])
    as (r & st & Heq & _).
  - unfold traversalFuel. pose proof (unvisited_le_length depMap []). lia.
  - exists st. unfold getDependants. now rewrite Heq.
Qed.


Lemma depsOf_entry depMap i d :
  In d (depsOf depMap i) -> exists deps, In (i, deps) depMap /\ In d deps.
Proof.
  unfold depsOf. destruct (get depMap i) as [deps|] eqn:E; [|intros []].
  intros H. exists deps. split; [now apply get_In | assumption].
Qed.

Lemma getDependants_complete funcName depMap i x :
  In x (argNames funcName) -> dependsOn depMap i x ->
  In i (getDependants funcName depMap).
Proof.
  intros Hx Hdep.
  destruct (getDependants_run funcName depMap) as (st & Hrun).
  apply getDependantsRec_spec in Hrun.
  destruct Hrun as (new & Hst & Hr & Hd & Hs). simpl in Hst. subst st.
  induction Hdep as [i x Hin | i d x Hin Hdep IH].
  - apply depsOf_entry in Hin. destruct Hin as (deps & Hentry & Hin).
    apply Hr. now apply (Hd i deps x).
  - apply depsOf_entry in Hin. destruct Hin as (deps & Hentry & Hin).
    apply Hr. apply (Hs d) with (deps := deps); trivial. apply Hr. now apply IH.
Qed.

(** ** Alias resolution *)

Lemma hasOwn_get {A} (m : list (string * A)) k :
  hasOwn m k = true <-> exists v, get m k = Some v.
Proof.
  unfold hasOwn. destruct (get m k); split; eauto; try discriminate.
  intros [v H]. discriminate.
Qed.

(** No real name of the alias table is itself an alias, and none is empty. *)
Lemma aliasToRealMap_values : forall alias real,
  get aliasToRealMap alias = Some real ->
  hasOwn aliasToRealMap real = false /\ String.eqb real "" = false.
Proof.
  intros alias real H. apply get_In in H.
  assert (Hall : forallb (fun kv => negb (hasOwn aliasToRealMap (snd kv))
                                    && negb (String.eqb (snd kv) ""))
                   aliasToRealMap = true) by (vm_compute; reflexivity).
  rewrite forallb_forall in Hall. specialize (Hall _ H). simpl in Hall.
  apply andb_true_iff in Hall. destruct Hall as [H1 H2].
  now rewrite negb_true_iff in H1, H2.
Qed.

Lemma getRealName_cases funcName depMap :
  getRealName funcName depMap =
  if hasOwn (match depMap with Some m => m | None => funcDependencyMap end) funcName
  then funcName
  else match get aliasToRealMap funcName with
       | Some real => real
       | None => funcName
       end.
Proof.
  unfold getRealName.
  destruct (hasOwn _ funcName); cbn [negb andb]; [reflexivity|].
  unfold hasOwn.
  destruct (get aliasToRealMap funcName) as [real|] eqn:E; [|reflexivity].
  apply aliasToRealMap_values in E. destruct E as [_ E]. now rewrite E.
Qed.

(** C6.  Resolving an alias twice gives what resolving it once gives, for
    every name and every dependency map, given or defaulted; and a name
    that the dependency map tracks resolves to itself. *)
Theorem getRealName_idempotent : forall (funcName : string) (depMap : option DepMap),
  getRealName (getRealName funcName depMap) depMap = getRealName funcName depMap
  /\ (hasOwn (match depMap with Some m => m | None => funcDependencyMap end) funcName
      = true ->
      getRealName funcName depMap = funcName).
Proof.
  intros funcName depMap. split.
  - rewrite (getRealName_cases funcName).
    destruct (hasOwn _ funcName) eqn:Hown.
    + rewrite getRealName_cases. now rewrite Hown.
    + destruct (get aliasToRealMap funcName) as [real|] eqn:E.
      * rewrite getRealName_cases.
        apply aliasToRealMap_values in E. destruct E as [E _].
        unfold hasOwn in E.
        destruct (get aliasToRealMap real); [discriminate|].
        now destruct (hasOwn _ real).
      * rewrite getRealName_cases. now rewrite Hown, E.
  - intros Hown. rewrite getRealName_cases. now rewrite Hown.
Qed.

Lemma getRealName_idempotent_witness :
  hasOwn funcDependencyMap "findWhere" = true
  /\ getRealName (getRealName "findWhere" None) None = getRealName "findWhere" None
  /\ getRealName "findWhere" None = "findWhere".
Proof.
  split; [reflexivity|].
  destruct (getRealName_idempotent "findWhere" None) as [H1 H2].
  split; [exact H1 | apply H2; reflexivity].
Defined.

(** C7, as amended.  [getRealName] returns the name unchanged when the name
    itself is a tracked identifier of the dependency map, or when it is not
    a known alias; otherwise it returns the real name of the alias. *)
Theorem getRealName_unchanged_condition : forall (funcName : string) (depMap : DepMap),
  getRealName funcName (Some depMap) =
  if hasOwn depMap funcName then funcName
  else match get aliasToRealMap funcName with
       | Some real => real
       | None => funcName
       end.
Proof. intros. apply getRealName_cases. Qed.

(** C7, as stated, fails both ways.  [findWhere] is an alias whose target
    [find] is tracked by the dependency table, yet it is returned unchanged,
    because [findWhere] itself is tracked; [all] is an alias whose target
    [every] is not tracked by the empty map, yet [every] is returned. *)
Lemma getRealName_not_as_specified :
  (get aliasToRealMap "findWhere" = Some "find"
   /\ hasOwn funcDependencyMap "find" = true
   /\ specifiedRealName "findWhere" funcDependencyMap = "find"
   /\ getRealName "findWhere" (Some funcDependencyMap) = "findWhere")
  /\ (get aliasToRealMap "all" = Some "every"
      /\ hasOwn (@nil (string * list string)) "every" = false
      /\ specifiedRealName "all" [] = "all"
      /\ getRealName "all" (Some []) = "every").
Proof. repeat split. Qed.

(** ** Termination on cyclic maps *)

(** C5.  For every dependency map, cyclic or not, and every name or array
    of names, the non-shallow [getDependencies] returns: the fuel of the
    model that is set for the map suffices, and more fuel gives the same
    result.  A name that is already on the stack is passed over: the
    traversal goes on with the next name, the result and stack unchanged. *)
Theorem getDependencies_terminates : forall (depMap : DepMap) (funcName : funcArg),
  (exists result stack,
      forall fuel, traversalFuel depMap <= fuel ->
        getDependenciesRec fuel funcName depMap false [] = Some (result, stack))
  /\ (forall recur otherName deps result stack,
        contains stack otherName = true ->
        eachDependency recur (otherName :: deps) result stack
        = eachDependency recur deps result stack).
Proof.
  intros depMap funcName. split.
  - destruct (getDependenciesRec_total depMap (traversalFuel depMap) funcName [])
      as (r & st & Heq & _).
    + unfold traversalFuel. pose proof (unvisited_le_length depMap []). lia.
    + exists r, st. intros fuel Hle.
      eapply getDependenciesRec_fuel_mono; eassumption.
  - intros recur otherName deps result stack H. simpl. now rewrite H.
Qed.

Lemma getDependencies_terminates_witness :
  traversalFuel cyclicMap <= 7
  /\ getDependenciesRec 7 (Name "a") cyclicMap false []
     = Some (["a"; "c"; "b"], ["b"; "a"; "c"])
  /\ contains ["b"; "a"] "a" = true
  /\ eachDependency
       (fun n st => getDependenciesRec 2 (Name n) cyclicMap false st)
       ["a"; "c"] [] ["b"; "a"]
     = eachDependency
       (fun n st => getDependenciesRec 2 (Name n) cyclicMap false st)
       ["c"] [] ["b"; "a"].
Proof.
  destruct (getDependencies_terminates cyclicMap (Name "a"))
    as [(result & stack & Hrun) Hskip].
  assert (Hle : traversalFuel cyclicMap <= 7) by (vm_compute; lia).
  assert (Hin : contains ["b"; "a"] "a" = true) by reflexivity.
  split; [exact Hle|]. split.
  - pose proof (Hrun 3 (le_n 3)) as H3. vm_compute in H3.
    injection H3 as <- <-. exact (Hrun 7 Hle).
  - split; [exact Hin|]. exact (Hskip _ "a" ["c"] [] ["b"; "a"] Hin).
Defined.

(** ** The build set *)

Lemma closedUnder_nil depMap : closedUnder depMap [].
Proof. intros i d []. Qed.

Lemma flat_map_closed depMap (f : string -> list string) l :
  (forall x, closedUnder depMap (f x)) -> closedUnder depMap (flat_map f l).
Proof.
  intros H. induction l as [|a l IH]; simpl.
  - apply closedUnder_nil.
  - apply closedUnder_app; [apply H | exact IH].
Qed.

(** The function dependencies [expand] gathers for some identifiers. *)
Lemma gathered_closed funcDepMap ids :
  closedUnder funcDepMap
    (uniq (flat_map (fun identifier =>
                       getDependencies (Name identifier) funcDepMap false) ids)).
Proof.
  apply closedUnder_uniq, flat_map_closed.
  intros x. apply getDependencies_closed.
Qed.

Lemma depsOf_mentioned depMap i d :
  In d (depsOf depMap i) -> In d (flat_map snd depMap).
Proof.
  intros H. apply depsOf_entry in H. destruct H as (deps & Hentry & Hin).
  apply in_flat_map. exists (i, deps). auto.
Qed.

Lemma gathered_mentioned funcDepMap ids x :
  In x (uniq (flat_map (fun identifier =>
                          getDependencies (Name identifier) funcDepMap false) ids)) ->
  In x (flat_map snd funcDepMap).
Proof.
  rewrite uniq_In, in_flat_map. intros (identifier & _ & Hx).
  revert x Hx. apply getDependencies_sound.
  - intros i d _. apply depsOf_mentioned.
  - intros d. simpl. apply depsOf_mentioned.
Qed.

Lemma unexpanded_mono funcDepMap st st' :
  incl st st' -> unexpanded funcDepMap st' <= unexpanded funcDepMap st.
Proof.
  intros Hincl. apply filter_length_mono. intros x _.
  rewrite !negb_true_iff, !contains_false. intros H Hx. apply H.
  now apply Hincl.
Qed.

Lemma unexpanded_push funcDepMap st n :
  In n (flat_map snd funcDepMap) -> ~ In n st ->
  unexpanded funcDepMap (st ++ [n]) < unexpanded funcDepMap st.
Proof.
  intros Hk Hn. apply filter_length_lt with (a := n); trivial.
  - intros x _. rewrite !negb_true_iff, !contains_false, in_app_iff. tauto.
  - rewrite negb_false_iff, contains_In, in_app_iff. simpl. tauto.
  - now rewrite negb_true_iff, contains_false.
Qed.

Lemma unexpanded_le_length funcDepMap st :
  unexpanded funcDepMap st <= List.length (flat_map snd funcDepMap).
Proof. apply List.filter_length_le. Qed.

Lemma sound_refl funcDepMap e : closedUnder funcDepMap (kept e) -> sound funcDepMap e e.
Proof. intros H. repeat split; trivial; apply incl_refl. Qed.

Lemma sound_trans funcDepMap e0 e1 e2 :
  sound funcDepMap e0 e1 -> sound funcDepMap e1 e2 -> sound funcDepMap e0 e2.
Proof.
  intros (_ & H1 & H1') (H2 & H3 & H3'). repeat split; trivial.
  - eapply incl_tran; eassumption.
  - eapply incl_tran; eassumption.
Qed.

Section ExpandTotal.
Variable funcDepMap : DepMap.
Variable depMap : DepMap.

Lemma reduceNames_total again bound funcNames : forall e,
  (forall names e', (forall n, In n names -> In n (flat_map snd funcDepMap)) ->
                    closedUnder funcDepMap (kept e') ->
                    unexpanded funcDepMap (expanded e') < bound ->
                    exists e'', again names e' = Some e'' /\ sound funcDepMap e' e'') ->
  (forall n, In n funcNames -> In n (flat_map snd funcDepMap)) ->
  closedUnder funcDepMap (kept e) ->
  unexpanded funcDepMap (expanded e) <= bound ->
  exists e', reduceNames funcDepMap depMap again funcNames e = Some e'
             /\ sound funcDepMap e e'.
Proof.
  intros e Hagain. revert e.
  induction funcNames as [|n funcNames IH]; intros e Hnames Hclosed Hbound; simpl.
  - exists e. split; [reflexivity | now apply sound_refl].
  - assert (Hnames' : forall m, In m funcNames -> In m (flat_map snd funcDepMap))
      by (intros m Hm; apply Hnames; now right).
    destruct (contains (expanded e) n) eqn:E; simpl.
    + now apply IH.
    + apply contains_false in E. unfold expandName.
      destruct (Hagain
                  (uniq (flat_map (fun identifier =>
                                     getDependencies (Name identifier) funcDepMap false)
                                  (depsOf depMap n)))
                  {| identifiers := identifiers e ++ depsOf depMap n;
                     expanded := expanded e ++ [n];
                     kept := union (kept e)
                               (uniq (flat_map (fun identifier =>
                                        getDependencies (Name identifier) funcDepMap false)
                                        (depsOf depMap n))) |})
        as (e1 & Heq & Hs1).
      * intros x. apply gathered_mentioned.
      * simpl. apply closedUnder_union; [assumption | apply gathered_closed].
      * simpl. pose proof (unexpanded_push funcDepMap (expanded e) n
                             (Hnames n (or_introl eq_refl)) E). lia.
      * rewrite Heq. destruct Hs1 as (Hc1 & Hi1 & Hk1). simpl in Hi1, Hk1.
        destruct (IH e1) as (e2 & Heq2 & Hs2); trivial.
        -- pose proof (unexpanded_mono funcDepMap _ _ Hi1).
           pose proof (unexpanded_push funcDepMap (expanded e) n
                         (Hnames n (or_introl eq_refl)) E). lia.
        -- exists e2. split; [assumption|].
           destruct Hs2 as (Hc2 & Hi2 & Hk2). repeat split; trivial.
           ++ intros x Hx. apply Hi2, Hi1, in_or_app. now left.
           ++ intros x Hx. apply Hk2, Hk1, union_In. now left.
Qed.

Lemma uniqIdentifiers_sound e0 e e' :
  uniqIdentifiers (Some e) = Some e' ->
  sound funcDepMap e0 e -> sound funcDepMap e0 e'.
Proof. intros [= <-]. trivial. Qed.

Lemma expandNames_total : forall fuel funcNames e,
  (forall n, In n funcNames -> In n (flat_map snd funcDepMap)) ->
  closedUnder funcDepMap (kept e) ->
  unexpanded funcDepMap (expanded e) < fuel ->
  exists e', expandNames funcDepMap depMap fuel funcNames e = Some e'
             /\ sound funcDepMap e e'.
Proof.
  induction fuel as [|fuel IH]; intros funcNames e Hnames Hclosed Hlt; [lia|].
  simpl.
  destruct (reduceNames_total (expandNames funcDepMap depMap fuel) fuel funcNames e)
    as (e' & Heq & Hs); [exact IH | assumption | assumption | lia |].
  rewrite Heq. simpl. eexists. split; [reflexivity|]. exact Hs.
Qed.

Lemma expandEntries_total fuel entries : forall e,
  unexpanded funcDepMap [] < fuel ->
  closedUnder funcDepMap (kept e) ->
  exists e', expandEntries funcDepMap depMap fuel entries e = Some e'
             /\ sound funcDepMap e e'.
Proof.
  intros e Hfuel. revert e.
  induction entries as [|[n ids] entries IH]; intros e Hclosed; simpl.
  - exists e. split; [reflexivity | now apply sound_refl].
  - destruct (negb (contains (expanded e) n) && contains (kept e) n).
    + unfold expandName.
      destruct (expandNames_total fuel
                  (uniq (flat_map (fun identifier =>
                                     getDependencies (Name identifier) funcDepMap false)
                                  ids))
                  {| identifiers := identifiers e ++ ids;
                     expanded := expanded e ++ [n];
                     kept := union (kept e)
                               (uniq (flat_map (fun identifier =>
                                        getDependencies (Name identifier) funcDepMap false)
                                        ids)) |})
        as (e1 & Heq & Hs1).
      * intros x. apply gathered_mentioned.
      * simpl. apply closedUnder_union; [assumption | apply gathered_closed].
      * simpl. pose proof (unexpanded_mono funcDepMap [] (expanded e ++ [n])
                             (incl_nil_l _)). lia.
      * rewrite Heq. destruct Hs1 as (Hc1 & Hi1 & Hk1). simpl in Hi1, Hk1.
        destruct (IH e1 Hc1) as (e2 & Heq2 & Hs2).
        exists e2. split; [assumption|].
        destruct Hs2 as (Hc2 & Hi2 & Hk2). repeat split; trivial.
        -- intros x Hx. apply Hi2, Hi1, in_or_app. now left.
        -- intros x Hx. apply Hk2, Hk1, union_In. now left.
    + now apply IH.
Qed.

(** [expand] returns with the fuel set for the map, and keeps the build
    set closed. *)
Lemma expand_total result buildFuncs :
  closedUnder funcDepMap buildFuncs ->
  exists e,
    expand funcDepMap depMap (expandFuel funcDepMap) result buildFuncs = Some e
    /\ closedUnder funcDepMap (kept e)
    /\ incl buildFuncs (kept e).
Proof.
  intros Hclosed. unfold expand.
  destruct (expandEntries_total (expandFuel funcDepMap) depMap
              {| identifiers := result; expanded := []; kept := buildFuncs |})
    as (e & Heq & Hc & _ & Hk); trivial.
  - unfold expandFuel. pose proof (unexpanded_le_length funcDepMap []). lia.
  - rewrite Heq. simpl. eexists. split; [reflexivity|]. simpl. auto.
Qed.
End ExpandTotal.

Lemma initialBuildFuncs_closed typeofLodash st funcDepMap :
  closedUnder funcDepMap (initialBuildFuncs typeofLodash st funcDepMap).
Proof.
  unfold initialBuildFuncs. destruct (isTemplate st).
  - apply closedUnder_nil.
  - apply getDependencies_closed.
Qed.

(** C1.  For every state of the options, hence every requested set and
    every dependency map the environment rewrites produce, the build set is
    computed (the model does not run out of fuel) and is closed under the
    function dependency map used for the build: with each identifier it
    holds every direct dependency the map lists for it. *)
Theorem closure_completeness : forall (typeofLodash : string -> string) (st : BuildState),
  exists r,
    resolve typeofLodash st = Some r
    /\ closedUnder (resolvedFuncDepMap r) (buildFuncs r).
Proof.
  intros typeofLodash st. unfold resolve.
  destruct (updateDependencies st) as [[funcDepMap propDepMap] varDepMap].
  destruct (expand_total funcDepMap propDepMap (includeProps st)
              (initialBuildFuncs typeofLodash st funcDepMap))
    as (props & -> & Hc1 & _).
  - apply initialBuildFuncs_closed.
  - destruct (expand_total funcDepMap varDepMap (includeVars st) (kept props) Hc1)
      as (vars & -> & Hc2 & _).
    eexists. split; [reflexivity|]. exact Hc2.
Qed.

Lemma closure_completeness_witness :
  exists r,
    resolve libraryTypeof (parseOptions libraryTypeof ["include=difference"]) = Some r
    /\ In "difference" (buildFuncs r)
    /\ In "baseFlatten" (depsOf (resolvedFuncDepMap r) "difference")
    /\ In "baseFlatten" (buildFuncs r).
Proof.
  destruct (closure_completeness libraryTypeof
              (parseOptions libraryTypeof ["include=difference"])) as (r & Hr & Hclosed).
  exists r. split; [exact Hr|].
  assert (E : option_map
                (fun r => contains (buildFuncs r) "difference"
                          && contains (depsOf (resolvedFuncDepMap r) "difference")
                               "baseFlatten")
                (resolve libraryTypeof (parseOptions libraryTypeof ["include=difference"]))
              = Some true) by (vm_compute; reflexivity).
  rewrite Hr in E. cbn [option_map] in E. injection E as E.
  apply andb_true_iff in E. destruct E as [H1 H2].
  apply contains_In in H1, H2.
  split; [exact H1|]. split; [exact H2|].
  exact (Hclosed "difference" "baseFlatten" H1 H2).
Defined.

(** ** Subtraction and the "none" entry *)

Lemma pull_incl l vs : incl (pull l vs) l.
Proof. intros x Hx. now apply pull_In in Hx. Qed.

Lemma addAndSubtract_minus plusFuncs minusFuncs isModularize funcDepMap result n :
  minusFuncs <> [] ->
  In n (orEmpty (addAndSubtract plusFuncs minusFuncs isModularize funcDepMap result)) ->
  ~ In n (minusFuncs ++ getDependants (Names minusFuncs) funcDepMap).
Proof.
  intros Hne. unfold addAndSubtract.
  destruct minusFuncs as [|m ms]; [congruence|].
  cbn [List.length Nat.eqb negb].
  destruct isModularize; cbn [option_map orEmpty]; intros H.
  - apply pull_In in H. destruct H as [H _]. now apply difference_In in H.
  - now apply difference_In in H.
Qed.

(** The names handed to the closure hold no minus-ed name and no dependant
    of one. *)
Lemma requestedNames_minus typeofLodash st funcDepMap x n :
  In x (minusFuncs st) ->
  In n (orEmpty (requestedNames typeofLodash st funcDepMap)) ->
  ~ In n (minusFuncs st)
  /\ forall x', In x' (minusFuncs st) -> ~ dependsOn funcDepMap n x'.
Proof.
  intros Hx Hn. apply addAndSubtract_minus in Hn.
  - rewrite in_app_iff in Hn. split; [tauto|].
    intros x' Hx' Hdep. apply Hn. right.
    now apply getDependants_complete with (x := x').
  - intros E. rewrite E in Hx. contradiction.
Qed.

(** C2, as amended.  Every name of the minus list, and every name that
    depends on one directly or through other names, is taken out of the
    requested names before the closure is taken, with the dependants
    [getDependants] returns, and is absent from the closure
    [getDependencies] then computes over the function dependency map, which
    is [buildFuncs] before the properties and variables are expanded. *)
Theorem exclusion_cascade :
  forall (typeofLodash : string -> string) (st : BuildState) (funcDepMap : DepMap)
         (x y : string),
  In x (minusFuncs st) ->
  y = x \/ dependsOn funcDepMap y x ->
  (y <> x -> In y (getDependants (Names (minusFuncs st)) funcDepMap))
  /\ ~ In y (orEmpty (requestedNames typeofLodash st funcDepMap))
  /\ ~ In y (initialBuildFuncs typeofLodash st funcDepMap).
Proof.
  intros typeofLodash st funcDepMap x y Hx Hy.
  assert (Hbad : ~ (~ In y (minusFuncs st)
                    /\ forall x', In x' (minusFuncs st) -> ~ dependsOn funcDepMap y x')).
  { intros [H1 H2]. destruct Hy as [->|Hy]; [now apply H1 | now apply (H2 x)]. }
  split; [|split].
  - intros Hne. destruct Hy as [->|Hy]; [contradiction|].
    now apply getDependants_complete with (x := x).
  - intros Hin. apply Hbad. now apply (requestedNames_minus typeofLodash _ _ x).
  - unfold initialBuildFuncs. destruct (isTemplate st); [intros []|].
    intros Hin. apply Hbad. revert y Hin Hy Hbad.
    intros y Hin _ _. revert y Hin.
    apply (getDependencies_sound funcDepMap
             (fun n => ~ In n (minusFuncs st)
                       /\ forall x', In x' (minusFuncs st) -> ~ dependsOn funcDepMap n x')).
    + intros i d [Hi1 Hi2] Hd. split.
      * intros Hm. apply (Hi2 d Hm). now apply dependsOn_direct.
      * intros x' Hx' Hdep. apply (Hi2 x' Hx').
        now apply dependsOn_trans with (d := d).
    + intros d Hd. simpl in Hd. now apply (requestedNames_minus typeofLodash st _ x).
Qed.

Lemma exclusion_cascade_witness :
  In "keys" ["keys"]
  /\ dependsOn funcDependencyMap "pairs" "keys"
  /\ ~ In "pairs"
       (initialBuildFuncs libraryTypeof
          (parseOptions libraryTypeof ["minus=keys"]) funcDependencyMap).
Proof.
  assert (H1 : In "keys" (minusFuncs (parseOptions libraryTypeof ["minus=keys"])))
    by (vm_compute; auto).
  assert (H2 : dependsOn funcDependencyMap "pairs" "keys")
    by (apply dependsOn_direct; vm_compute; auto).
  split; [simpl; auto|]. split; [exact H2|].
  exact (proj2 (proj2 (exclusion_cascade libraryTypeof
                         (parseOptions libraryTypeof ["minus=keys"])
                         funcDependencyMap "keys" "pairs" H1 (or_intror H2)))).
Defined.

(** C2, as stated, fails on the build set the build goes on with.  For
    [include=forOwn minus=keys] the options are accepted and [keys] is a
    minus-ed name, yet [keys] is in [buildFuncs]: the variable
    [eachIteratorOptions] that [forOwn] needs depends on [keys], and the
    expansion of variables adds it back. *)
Lemma minus_name_back_in_build_set :
  exists st r,
    build libraryTypeof slashEscaped libraryEvaluates
      ["include=forOwn"; "minus=keys"] = Continues st
    /\ resolve libraryTypeof st = Some r
    /\ In "keys" (minusFuncs st)
    /\ In "keys" (buildFuncs r).
Proof.
  eexists. eexists. split; [vm_compute; reflexivity|].
  split; [vm_compute; reflexivity|].
  split; apply contains_In; vm_compute; reflexivity.
Qed.

(** C3.  For the options [include=difference] and no command, whatever
    functions the library holds, the build set (the functions kept together
    with the variables included) holds the eleven names listed and does not
    hold [template]. *)
Theorem difference_scenario : forall typeofLodash : string -> string,
  exists r,
    resolve typeofLodash (parseOptions typeofLodash ["include=difference"]) = Some r
    /\ forallb (contains (buildFuncs r ++ buildVars r))
         ["difference"; "baseFlatten"; "cacheIndexOf"; "createCache"; "getIndexOf";
          "releaseObject"; "baseIndexOf"; "indexOf"; "sortedIndex";
          "largeArraySize"; "keyPrefix"] = true
    /\ contains (buildFuncs r ++ buildVars r) "template" = false.
Proof.
  intros typeofLodash. eexists. split; [vm_compute; reflexivity|].
  split; vm_compute; reflexivity.
Qed.

Lemma join_comma_not_none x rest : x +++ "," +++ rest <> "none".
Proof.
  destruct x as [|c1 x]; [discriminate|].
  destruct x as [|c2 x]; [discriminate|].
  destruct x as [|c3 x]; [discriminate|].
  destruct x as [|c4 x]; [discriminate|].
  destruct x as [|c5 x]; discriminate.
Qed.

Lemma looselyEqualsNone_iff names :
  looselyEqualsNone (Some names) = true <-> names = ["none"].
Proof.
  unfold looselyEqualsNone. rewrite String.eqb_eq.
  destruct names as [|x [|y l]].
  - split; discriminate.
  - simpl. split; [intros ->; reflexivity | intros [= ->]; reflexivity].
  - split; [|discriminate]. intros H. exfalso.
    exact (join_comma_not_none x (join "," (y :: l)) H).
Qed.

(** C4, as amended.  When the requested names are exactly the one entry
    "none", the result is cleared to the empty array before the plus names
    are added and the minus names subtracted; when "none" stands among other
    names, only the "none" entries are removed and the other names stay. *)
Theorem none_sentinel : forall names : list string,
  (names = ["none"] -> removeNone (Some names) = Some [])
  /\ (names <> ["none"] -> removeNone (Some names) = Some (pull names ["none"]))
  /\ (forall typeofLodash st funcDepMap,
        initialResult typeofLodash st = Some names -> names = ["none"] ->
        requestedNames typeofLodash st funcDepMap
        = addAndSubtract (plusFuncs st) (minusFuncs st) (isModularize st)
            funcDepMap (Some [])).
Proof.
  intros names. split; [|split].
  - intros ->. reflexivity.
  - intros Hne. unfold removeNone.
    destruct (looselyEqualsNone (Some names)) eqn:E; [|reflexivity].
    apply looselyEqualsNone_iff in E. contradiction.
  - intros typeofLodash st funcDepMap Hinit ->. unfold requestedNames.
    now rewrite Hinit.
Qed.

Lemma none_sentinel_witness :
  removeNone (Some ["none"]) = Some []
  /\ removeNone (Some ["none"; "map"]) = Some ["map"]
  /\ requestedNames libraryTypeof
       (parseOptions libraryTypeof ["include=none"; "plus=isArray"]) funcDependencyMap
     = Some ["isArray"].
Proof.
  split; [exact (proj1 (none_sentinel ["none"]) eq_refl)|].
  split.
  - exact (proj1 (proj2 (none_sentinel ["none"; "map"])) ltac:(discriminate)).
  - rewrite (proj2 (proj2 (none_sentinel ["none"])) libraryTypeof
               (parseOptions libraryTypeof ["include=none"; "plus=isArray"])
               funcDependencyMap); reflexivity.
Defined.

(** C4, as stated, fails.  For [include=none,map] the options are accepted
    and the requested names hold "none", yet the result is not cleared:
    [map] stays in it, and the build set holds [map]. *)
Lemma none_among_names_keeps_them :
  exists st r,
    build libraryTypeof slashEscaped libraryEvaluates ["include=none,map"]
    = Continues st
    /\ In "none" (includeFuncs st)
    /\ removeNone (initialResult libraryTypeof st) = Some ["map"]
    /\ resolve libraryTypeof st = Some r
    /\ In "map" (buildFuncs r).
Proof.
  eexists. eexists. split; [vm_compute; reflexivity|].
  split; [apply contains_In; vm_compute; reflexivity|].
  split; [vm_compute; reflexivity|].
  split; [vm_compute; reflexivity|].
  apply contains_In; vm_compute; reflexivity.
Qed.

(** ** Locators that find nothing *)

Lemma startsWith_nil l : startsWith [] l = true.
Proof. now destruct l. Qed.

Lemma removeText_empty s : removeText s "" = s.
Proof.
  unfold removeText, replaceTextWith.
  change (list_ascii_of_string "") with (@nil ascii).
  assert (H : splitAtFirst [] [] (list_ascii_of_string s)
              = Some ([], list_ascii_of_string s))
    by (destruct (list_ascii_of_string s); reflexivity).
  rewrite H. simpl. apply string_of_list_ascii_of_string.
Qed.

Lemma fold_left_none {A B} (f : option A -> B -> option A) l :
  (forall b, In b l -> f None b = None) -> fold_left f l None = None.
Proof.
  induction l as [|b l IH]; simpl; intros H; [reflexivity|].
  rewrite (H b (or_introl eq_refl)). apply IH. intros b' Hb'. apply H. now right.
Qed.

Lemma hasNoMatch_noMatch re source : hasNoMatch re source = true <-> noMatch re source.
Proof.
  unfold hasNoMatch, noMatch.
  destruct (pattern re), (exec re source); split;
    try discriminate; try (intros [H1 H2]; congruence).
  intros _. split; [discriminate | reflexivity].
Qed.

Lemma matchFunction_no_match source funcName leadingComments :
  (forall p, In p (functionPatterns funcName) ->
             noMatch (functionRegExp p) source) ->
  matchFunction source funcName leadingComments = "".
Proof.
  intros H. unfold matchFunction. rewrite fold_left_none; [reflexivity|].
  intros p Hp. now rewrite (proj2 (H p Hp)).
Qed.

Lemma matchVar_no_match source varName isShallow :
  (forall p, In p (varPatterns varName isShallow) ->
             noMatch (varRegExp p) source) ->
  matchVar source varName isShallow = "".
Proof.
  intros H. unfold matchVar. rewrite fold_left_none; [reflexivity|].
  intros p Hp. cbn [truthy]. now rewrite (proj2 (H p Hp)).
Qed.

(** C10, as amended.  When none of the declaration patterns of a locator
    matches the source, [matchFunction], [matchProp] and [matchVar] return
    the empty text; [removeProp] then returns the source unchanged, and so
    does [removeFunction] for every name but [runInContext], the removal
    of which is deferred to [removeRunInContext]. *)
Theorem locator_failure_mode :
  forall (source name : string) (leadingComments isShallow : bool),
  ((forall p, In p (functionPatterns name) -> noMatch (functionRegExp p) source) ->
     matchFunction source name leadingComments = ""
     /\ (name <> "runInContext" -> removeFunction source name = source))
  /\ (noMatch (propRegExp name leadingComments) source ->
        matchProp source name leadingComments = "")
  /\ (noMatch (propRegExp name true) source -> removeProp source name = source)
  /\ ((forall p, In p (varPatterns name isShallow) -> noMatch (varRegExp p) source) ->
        matchVar source name isShallow = "").
Proof.
  intros source name leadingComments isShallow. repeat split.
  - now apply matchFunction_no_match.
  - intros Hne. unfold removeFunction, removeFunctionWith.
    apply String.eqb_neq in Hne. rewrite Hne.
    now rewrite matchFunction_no_match.
  - intros [_ H]. unfold matchProp. now rewrite H.
  - intros [_ H]. unfold removeProp, matchProp. rewrite H. apply removeText_empty.
  - apply matchVar_no_match.
Qed.

Lemma locator_failure_mode_witness :
  matchFunction sourceUsingContext "keys" true = ""
  /\ removeFunction sourceUsingContext "keys" = sourceUsingContext
  /\ matchProp sourceUsingContext "support" true = ""
  /\ removeProp sourceUsingContext "support" = sourceUsingContext
  /\ matchVar sourceUsingContext "keys" false = "".
Proof.
  destruct (locator_failure_mode sourceUsingContext "keys" true false)
    as (Hf & _ & _ & Hv).
  destruct (locator_failure_mode sourceUsingContext "support" true false)
    as (_ & Hp & Hr & _).
  assert (F : forall p, In p (functionPatterns "keys") ->
                        noMatch (functionRegExp p) sourceUsingContext).
  { intros p Hp'. apply hasNoMatch_noMatch. unfold functionPatterns in Hp'.
    repeat (destruct Hp' as [<-|Hp']; [vm_compute; reflexivity|]). destruct Hp'. }
  assert (V : forall p, In p (varPatterns "keys" false) ->
                        noMatch (varRegExp p) sourceUsingContext).
  { intros p Hp'. apply hasNoMatch_noMatch. unfold varPatterns in Hp'.
    replace (isComplexVar "keys") with false in Hp' by reflexivity.
    cbn [negb andb String.eqb] in Hp'. simpl in Hp'.
    repeat (destruct Hp' as [<-|Hp']; [vm_compute; reflexivity|]). destruct Hp'. }
  assert (P : noMatch (propRegExp "support" true) sourceUsingContext)
    by (apply hasNoMatch_noMatch; vm_compute; reflexivity).
  destruct (Hf F) as [Hf1 Hf2].
  split; [exact Hf1|]. split; [apply Hf2; discriminate|].
  split; [exact (Hp P)|]. split; [exact (Hr P) | exact (Hv V)].
Defined.

(** C10, as stated, fails for [removeFunction] at the name [runInContext]:
    none of the four patterns of [matchFunction] matches the source and the
    locator returns the empty text, yet the removal deferred to
    [removeRunInContext] rewrites [context] into [window]. *)
Lemma removeFunction_runInContext_edits :
  forallb (fun p => hasNoMatch (functionRegExp p) sourceUsingContext)
    (functionPatterns "runInContext") = true
  /\ matchFunction sourceUsingContext "runInContext" true = ""
  /\ removeFunction sourceUsingContext "runInContext"
     = LF +++ "  root = window;" +++ LF
  /\ removeFunction sourceUsingContext "runInContext" <> sourceUsingContext.
Proof.
  split; [vm_compute; reflexivity|]. split; [vm_compute; reflexivity|].
  split; [vm_compute; reflexivity|]. vm_compute. discriminate.
Qed.

(** ** Invalid options *)

Lemma length_zero_nil {A} (l : list A) : (List.length l =? 0) = false -> l <> [].
Proof. destruct l; [discriminate | discriminate]. Qed.

Lemma flat_map_nonempty {A B} (f : A -> list B) l a :
  In a l -> f a <> [] -> flat_map f l <> [].
Proof.
  intros Ha Hf. induction l as [|b l IH]; simpl; [contradiction|].
  destruct Ha as [->|Ha].
  - destruct (f a); [congruence | discriminate].
  - intros H. apply app_eq_nil in H. destruct H as [_ H]. now apply IH.
Qed.

Lemma warnings_nonempty typeofLodash sepEscaped options :
  findsInvalidDirective typeofLodash sepEscaped options = true ->
  warnings typeofLodash sepEscaped (parseOptions typeofLodash options) options <> [].
Proof.
  unfold findsInvalidDirective, warnings. cbv zeta.
  set (st := parseOptions typeofLodash options).
  intros H. apply orb_true_iff in H. destruct H as [H|H].
  - apply orb_true_iff in H. destruct H as [H|H].
    + rewrite H. discriminate.
    + rewrite H. intros E. apply app_eq_nil in E. destruct E as [_ E].
      discriminate.
  - apply existsb_exists in H. destruct H as (command & Hin & Hc).
    intros E. apply app_eq_nil in E. destruct E as [_ E].
    apply app_eq_nil in E. destruct E as [_ E]. revert E.
    apply flat_map_nonempty with (a := command); [assumption|].
    rewrite Hc. discriminate.
Qed.

(** C9, as amended.  Whenever the validation finds an argument it does not
    accept, a forbidden combination of commands, or an entry its command
    does not accept (in the category, exports, include, minus or plus names
    the build works with), [build] does not go on to resolve, prune and
    emit anything.  Unless the options ask for the help message or the
    version, which are handled first, and unless the evaluation of a
    [settings=] option throws, which happens before the validation is
    reached, what it does is log the warnings it has accumulated, of which
    there is at least one, and return; when such an evaluation throws,
    nothing is logged. *)
Theorem invalid_directive_aborts :
  forall (typeofLodash : string -> string) (sepEscaped : string)
         (evaluates : string -> bool) (options : list string),
  findsInvalidDirective typeofLodash sepEscaped options = true ->
  (forall st, build typeofLodash sepEscaped evaluates options <> Continues st)
  /\ (requestsHelpOrVersion options = false ->
      (failedSettings evaluates options = None ->
       build typeofLodash sepEscaped evaluates options
       = LoggedWarnings (warningMessage typeofLodash sepEscaped options)
       /\ warnings typeofLodash sepEscaped (parseOptions typeofLodash options) options
          <> [])
      /\ (forall body,
            failedSettings evaluates options = Some body ->
            build typeofLodash sepEscaped evaluates options = Threw body)).
Proof.
  intros typeofLodash sepEscaped evaluates options H.
  pose proof (warnings_nonempty _ _ _ H) as Hw.
  assert (Hlen : negb (List.length (warnings typeofLodash sepEscaped
                                      (parseOptions typeofLodash options) options) =? 0)
                 = true).
  { destruct (warnings _ _ _ _); [congruence | reflexivity]. }
  split.
  - intros st. unfold build.
    destruct (existsb _ options); [discriminate|].
    destruct (existsb _ options); [discriminate|].
    destruct (failedSettings evaluates options); [discriminate|].
    rewrite Hlen. discriminate.
  - intros Hno. unfold requestsHelpOrVersion in Hno.
    apply orb_false_iff in Hno. destruct Hno as [Hh Hv].
    unfold build. rewrite Hh, Hv. split.
    + intros ->. rewrite Hlen. split; [reflexivity | exact Hw].
    + intros body ->. reflexivity.
Qed.

Lemma invalid_directive_aborts_witness :
  findsInvalidDirective libraryTypeof slashEscaped ["include=bogus"; "legacy"; "modern"]
  = true
  /\ requestsHelpOrVersion ["include=bogus"; "legacy"; "modern"] = false
  /\ failedSettings libraryEvaluates ["include=bogus"; "legacy"; "modern"] = None
  /\ build libraryTypeof slashEscaped libraryEvaluates
       ["include=bogus"; "legacy"; "modern"]
     = LoggedWarnings
         (LF +++ "The `legacy` and `modern` commands may not be combined."
             +++ LF +++ "Invalid `include` entry passed: bogus"
             +++ LF +++ "For more information type: lodash --help").
Proof.
  assert (H1 : findsInvalidDirective libraryTypeof slashEscaped
                 ["include=bogus"; "legacy"; "modern"] = true)
    by (vm_compute; reflexivity).
  assert (H2 : requestsHelpOrVersion ["include=bogus"; "legacy"; "modern"] = false)
    by (vm_compute; reflexivity).
  assert (H3 : failedSettings libraryEvaluates ["include=bogus"; "legacy"; "modern"]
               = None)
    by (vm_compute; reflexivity).
  split; [exact H1|]. split; [exact H2|]. split; [exact H3|].
  rewrite (proj1 (proj1 (proj2 (invalid_directive_aborts libraryTypeof slashEscaped
                                  libraryEvaluates
                                  ["include=bogus"; "legacy"; "modern"] H1) H2) H3)).
  vm_compute. reflexivity.
Defined.

(** C9, as stated, fails in two ways.  When the help message is asked for,
    the argument [bogus] is not accepted, yet [build] displays the help
    message and returns without a warning.  When a [settings=] option does
    not evaluate, as [settings=(] whose text [return {(}] is a syntax
    error, the argument [bogus] is not accepted, yet the evaluation throws
    before the validation is reached and no warning is logged. *)
Lemma warnings_are_not_always_logged :
  (invalidArguments slashEscaped ["-h"; "bogus"] = ["bogus"]
   /\ findsInvalidDirective libraryTypeof slashEscaped ["-h"; "bogus"] = true
   /\ build libraryTypeof slashEscaped libraryEvaluates ["-h"; "bogus"]
      = DisplayedHelp)
  /\ (invalidArguments slashEscaped ["bogus"; "settings=("] = ["bogus"]
      /\ findsInvalidDirective libraryTypeof slashEscaped ["bogus"; "settings=("]
         = true
      /\ requestsHelpOrVersion ["bogus"; "settings=("] = false
      /\ settingsBody "settings=(" = Some "return {(}"
      /\ libraryEvaluates "return {(}" = false
      /\ build libraryTypeof slashEscaped libraryEvaluates ["bogus"; "settings=("]
         = Threw "return {(}").
Proof. repeat split; vm_compute; reflexivity. Qed.

(** A later [category=] option replaces an earlier one, as a later
    [exports=] option does: the validation only sees the last. *)
Lemma last_category_option_counts :
  exists st,
    build libraryTypeof slashEscaped libraryEvaluates
      ["category=bogus"; "category=arrays"]
    = Continues st
    /\ categoryOptions st = ["Arrays"].
Proof. eexists. split; vm_compute; reflexivity. Qed.

(** ** The loop that removes unused variables *)

Section UnusedVarsLoop.
Variable includeVars : list string.
Variable isShallow : bool.

Lemma sortBy_length l (f : string -> bool) :
  List.length (sortBy l f) = List.length l.
Proof.
  unfold sortBy. rewrite length_app.
  pose proof (List.filter_length f l) as H.
  rewrite Nat.add_comm. exact H.
Qed.

Lemma filter_all {A} (f : A -> bool) l :
  (forall x, In x l -> f x = true) -> filter f l = l.
Proof.
  induction l as [|a l IH]; simpl; intros H; [reflexivity|].
  rewrite (H a (or_introl eq_refl)). f_equal. apply IH.
  intros x Hx. apply H. now right.
Qed.

Lemma filter_none {A} (f : A -> bool) l :
  (forall x, In x l -> f x = true) -> filter (fun x => negb (f x)) l = [].
Proof.
  induction l as [|a l IH]; simpl; intros H; [reflexivity|].
  rewrite (H a (or_introl eq_refl)). simpl. apply IH.
  intros x Hx. apply H. now right.
Qed.

Lemma sortBy_all_kept l (f : string -> bool) :
  (forall x, In x l -> f x = true) -> sortBy l f = l.
Proof.
  intros H. unfold sortBy. now rewrite filter_none, filter_all.
Qed.

(** When every name is kept, a pass removes nothing. *)
Lemma loop_all_kept : forall fuel varNames p,
  List.length varNames <= fuel ->
  (forall v, In v varNames -> isKept includeVars isShallow p v = true) ->
  removeUnusedLoop includeVars isShallow fuel varNames p = Some p
  /\ leftInPlace includeVars isShallow fuel varNames p = varNames.
Proof.
  induction fuel as [|fuel IH]; intros varNames p Hlen Hall.
  - destruct varNames; [split; reflexivity | simpl in Hlen; lia].
  - destruct varNames as [|v varNames]; [split; reflexivity|].
    cbn [removeUnusedLoop leftInPlace]. rewrite sortBy_all_kept by assumption.
    rewrite (Hall v (or_introl eq_refl)).
    destruct (IH varNames p) as [H1 H2].
    + simpl in Hlen. lia.
    + intros x Hx. apply Hall. now right.
    + split; [exact H1 | now rewrite H2].
Qed.

Lemma sortBy_head_kept l (f : string -> bool) first rest :
  sortBy l f = first :: rest -> f first = true ->
  forall x, In x l -> f x = true.
Proof.
  unfold sortBy. intros H Hf x Hx.
  destruct (filter (fun x => negb (f x)) l) as [|y ys] eqn:E.
  - destruct (f x) eqn:Ex; [reflexivity|].
    assert (Hin : In x (filter (fun x => negb (f x)) l))
      by (apply filter_In; split; [assumption | now rewrite Ex]).
    rewrite E in Hin. contradiction.
  - simpl in H. injection H as -> _.
    assert (Hin : In first (filter (fun x => negb (f x)) l))
      by (rewrite E; now left).
    apply filter_In in Hin. destruct Hin as [_ Hin]. rewrite Hf in Hin.
    discriminate.
Qed.

Lemma filter_kept_shorter l (f : string -> bool) first rest :
  sortBy l f = first :: rest -> f first = false ->
  List.length (filter f (sortBy l f)) < List.length l.
Proof.
  intros H Hf. rewrite <- (sortBy_length l f), H. simpl. rewrite Hf.
  pose proof (List.filter_length_le f rest). lia.
Qed.

(** The loop returns, and the names it left in place are kept in the
    text it returns. *)
Lemma loop_spec : forall fuel varNames p,
  List.length varNames <= fuel ->
  exists p',
    removeUnusedLoop includeVars isShallow fuel varNames p = Some p'
    /\ forall v, In v (leftInPlace includeVars isShallow fuel varNames p) ->
                 isKept includeVars isShallow p' v = true.
Proof.
  induction fuel as [|fuel IH]; intros varNames p Hlen.
  - destruct varNames; [|simpl in Hlen; lia].
    exists p. split; [reflexivity | intros v []].
  - destruct varNames as [|v0 varNames]; [exists p; split; [reflexivity | intros v []]|].
    cbn [removeUnusedLoop leftInPlace].
    destruct (sortBy (v0 :: varNames) (isKept includeVars isShallow p))
      as [|first rest] eqn:Hsort.
    + exists p. split; [reflexivity | intros v []].
    + destruct (isKept includeVars isShallow p first) eqn:Hfirst.
      * pose proof (sortBy_head_kept _ _ _ _ Hsort Hfirst) as Hall.
        rewrite (sortBy_all_kept _ _ Hall) in Hsort. injection Hsort as <- <-.
        destruct (loop_all_kept fuel varNames p) as [H1 H2].
        -- simpl in Hlen. lia.
        -- intros x Hx. apply Hall. now right.
        -- exists p. split; [exact H1|]. rewrite H2. exact Hall.
      * rewrite <- Hsort. apply IH.
        pose proof (filter_kept_shorter _ _ _ _ Hsort Hfirst). lia.
Qed.
End UnusedVarsLoop.

(** C8.  The elimination does not reach the fixed point: [removeVar] is
    applied to the source and to its copy without strings and comments one
    after the other (lines 4367-4368), and the two need not lose the same
    place.  On this text the first run takes the declaration of the unused
    variable [a] out of the copy, but out of the source it takes the line
    that a comment quotes; [a] stays declared in the output, unused and
    not included, and a second run on that output removes it. *)
Lemma second_run_removes_variable :
  exists out1 out2,
    removeUnusedVars libraryTypeof [] [] sourceWithQuotedDeclaration = Some out1
    /\ In "a" (getVars libraryTypeof (snippet (withoutStringsAndComments out1)) true)
    /\ isKept [] true (withoutStringsAndComments out1) "a" = false
    /\ removeUnusedVars libraryTypeof [] [] out1 = Some out2
    /\ out2 <> out1.
Proof.
  eexists. eexists. split; [vm_compute; reflexivity|].
  split; [apply contains_In; vm_compute; reflexivity|].
  split; [vm_compute; reflexivity|].
  split; [vm_compute; reflexivity|].
  vm_compute. discriminate.
Qed.

(** * Further properties *)

(** ** The dependency traversals as graph searches *)

Lemma uniqAcc_NoDup l : forall seen, NoDup (uniqAcc seen l).
Proof.
  induction l as [|x l IH]; intros seen; simpl.
  - constructor.
  - destruct (contains seen x) eqn:E; [apply IH|].
    constructor; [|apply IH].
    intros H. rewrite uniqAcc_In in H. destruct H as [_ H].
    apply H. apply in_or_app. right. now left.
Qed.

Lemma uniq_NoDup l : NoDup (uniq l).
Proof. apply uniqAcc_NoDup. Qed.

Lemma dependsOn_closed depMap names :
  closedUnder depMap names ->
  forall i x, In i names -> dependsOn depMap i x -> In x names.
Proof.
  intros Hc i x Hi Hdep. induction Hdep as [i x Hin | i d x Hin Hdep IH].
  - now apply (Hc i).
  - apply IH. now apply (Hc i).
Qed.

Lemma dependsOn_right depMap i d x :
  dependsOn depMap i d -> In x (depsOf depMap d) -> dependsOn depMap i x.
Proof.
  intros Hdep Hx. induction Hdep as [i d Hin | i e d Hin Hdep IH].
  - eapply dependsOn_trans; [eassumption|]. now apply dependsOn_direct.
  - eapply dependsOn_trans; [eassumption|]. now apply IH.
Qed.

Lemma dependsOn_transitive depMap i d x :
  dependsOn depMap i d -> dependsOn depMap d x -> dependsOn depMap i x.
Proof.
  intros H1 H2. induction H1 as [i d Hin | i e d Hin Hdep IH].
  - eapply dependsOn_trans; eassumption.
  - eapply dependsOn_trans; [eassumption|]. now apply IH.
Qed.

(** The names reached from the names asked for: those names, and what they
    depend on. *)
Lemma getDependencies_reached funcName depMap x :
  In x (getDependencies funcName depMap false)
  <-> In x (argDeps funcName depMap)
      \/ exists d, In d (argDeps funcName depMap) /\ dependsOn depMap d x.
Proof.
  destruct (getDependencies_closed funcName depMap) as [Hincl Hclosed].
  split.
  - revert x.
    apply (getDependencies_sound depMap
             (fun x => In x (argDeps funcName depMap)
                       \/ exists d, In d (argDeps funcName depMap)
                                    /\ dependsOn depMap d x)).
    + intros i d [Hi|(e & He & Hdep)] Hd; right.
      * exists i. split; [assumption | now apply dependsOn_direct].
      * exists e. split; [assumption | eapply dependsOn_right; eassumption].
    + intros d Hd. now left.
  - intros [Hx|(d & Hd & Hdep)].
    + now apply Hincl.
    + eapply dependsOn_closed; [exact Hclosed | apply Hincl; exact Hd | exact Hdep].
Qed.

Lemma getDependencies_of_name n depMap x :
  In x (getDependencies (Name n) depMap false) <-> dependsOn depMap n x.
Proof.
  rewrite getDependencies_reached. simpl. split.
  - intros [Hx|(d & Hd & Hdep)].
    + now apply dependsOn_direct.
    + eapply dependsOn_trans; eassumption.
  - intros Hdep. destruct Hdep as [i x Hin | i d x Hin Hdep].
    + now left.
    + right. exists d. now split.
Qed.

(** *** The dependants found are dependants *)

Lemma get_of_entry {A} (m : list (string * A)) k v :
  NoDup (keys m) -> In (k, v) m -> get m k = Some v.
Proof.
  unfold keys. induction m as [|[k' v'] m IH]; simpl; intros Hnd Hin; [destruct Hin|].
  inversion Hnd as [|? ? Hnotin Hnd']; subst.
  destruct Hin as [[= -> ->]|Hin].
  - now rewrite String.eqb_refl.
  - destruct (String.eqb k k') eqn:E.
    + apply String.eqb_eq in E. subst k'. exfalso. apply Hnotin.
      apply in_map_iff. exists (k, v). now split.
    + now apply IH.
Qed.

Section DependantsSound.
Variable depMap : DepMap.
Variable roots : list string.
Hypothesis distinct_keys : NoDup (keys depMap).

Lemma reachesRoot_entry k deps f :
In (k, deps) depMap -> In f deps -> In f roots \/ (reachesRoot depMap roots) f ->
(reachesRoot depMap roots) k.
Proof.
intros Hentry Hin Hf.
assert (Hdep : dependsOn depMap k f).
{ apply dependsOn_direct. unfold depsOf.
  now rewrite (get_of_entry _ _ _ distinct_keys Hentry). }
destruct Hf as [Hf|(f0 & Hf0 & Hdep0)].
- exists f. now split.
- exists f0. split; [assumption|]. eapply dependsOn_transitive; eassumption.
Qed.

Lemma eachDependant_sound recur funcNames entries :
(forall n st sub st', recur n st = Some (sub, st') -> (reachesRoot depMap roots) n ->
                      forall x, In x sub -> (reachesRoot depMap roots) x) ->
(forall f, In f funcNames -> In f roots \/ (reachesRoot depMap roots) f) ->
incl entries depMap ->
forall result stack r st,
(forall x, In x result -> (reachesRoot depMap roots) x) ->
eachDependant recur funcNames entries result stack = Some (r, st) ->
forall x, In x r -> (reachesRoot depMap roots) x.
Proof.
intros Hrec Hf. induction entries as [|[k deps] entries IH];
  intros Hincl result stack r st Hres; simpl.
- intros [= <- <-]. assumption.
- assert (Hincl' : incl entries depMap)
    by (intros e He; apply Hincl; now right).
  destruct (negb (contains stack k)); cbn [andb]; [|now apply IH].
  destruct (existsb (fun funcName => contains deps funcName) funcNames) eqn:Ex;
    [|now apply IH].
  destruct (recur k (stack ++ [k])) as [[sub st1]|] eqn:E; [|discriminate].
  apply existsb_exists in Ex. destruct Ex as (f & Hfin & Hc).
  apply contains_In in Hc.
  assert (Hk : (reachesRoot depMap roots) k).
  { apply (reachesRoot_entry k deps f); trivial.
    - apply Hincl. now left.
    - now apply Hf. }
  apply IH; trivial.
  intros x Hx. rewrite in_app_iff in Hx. simpl in Hx.
  destruct Hx as [Hx|[<-|Hx]].
  + now apply Hres.
  + exact Hk.
  + eapply Hrec; eassumption.
Qed.

Lemma getDependantsRec_sound : forall fuel funcName stack r st,
(forall f, In f (argNames funcName) -> In f roots \/ (reachesRoot depMap roots) f) ->
getDependantsRec fuel funcName depMap stack = Some (r, st) ->
forall x, In x r -> (reachesRoot depMap roots) x.
Proof.
induction fuel as [|fuel IH]; intros funcName stack r st Hf; [discriminate|].
rewrite getDependantsRec_S.
intros H. apply uniqResult_Some in H. destruct H as (r0 & st0 & H & [= -> ->]).
intros x Hx. rewrite uniq_In in Hx. revert x Hx.
refine (eachDependant_sound _ _ _ _ Hf (incl_refl _) _ _ _ _
          (fun x (F : In x []) => match F with end) H).
intros n st1 sub st2 Hrec Hn. refine (IH (Name n) _ _ _ _ Hrec).
intros f [<-|[]]. now right.
Qed.
End DependantsSound.

Lemma getDependants_found funcName depMap k :
  NoDup (keys depMap) ->
  (In k (getDependants funcName depMap)
   <-> exists f, In f (argNames funcName) /\ dependsOn depMap k f).
Proof.
  intros Hnd. split.
  - destruct (getDependants_run funcName depMap) as (st & Hrun).
    revert k.
    refine (getDependantsRec_sound depMap (argNames funcName) Hnd _ _ _ _ _ _ Hrun).
    intros f Hf. now left.
  - intros (f & Hf & Hdep). eapply getDependants_complete; eassumption.
Qed.

(** X1.  The non-shallow [getDependencies] computes the transitive closure:
    for an array of names, the result holds exactly those names and the
    names they depend on, directly or through other names; for one name, it
    holds exactly the names it depends on.  Names that are not keys of the
    map have no dependencies and raise no error. *)
Theorem getDependencies_transitive_closure :
  forall (depMap : DepMap) (funcName : funcArg) (n x : string),
  (In x (getDependencies funcName depMap false)
   <-> In x (argDeps funcName depMap)
       \/ exists d, In d (argDeps funcName depMap) /\ dependsOn depMap d x)
  /\ (In x (getDependencies (Name n) depMap false) <-> dependsOn depMap n x).
Proof.
  intros depMap funcName n x. split.
  - apply getDependencies_reached.
  - apply getDependencies_of_name.
Qed.

(** X2.  In a map whose keys are distinct, as those of an object are,
    [getDependants] returns exactly the keys that depend, directly or
    through other keys, on one of the names asked for. *)
Theorem getDependants_transitive_dependants :
  forall (depMap : DepMap) (funcName : funcArg) (k : string),
  NoDup (keys depMap) ->
  (In k (getDependants funcName depMap)
   <-> exists f, In f (argNames funcName) /\ dependsOn depMap k f).
Proof.
  intros depMap funcName k Hnd. now apply getDependants_found.
Qed.

Lemma cyclicMap_distinct_keys : NoDup (keys cyclicMap).
Proof.
  unfold keys, cyclicMap. simpl. repeat constructor; simpl; intuition discriminate.
Qed.

Lemma getDependants_transitive_dependants_witness :
  In "a" (getDependants (Name "c") cyclicMap)
  <-> exists f, In f (argNames (Name "c")) /\ dependsOn cyclicMap "a" f.
Proof.
  apply (getDependants_transitive_dependants cyclicMap (Name "c") "a").
  exact cyclicMap_distinct_keys.
Defined.

(** X3.  The two traversals are converse to each other: in a map whose
    keys are distinct, [y] is among the dependencies of [x] exactly when
    [x] is among the dependants of [y]. *)
Theorem dependencies_dependants_converse :
  forall (depMap : DepMap) (x y : string),
  NoDup (keys depMap) ->
  (In y (getDependencies (Name x) depMap false)
   <-> In x (getDependants (Name y) depMap)).
Proof.
  intros depMap x y Hnd.
  rewrite getDependencies_of_name, (getDependants_found _ _ _ Hnd). simpl.
  split.
  - intros H. exists y. split; [now left | assumption].
  - intros (f & [<-|[]] & H). assumption.
Qed.

Lemma dependencies_dependants_converse_witness :
  In "c" (getDependencies (Name "a") cyclicMap false)
  <-> In "a" (getDependants (Name "c") cyclicMap).
Proof.
  apply (dependencies_dependants_converse cyclicMap "a" "c").
  exact cyclicMap_distinct_keys.
Defined.

(** X4.  Neither traversal returns a name twice, however often the name is
    reached. *)
Theorem traversals_return_no_duplicates :
  forall (depMap : DepMap) (funcName : funcArg),
  NoDup (getDependencies funcName depMap false)
  /\ NoDup (getDependants funcName depMap).
Proof.
  intros depMap funcName. split.
  - destruct (getDependencies_run funcName depMap) as (st & Hrun).
    unfold traversalFuel in Hrun. rewrite getDependenciesRec_S in Hrun.
    destruct (argDeps funcName depMap) as [|d deps].
    + injection Hrun as <- _. constructor.
    + apply uniqResult_Some in Hrun.
      destruct Hrun as (r0 & st0 & _ & [= -> _]). apply uniq_NoDup.
  - destruct (getDependants_run funcName depMap) as (st & Hrun).
    unfold traversalFuel in Hrun. rewrite getDependantsRec_S in Hrun.
    apply uniqResult_Some in Hrun.
    destruct Hrun as (r0 & st0 & _ & [= -> _]). apply uniq_NoDup.
Qed.

(** X5.  Taking the dependencies of a result again adds nothing: the names
    of [getDependencies(getDependencies(names))] are those of
    [getDependencies(names)]. *)
Theorem getDependencies_closure_idempotent :
  forall (depMap : DepMap) (funcName : funcArg) (x : string),
  In x (getDependencies (Names (getDependencies funcName depMap false)) depMap false)
  <-> In x (getDependencies funcName depMap false).
Proof.
  intros depMap funcName x.
  destruct (getDependencies_closed funcName depMap) as [_ Hclosed].
  rewrite (getDependencies_reached (Names _)). simpl. split.
  - intros [Hx|(d & Hd & Hdep)]; [assumption|].
    eapply dependsOn_closed; eassumption.
  - intros Hx. now left.
Qed.

(** X6.  The shallow [getDependencies] returns the entry of the name as it
    stands, the empty array for a name that is not a key; the non-shallow
    result holds those direct dependencies and, with each of them, its own
    non-shallow result, and nothing else. *)
Theorem getDependencies_shallow_and_deep :
  forall (depMap : DepMap) (n x : string),
  getDependencies (Name n) depMap true = depsOf depMap n
  /\ (hasOwn depMap n = false ->
      getDependencies (Name n) depMap true = []
      /\ getDependencies (Name n) depMap false = [])
  /\ (In x (getDependencies (Name n) depMap false)
      <-> In x (getDependencies (Name n) depMap true)
          \/ exists d, In d (getDependencies (Name n) depMap true)
                       /\ In x (getDependencies (Name d) depMap false)).
Proof.
  intros depMap n x.
  assert (Hshallow : getDependencies (Name n) depMap true = depsOf depMap n).
  { unfold getDependencies, traversalFuel. simpl.
    destruct (depsOf depMap n); reflexivity. }
  split; [exact Hshallow|]. split.
  - intros Hn. rewrite Hshallow.
    assert (Hd : depsOf depMap n = []).
    { unfold depsOf. destruct (get depMap n) as [v|] eqn:E; [|reflexivity].
      assert (hasOwn depMap n = true) by (apply hasOwn_get; now exists v).
      congruence. }
    split; [exact Hd|].
    unfold getDependencies, traversalFuel. simpl. now rewrite Hd.
  - rewrite Hshallow, getDependencies_reached. simpl.
    split; (intros [H|(d & Hd & H)]; [now left | right; exists d; split; trivial]);
      now apply getDependencies_of_name.
Qed.

Lemma getDependencies_shallow_and_deep_witness :
  getDependencies (Name "c") cyclicMap true = []
  /\ getDependencies (Name "c") cyclicMap false = [].
Proof.
  apply (getDependencies_shallow_and_deep cyclicMap "c" "a"). reflexivity.
Defined.

(** ** Aliases and categories *)

(** The two alias tables are converse to each other. *)
Lemma realToAliasMap_aliasToRealMap funcName alias :
  In alias (depsOf realToAliasMap funcName) <-> get aliasToRealMap alias = Some funcName.
Proof.
  split.
  - unfold depsOf. destruct (get realToAliasMap funcName) as [aliases|] eqn:E;
      [|intros []].
    intros Hin. apply get_In in E.
    assert (Hall : forallb
                     (fun entry =>
                        forallb (fun a => match get aliasToRealMap a with
                                          | Some real => String.eqb real (fst entry)
                                          | None => false
                                          end) (snd entry))
                     realToAliasMap = true) by (vm_compute; reflexivity).
    rewrite forallb_forall in Hall. specialize (Hall _ E). cbn [fst snd] in Hall.
    rewrite forallb_forall in Hall. specialize (Hall _ Hin).
    destruct (get aliasToRealMap alias) as [real|]; [|discriminate].
    apply String.eqb_eq in Hall. now subst.
  - intros H. apply get_In in H.
    assert (Hall : forallb
                     (fun entry => contains (depsOf realToAliasMap (snd entry)) (fst entry))
                     aliasToRealMap = true) by (vm_compute; reflexivity).
    rewrite forallb_forall in Hall. specialize (Hall _ H). cbn [fst snd] in Hall.
    now apply contains_In.
Qed.

(** X7.  [getAliases] and [getRealName] are converse to each other on every
    dependency map, given or defaulted: the aliases returned for a name
    are exactly the other names that resolve to it. *)
Theorem getAliases_getRealName_converse :
  forall (depMap : option DepMap) (funcName alias : string),
  In alias (getAliases funcName depMap)
  <-> getRealName alias depMap = funcName /\ alias <> funcName.
Proof.
  intros depMap funcName alias. unfold getAliases. cbv zeta.
  rewrite getRealName_cases. destruct depMap as [m|]; cbv beta iota;
  rewrite filter_In, negb_true_iff, realToAliasMap_aliasToRealMap.
  all: destruct (hasOwn _ alias); split.
  all: try (intros [_ H]; discriminate).
  all: try (intros [E H]; now elim H).
  all: try (intros [Hget _]; rewrite Hget; split; [reflexivity|];
            intros ->;
            assert (hasOwn aliasToRealMap funcName = true)
              by (apply hasOwn_get; eauto);
            apply aliasToRealMap_values in Hget; destruct Hget as [Hget _];
            congruence).
  all: destruct (get aliasToRealMap alias) as [real|];
    [intros [-> _]; now split | intros [E H]; now elim H].
Qed.

(** The category of a name of the category table, and of the name it is
    an alias of, is the category that lists it. *)
Lemma categoryMap_partition category n :
  In n (getNamesByCategory category) ->
  forall real, real = n \/ get aliasToRealMap n = Some real ->
  find (fun entry => contains (snd entry) real) categoryMap
  = Some (category, getNamesByCategory category).
Proof.
  unfold getNamesByCategory, depsOf.
  destruct (get categoryMap category) as [names|] eqn:E; [|intros []].
  intros Hin real Hreal. apply get_In in E.
  assert (Hall : forallb
                   (fun entry =>
                      forallb
                        (fun n =>
                           forallb
                             (fun real =>
                                match find (fun e => contains (snd e) real) categoryMap with
                                | Some (c, l) =>
                                    String.eqb c (fst entry)
                                    && if list_eq_dec string_dec l (snd entry)
                                       then true else false
                                | None => false
                                end)
                             (n :: match get aliasToRealMap n with
                                   | Some real => [real]
                                   | None => []
                                   end))
                        (snd entry))
                   categoryMap = true) by (vm_compute; reflexivity).
  rewrite forallb_forall in Hall. specialize (Hall _ E). cbn [fst snd] in Hall.
  rewrite forallb_forall in Hall. specialize (Hall _ Hin).
  rewrite forallb_forall in Hall. specialize (Hall real).
  assert (Hr : In real (n :: match get aliasToRealMap n with
                             | Some real => [real]
                             | None => []
                             end)).
  { destruct Hreal as [-> | ->]; [now left | right; now left]. }
  specialize (Hall Hr).
  destruct (find _ categoryMap) as [[c l]|]; [|discriminate].
  apply andb_true_iff in Hall. destruct Hall as [Hc Hl].
  apply String.eqb_eq in Hc. subst c.
  destruct (list_eq_dec string_dec l names); [now subst | discriminate].
Qed.

(** X8.  [getCategory] and [getNamesByCategory] agree on every dependency
    map, given or defaulted: a name listed in a category has that category,
    whether it resolves to itself or to the name it is an alias of, and a
    category returned for an identifier lists its real name; an identifier
    whose real name no category lists has the empty category. *)
Theorem getCategory_getNamesByCategory :
  forall (depMap : option DepMap) (identifier category : string),
  (In identifier (getNamesByCategory category) ->
   getCategory identifier depMap = category)
  /\ (getCategory identifier depMap <> "" ->
      In (getRealName identifier depMap)
         (getNamesByCategory (getCategory identifier depMap)))
  /\ ((forall c, ~ In (getRealName identifier depMap) (getNamesByCategory c)) ->
      getCategory identifier depMap = "").
Proof.
  intros depMap identifier category. split; [|split].
  - intros Hin. unfold getCategory.
    rewrite (categoryMap_partition category identifier Hin); [reflexivity|].
    rewrite getRealName_cases. destruct (hasOwn _ identifier); [now left|].
    destruct (get aliasToRealMap identifier); [now right | now left].
  - unfold getCategory.
    destruct (find _ categoryMap) as [[c names]|] eqn:E; [|intros H; now contradiction H].
    intros _. apply find_some in E. destruct E as [Hentry Hc]. simpl in Hc.
    apply contains_In in Hc.
    assert (Hkeys : forallb
                      (fun entry =>
                         if list_eq_dec string_dec (getNamesByCategory (fst entry))
                              (snd entry)
                         then true else false)
                      categoryMap = true) by (vm_compute; reflexivity).
    rewrite forallb_forall in Hkeys. specialize (Hkeys _ Hentry). cbn [fst snd] in Hkeys.
    destruct (list_eq_dec string_dec (getNamesByCategory c) names) as [->|];
      [assumption | discriminate].
  - intros Hnone. unfold getCategory.
    destruct (find _ categoryMap) as [[c names]|] eqn:E; [|reflexivity].
    exfalso. apply find_some in E. destruct E as [Hentry Hc]. simpl in Hc.
    apply contains_In in Hc. apply (Hnone c).
    assert (Hkeys : forallb
                      (fun entry =>
                         if list_eq_dec string_dec (getNamesByCategory (fst entry))
                              (snd entry)
                         then true else false)
                      categoryMap = true) by (vm_compute; reflexivity).
    rewrite forallb_forall in Hkeys. specialize (Hkeys _ Hentry). cbn [fst snd] in Hkeys.
    destruct (list_eq_dec string_dec (getNamesByCategory c) names) as [->|];
      [assumption | discriminate].
Qed.

Lemma getCategory_getNamesByCategory_witness :
  getCategory "first" None = "Arrays"
  /\ In (getRealName "head" None) (getNamesByCategory (getCategory "head" None))
  /\ getCategory "createCache" None = "".
Proof.
  split; [|split].
  - apply (getCategory_getNamesByCategory None "first" "Arrays").
    vm_compute. tauto.
  - apply (getCategory_getNamesByCategory None "head" "").
    vm_compute. discriminate.
  - apply (getCategory_getNamesByCategory None "createCache" "").
    intros c. unfold getNamesByCategory, depsOf.
    destruct (get categoryMap c) as [names|] eqn:E; [|intros []].
    apply get_In in E. unfold categoryMap in E. simpl in E.
    repeat (destruct E as [[= <- <-]|E];
            [vm_compute; intuition discriminate|]).
    destruct E.
Defined.

(** ** The options and the names asked for *)

Lemma difference_nil_incl a b : difference a b = [] <-> incl a b.
Proof.
  split.
  - intros H x Hx. destruct (in_dec string_dec x b) as [Hb|Hb]; [assumption|].
    assert (Hd : In x (difference a b)) by (apply difference_In; now split).
    rewrite H in Hd. destruct Hd.
  - intros H. destruct (difference a b) as [|x l] eqn:E; [reflexivity|].
    assert (Hd : In x (difference a b)) by (rewrite E; now left).
    apply difference_In in Hd. destruct Hd as [Ha Hb]. exfalso. apply Hb. now apply H.
Qed.

Lemma length_eqb_zero {A} (l : list A) : (List.length l =? 0) = true <-> l = [].
Proof. destruct l; split; intros H; try reflexivity; discriminate. Qed.

Lemma flat_map_nil {A B} (f : A -> list B) l :
  flat_map f l = [] <-> forall a, In a l -> f a = [].
Proof.
  induction l as [|b l IH]; simpl.
  - split; [intros _ a [] | reflexivity].
  - split.
    + intros H. apply app_eq_nil in H. destruct H as [Hb Hl].
      intros a [<-|Ha]; [assumption | now apply IH].
    + intros H. rewrite (H b (or_introl eq_refl)). simpl. apply IH.
      intros a Ha. apply H. now right.
Qed.

(** The three checks of the validation, each in terms of what it looks at. *)
Lemma warnings_nil typeofLodash sepEscaped st options :
  warnings typeofLodash sepEscaped st options = []
  <-> invalidArguments sepEscaped options = []
      /\ List.length (exclusiveCommands st options) <= 1
      /\ forall command entries valid,
           In (command, (entries, valid)) (commandEntries typeofLodash st) ->
           incl entries (valid ++ ["none"]).
Proof.
  unfold warnings. cbv zeta. split.
  - intros H. apply app_eq_nil in H. destruct H as [H1 H].
    apply app_eq_nil in H. destruct H as [H2 H3].
    split; [|split].
    + destruct (invalidArguments sepEscaped options); [reflexivity | discriminate].
    + destruct (1 <? List.length (exclusiveCommands st options)) eqn:E;
        [discriminate|]. apply Nat.ltb_ge in E. exact E.
    + intros command entries valid Hin.
      rewrite flat_map_nil in H3. specialize (H3 _ Hin). cbn [fst snd] in H3.
      apply difference_nil_incl. unfold invalidEntries in H3. cbn [fst snd] in H3.
      destruct (difference entries (valid ++ ["none"])); [reflexivity | discriminate].
  - intros (H1 & H2 & H3). rewrite H1. cbn [List.length Nat.eqb negb app].
    apply Nat.ltb_ge in H2. rewrite H2. cbn [app].
    apply flat_map_nil. intros [command [entries valid]] Hin. cbn [fst snd].
    unfold invalidEntries. cbn [fst snd].
    rewrite (proj2 (difference_nil_incl _ _) (H3 _ _ _ Hin)). reflexivity.
Qed.

(** X9.  [build] goes on to resolve the build set exactly when the options
    ask for neither the help message nor the version, no [settings=] option
    throws when it is evaluated, and the validation finds nothing: no
    argument that is not accepted, at most one of the commands that may not
    be combined, and only entries that their command accepts, [none] among
    them.  The state it goes on with is the one parsed from the options. *)
Theorem build_continues_iff_valid :
  forall (typeofLodash : string -> string) (sepEscaped : string)
         (evaluates : string -> bool) (options : list string) (st : BuildState),
  build typeofLodash sepEscaped evaluates options = Continues st
  <-> requestsHelpOrVersion options = false
      /\ failedSettings evaluates options = None
      /\ st = parseOptions typeofLodash options
      /\ invalidArguments sepEscaped options = []
      /\ List.length (exclusiveCommands st options) <= 1
      /\ forall command entries valid,
           In (command, (entries, valid)) (commandEntries typeofLodash st) ->
           incl entries (valid ++ ["none"]).
Proof.
  intros typeofLodash sepEscaped evaluates options st.
  unfold build, requestsHelpOrVersion. cbv zeta.
  destruct (existsb (test (RegExp "^(?:-h|--help)$" "")) options);
    [split; [discriminate | intros [H _]; discriminate]|].
  destruct (existsb (test (RegExp "^(?:-V|--version)$" "")) options);
    [split; [discriminate | intros [H _]; discriminate]|].
  cbn [orb].
  destruct (failedSettings evaluates options) as [body|];
    [split; [discriminate | intros (_ & H & _); discriminate]|].
  destruct (List.length (warnings typeofLodash sepEscaped
                           (parseOptions typeofLodash options) options) =? 0) eqn:E;
    cbn [negb].
  - apply length_eqb_zero in E. apply warnings_nil in E. split.
    + intros [= <-]. split; [reflexivity|]. split; [reflexivity|].
      split; [reflexivity | exact E].
    + intros (_ & _ & -> & _). reflexivity.
  - split; [discriminate|]. intros (_ & _ & -> & H).
    apply warnings_nil in H. rewrite H in E. discriminate.
Qed.

(** The names the closure is taken of hold every name of the initial
    result but [none], and every plus name, that is not subtracted. *)
Lemma requestedNames_holds typeofLodash st funcDepMap x :
  (exists names, initialResult typeofLodash st = Some names
                 /\ In x names /\ x <> "none")
  \/ In x (plusFuncs st) ->
  ~ In x (minusFuncs st) ->
  ~ In x (getDependants (Names (minusFuncs st)) funcDepMap) ->
  (isModularize st = true -> x <> "runInContext") ->
  In x (orEmpty (requestedNames typeofLodash st funcDepMap)).
Proof.
  intros Hx Hminus Hdep Hmod. unfold requestedNames, addAndSubtract.
  assert (H1 : In x (orEmpty
                       (if negb (List.length (plusFuncs st) =? 0)
                        then Some (union (orEmpty (removeNone (initialResult typeofLodash st)))
                                     (plusFuncs st))
                        else removeNone (initialResult typeofLodash st)))).
  { destruct Hx as [(names & Hinit & Hin & Hne)|Hplus].
    - assert (H0 : In x (orEmpty (removeNone (initialResult typeofLodash st)))).
      { rewrite Hinit. unfold removeNone.
        destruct (looselyEqualsNone (Some names)) eqn:E.
        - apply looselyEqualsNone_iff in E. subst names.
          destruct Hin as [<-|[]]. now contradiction Hne.
        - cbn [option_map orEmpty]. apply pull_In. split; [assumption|].
          intros [<-|[]]. now apply Hne. }
      destruct (negb (List.length (plusFuncs st) =? 0)); [|assumption].
      cbn [orEmpty]. apply union_In. now left.
    - destruct (plusFuncs st) as [|p ps] eqn:E; [destruct Hplus|].
      cbn [List.length Nat.eqb negb orEmpty]. apply union_In. now right. }
  set (r1 := if negb (List.length (plusFuncs st) =? 0) then _ else _) in *.
  assert (H2 : In x (orEmpty
                       (if negb (List.length (minusFuncs st) =? 0)
                        then Some (difference (orEmpty r1)
                                     (minusFuncs st
                                      ++ getDependants (Names (minusFuncs st)) funcDepMap))
                        else r1))).
  { destruct (negb (List.length (minusFuncs st) =? 0)); [|assumption].
    cbn [orEmpty]. apply difference_In. split; [assumption|].
    rewrite in_app_iff. tauto. }
  set (r2 := if negb (List.length (minusFuncs st) =? 0) then _ else _) in *.
  destruct (isModularize st); [|assumption].
  destruct r2 as [names|]; [|destruct H2].
  cbn [option_map orEmpty] in *. apply pull_In. split; [assumption|].
  intros [<-|[]]. now apply Hmod.
Qed.

Lemma resolve_fields typeofLodash st r :
  resolve typeofLodash st = Some r ->
  updateDependencies st
  = (resolvedFuncDepMap r, resolvedPropDepMap r, resolvedVarDepMap r)
  /\ exists props vars,
       expand (resolvedFuncDepMap r) (resolvedPropDepMap r)
         (expandFuel (resolvedFuncDepMap r)) (includeProps st)
         (initialBuildFuncs typeofLodash st (resolvedFuncDepMap r)) = Some props
       /\ expand (resolvedFuncDepMap r) (resolvedVarDepMap r)
            (expandFuel (resolvedFuncDepMap r)) (includeVars st) (kept props)
          = Some vars
       /\ buildFuncs r = kept vars
       /\ buildProps r = identifiers props
       /\ buildVars r = identifiers vars.
Proof.
  unfold resolve.
  destruct (updateDependencies st) as [[funcDepMap propDepMap] varDepMap].
  destruct (expand funcDepMap propDepMap _ _ _) as [props|] eqn:Ep; [|discriminate].
  destruct (expand funcDepMap varDepMap _ _ _) as [vars|] eqn:Ev; [|discriminate].
  intros [= <-]. cbn. split; [reflexivity|].
  exists props, vars. repeat split; assumption.
Qed.

(** The expansion of the properties and of the variables only adds to
    [buildFuncs]. *)
Lemma resolve_keeps_initial typeofLodash st r :
  resolve typeofLodash st = Some r ->
  incl (initialBuildFuncs typeofLodash st (resolvedFuncDepMap r)) (buildFuncs r).
Proof.
  intros H. apply resolve_fields in H.
  destruct H as (_ & props & vars & Hp & Hv & -> & _).
  destruct (expand_total (resolvedFuncDepMap r) (resolvedPropDepMap r) (includeProps st)
              (initialBuildFuncs typeofLodash st (resolvedFuncDepMap r)))
    as (props' & Hp' & Hc1 & Hk1); [apply initialBuildFuncs_closed|].
  rewrite Hp in Hp'. injection Hp' as <-.
  destruct (expand_total (resolvedFuncDepMap r) (resolvedVarDepMap r) (includeVars st)
              (kept props) Hc1) as (vars' & Hv' & _ & Hk2).
  rewrite Hv in Hv'. injection Hv' as <-.
  intros x Hx. now apply Hk2, Hk1.
Qed.

(** X10.  Unless the build is a template build, every name the build
    starts from (the included names, or the default names of the kind of
    build when nothing is included), [none] apart, and every plus name is
    in the final [buildFuncs], provided it is not a minus-ed name, not a
    dependant of one and, in a modularize build, not [runInContext]. *)
Theorem requested_names_are_built :
  forall (typeofLodash : string -> string) (st : BuildState) (r : Resolved)
         (x : string),
  resolve typeofLodash st = Some r ->
  isTemplate st = false ->
  (exists names, initialResult typeofLodash st = Some names
                 /\ In x names /\ x <> "none")
  \/ In x (plusFuncs st) ->
  ~ In x (minusFuncs st) ->
  ~ In x (getDependants (Names (minusFuncs st)) (resolvedFuncDepMap r)) ->
  (isModularize st = true -> x <> "runInContext") ->
  In x (buildFuncs r).
Proof.
  intros typeofLodash st r x Hr Htemplate Hx Hminus Hdep Hmod.
  apply (resolve_keeps_initial _ _ _ Hr).
  unfold initialBuildFuncs. rewrite Htemplate.
  apply getDependencies_closed. simpl.
  now apply requestedNames_holds.
Qed.

Lemma build_continues_iff_valid_witness :
  build libraryTypeof slashEscaped libraryEvaluates
    ["include=map"; "minus=keys"; "modern"]
  = Continues (parseOptions libraryTypeof ["include=map"; "minus=keys"; "modern"]).
Proof.
  apply (build_continues_iff_valid libraryTypeof slashEscaped libraryEvaluates
           ["include=map"; "minus=keys"; "modern"]).
  split; [vm_compute; reflexivity|]. split; [vm_compute; reflexivity|].
  split; [reflexivity|].
  split; [vm_compute; reflexivity|]. split; [vm_compute; lia|].
  intros command entries valid Hin.
  assert (Hall : forallb
                   (fun c => forallb (contains (snd (snd c) ++ ["none"])) (fst (snd c)))
                   (commandEntries libraryTypeof
                      (parseOptions libraryTypeof ["include=map"; "minus=keys"; "modern"]))
                 = true) by (vm_compute; reflexivity).
  rewrite forallb_forall in Hall. specialize (Hall _ Hin). cbn [fst snd] in Hall.
  rewrite forallb_forall in Hall. intros x Hx. apply contains_In. now apply Hall.
Defined.

Lemma requested_names_are_built_witness :
  exists r,
    resolve libraryTypeof (parseOptions libraryTypeof ["include=difference"; "minus=template"])
    = Some r
    /\ In "difference" (buildFuncs r).
Proof.
  set (st := parseOptions libraryTypeof ["include=difference"; "minus=template"]).
  assert (E : option_map
                (fun r => contains (getDependants (Names (minusFuncs st))
                                      (resolvedFuncDepMap r)) "difference")
                (resolve libraryTypeof st) = Some false) by (vm_compute; reflexivity).
  destruct (resolve libraryTypeof st) as [r|] eqn:Hr; [|discriminate].
  cbn [option_map] in E. injection E as E. apply contains_false in E.
  exists r. split; [reflexivity|].
  apply (requested_names_are_built libraryTypeof st r "difference" Hr).
  - vm_compute. reflexivity.
  - left. exists ["difference"]. split; [vm_compute; reflexivity|].
    split; [now left | discriminate].
  - vm_compute. intuition discriminate.
  - exact E.
  - vm_compute. discriminate.
Defined.

(** X11.  Whatever the options, the state parsed from them keeps the
    kinds of names apart: the properties and variables included are
    property and variable dependencies; the functions included hold no
    category name and none of those properties and variables; the minus
    and plus names hold no category name.  Its flags are consistent: a
    Backbone build is an Underscore build, a CSP or mobile build is a
    modern build, and [legacy] only counts when the build is neither
    modern nor Underscore. *)
Theorem parseOptions_keeps_names_apart :
  forall (typeofLodash : string -> string) (options : list string) (n : string),
  let st := parseOptions typeofLodash options in
  (In n (includeProps st) -> In n propDependencies)
  /\ (In n (includeVars st) -> In n varDependencies)
  /\ (In n (includeFuncs st) ->
      ~ In n allCategories /\ ~ In n (includeProps st) /\ ~ In n (includeVars st))
  /\ (In n (minusFuncs st) \/ In n (plusFuncs st) -> ~ In n allCategories)
  /\ (isBackbone st = true -> isUnderscore st = true)
  /\ (isCSP st = true \/ isMobile st = true -> isModern st = true)
  /\ (isLegacy st = true ->
      isModern st = false /\ isUnderscore st = false /\ In "legacy" options).
Proof.
  intros typeofLodash options n st. subst st. unfold parseOptions. cbv zeta.
  cbn [includeProps includeVars includeFuncs minusFuncs plusFuncs
       isBackbone isUnderscore isCSP isMobile isModern isLegacy].
  repeat split.
  - intros H. now apply intersection_In in H.
  - intros H. now apply intersection_In in H.
  - apply difference_In in H. destruct H as [_ H]. rewrite !in_app_iff in H. tauto.
  - apply difference_In in H. destruct H as [_ H]. rewrite !in_app_iff in H. tauto.
  - apply difference_In in H. destruct H as [_ H]. rewrite !in_app_iff in H. tauto.
  - intros [H|H]; apply difference_In in H; tauto.
  - intros H. now rewrite H.
  - intros [H|H]; rewrite H; rewrite ?orb_true_r; reflexivity.
  - apply andb_true_iff in H. destruct H as [H _].
    apply negb_true_iff, orb_false_iff in H. tauto.
  - apply andb_true_iff in H. destruct H as [H _].
    apply negb_true_iff, orb_false_iff in H. tauto.
  - apply andb_true_iff in H. destruct H as [_ H]. now apply contains_In.
Qed.

Lemma parseOptions_keeps_names_apart_witness :
  let st := parseOptions libraryTypeof ["include=arrays,support,map"; "legacy"] in
  In "support" propDependencies
  /\ ~ In "support" (includeFuncs st)
  /\ ~ In "Arrays" (includeFuncs st)
  /\ isModern st = false.
Proof.
  intros st.
  destruct (parseOptions_keeps_names_apart libraryTypeof
              ["include=arrays,support,map"; "legacy"] "support")
    as (Hp & _ & Hf & _).
  destruct (parseOptions_keeps_names_apart libraryTypeof
              ["include=arrays,support,map"; "legacy"] "Arrays")
    as (_ & _ & Hc & _ & _ & _ & Hl).
  fold st in Hp, Hf, Hc, Hl.
  assert (Hs : In "support" (includeProps st)) by (vm_compute; auto).
  split; [exact (Hp Hs)|].
  split; [intros H; destruct (Hf H) as (_ & Hx & _); exact (Hx Hs)|].
  split; [intros H; destruct (Hc H) as (Hx & _); apply Hx; vm_compute; auto|].
  apply Hl. vm_compute. reflexivity.
Defined.

(** ** The expansion of properties and variables as a closure *)

Lemma grows_refl e : grows e e.
Proof. repeat split; apply incl_refl. Qed.

Lemma grows_trans e1 e2 e3 : grows e1 e2 -> grows e2 e3 -> grows e1 e3.
Proof.
  intros (A1 & B1 & C1) (A2 & B2 & C2).
  repeat split; eapply incl_tran; eassumption.
Qed.

Section ExpandClosure.
Variable funcDepMap : DepMap.
Variable depMap : DepMap.
Variable result : list string.
Variable buildFuncs : list string.

(** The state [expandName] hands to the nested call. *)
Lemma pushed_invariant e n :
expansionInvariant funcDepMap depMap result buildFuncs e ->
In n (kept e) ->
let e1 := {| identifiers := identifiers e ++ depsOf depMap n;
             expanded := expanded e ++ [n];
             kept := union (kept e) (gathered funcDepMap (depsOf depMap n)) |} in
expansionInvariant funcDepMap depMap result buildFuncs e1
/\ grows e e1
/\ incl (gathered funcDepMap (depsOf depMap n)) (kept e1)
/\ In n (expanded e1).
Proof.
intros (I1 & I2 & I3 & I4 & I5) Hn e1. subst e1.
unfold expansionInvariant, grows. cbn [identifiers expanded kept].
repeat split.
- intros f Hf. apply union_In. apply in_app_iff in Hf.
  destruct Hf as [Hf|[<-|[]]]; left; [now apply I1 | assumption].
- intros f Hf id Hid. apply in_app_iff. apply in_app_iff in Hf.
  destruct Hf as [Hf|[<-|[]]]; [left; now apply (I2 f) | now right].
- intros f Hf g Hg. apply union_In. apply in_app_iff in Hf.
  destruct Hf as [Hf|[<-|[]]]; [left; now apply (I3 f) | now right].
- intros id Hid. apply in_app_iff in Hid. destruct Hid as [Hid|Hid].
  + destruct (I4 id Hid) as [H|(f & Hf & H)]; [now left|].
    right. exists f. split; [apply in_app_iff; now left | assumption].
  + right. exists n. split; [apply in_app_iff; right; now left | assumption].
- intros g Hg. apply union_In in Hg. destruct Hg as [Hg|Hg].
  + destruct (I5 g Hg) as [H|(f & Hf & H)]; [now left|].
    right. exists f. split; [apply in_app_iff; now left | assumption].
  + right. exists n. split; [apply in_app_iff; right; now left | assumption].
- apply incl_appl, incl_refl.
- apply incl_appl, incl_refl.
- intros g Hg. apply union_In. now left.
- intros g Hg. apply union_In. now right.
- apply in_app_iff. right. now left.
Qed.

Lemma reduceNames_expands again funcNames :
(forall names e e', again names e = Some e' ->
   incl names (kept e) ->
   expansionInvariant funcDepMap depMap result buildFuncs e ->
   expandsNames funcDepMap depMap result buildFuncs names e e') ->
forall e e',
reduceNames funcDepMap depMap again funcNames e = Some e' ->
incl funcNames (kept e) ->
expansionInvariant funcDepMap depMap result buildFuncs e ->
expandsNames funcDepMap depMap result buildFuncs funcNames e e'.
Proof.
intros Hagain. induction funcNames as [|n rest IH]; intros e e' Hrun Hincl Hinv.
- simpl in Hrun. injection Hrun as <-.
  split; [exact Hinv|]. split; [apply grows_refl|]. split.
  + intros x [].
  + intros pending Hq g Hg. destruct (Hq g Hg) as [H|[H|[H|[]]]]; auto.
- assert (Hn : In n (kept e)) by (apply Hincl; now left).
  assert (Hrest : incl rest (kept e)) by (intros x Hx; apply Hincl; now right).
  simpl in Hrun. destruct (contains (expanded e) n) eqn:E; cbn [negb] in Hrun.
  + apply contains_In in E.
    destruct (IH e e' Hrun Hrest Hinv) as (Hinv' & Hg & Hexp & Hq).
    split; [exact Hinv'|]. split; [exact Hg|]. split.
    * intros x [<-|Hx]; [now apply Hg | now apply Hexp].
    * intros pending Hpre. apply Hq. intros g Hgk.
      destruct (Hpre g Hgk) as [H|[H|[H|[<-|H]]]]; auto.
  + unfold expandName in Hrun. fold (gathered funcDepMap (depsOf depMap n)) in Hrun.
    destruct (pushed_invariant e n Hinv Hn) as (Hinv1 & Hg1 & Hd1 & Hn1).
    cbv zeta in Hinv1, Hg1, Hd1, Hn1.
    set (e1 := {| identifiers := identifiers e ++ depsOf depMap n;
                  expanded := expanded e ++ [n];
                  kept := union (kept e) (gathered funcDepMap (depsOf depMap n)) |})
      in *.
    destruct (again (gathered funcDepMap (depsOf depMap n)) e1) as [e2|] eqn:E2;
      [|discriminate].
    destruct (Hagain _ _ _ E2 Hd1 Hinv1) as (Hinv2 & Hg2 & Hexp2 & Hq2).
    assert (Hrest2 : incl rest (kept e2)).
    { intros x Hx. apply Hg2, Hg1. now apply Hrest. }
    destruct (IH e2 e' Hrun Hrest2 Hinv2) as (Hinv' & Hg' & Hexp' & Hq').
    assert (Hgrow : grows e e')
      by (eapply grows_trans; [exact Hg1 | eapply grows_trans; eassumption]).
    split; [exact Hinv'|]. split; [exact Hgrow|]. split.
    * intros x [<-|Hx]; [now apply Hg', Hg2 | now apply Hexp'].
    * intros pending Hpre. apply Hq'. apply Hq2. intros g Hgk.
      subst e1. cbn [kept expanded] in *. apply union_In in Hgk.
      destruct Hgk as [Hgk|Hgk]; [|auto].
      destruct (Hpre g Hgk) as [H|[H|[H|[<-|H]]]]; auto;
        right; left; apply in_app_iff; first [now left | right; now left].
Qed.

Lemma uniqIdentifiers_expands names e e1 e' :
uniqIdentifiers (Some e1) = Some e' ->
expandsNames funcDepMap depMap result buildFuncs names e e1 ->
expandsNames funcDepMap depMap result buildFuncs names e e'.
Proof.
intros [= <-] ((I1 & I2 & I3 & I4 & I5) & (G1 & G2 & G3) & Hexp & Hq).
split; [|split; [|split]].
- unfold expansionInvariant. cbn [identifiers expanded kept].
  split; [exact I1|]. split; [|split; [exact I3|split; [|exact I5]]].
  + intros f Hf id Hid. apply uniq_In. now apply (I2 f).
  + intros id Hid. rewrite uniq_In in Hid. now apply I4.
- unfold grows. cbn [identifiers expanded kept].
  split; [|split; assumption]. intros id Hid. apply uniq_In. now apply G1.
- exact Hexp.
- exact Hq.
Qed.

Lemma expandNames_expands : forall fuel names e e',
expandNames funcDepMap depMap fuel names e = Some e' ->
incl names (kept e) ->
expansionInvariant funcDepMap depMap result buildFuncs e ->
expandsNames funcDepMap depMap result buildFuncs names e e'.
Proof.
induction fuel as [|fuel IH]; intros names e e' Hrun Hincl Hinv; [discriminate|].
simpl in Hrun.
destruct (reduceNames funcDepMap depMap (expandNames funcDepMap depMap fuel) names e)
  as [e1|] eqn:E; [|discriminate].
apply (uniqIdentifiers_expands names e e1 e' Hrun).
now apply (reduceNames_expands (expandNames funcDepMap depMap fuel) names IH).
Qed.

Hypothesis distinct_keys : NoDup (keys depMap).

Lemma expandEntries_expands fuel entries : forall e e',
expandEntries funcDepMap depMap fuel entries e = Some e' ->
incl entries depMap ->
expansionInvariant funcDepMap depMap result buildFuncs e ->
keptAccounted buildFuncs (fun _ => False) e ->
expansionInvariant funcDepMap depMap result buildFuncs e'
/\ grows e e'
/\ keptAccounted buildFuncs (fun _ => False) e'
/\ (forall g ids, In (g, ids) entries -> In g (kept e) -> In g (expanded e')).
Proof.
induction entries as [|[n ids] entries IH]; intros e e' Hrun Hincl Hinv Hacc.
- simpl in Hrun. injection Hrun as <-.
  split; [exact Hinv|]. split; [apply grows_refl|]. split; [exact Hacc|].
  intros g ids [].
- assert (Hincl' : incl entries depMap) by (intros x Hx; apply Hincl; now right).
  assert (Hids : depsOf depMap n = ids).
  { unfold depsOf. rewrite (get_of_entry depMap n ids distinct_keys); [reflexivity|].
    apply Hincl. now left. }
  simpl in Hrun.
  destruct (contains (expanded e) n) eqn:E; cbn [negb andb] in Hrun.
  + apply contains_In in E.
    destruct (IH e e' Hrun Hincl' Hinv Hacc) as (Hinv' & Hg & Hacc' & Hall).
    split; [exact Hinv'|]. split; [exact Hg|]. split; [exact Hacc'|].
    intros g ids' [[= <- <-]|Hin] Hk; [now apply Hg | now apply (Hall g ids')].
  + destruct (contains (kept e) n) eqn:K.
    * apply contains_In in K.
      unfold expandName in Hrun. rewrite <- Hids in Hrun.
      fold (gathered funcDepMap (depsOf depMap n)) in Hrun.
      destruct (pushed_invariant e n Hinv K) as (Hinv1 & Hg1 & Hd1 & Hn1).
      cbv zeta in Hinv1, Hg1, Hd1, Hn1.
      set (e1 := {| identifiers := identifiers e ++ depsOf depMap n;
                    expanded := expanded e ++ [n];
                    kept := union (kept e) (gathered funcDepMap (depsOf depMap n)) |})
        in *.
      destruct (expandNames funcDepMap depMap fuel
                  (gathered funcDepMap (depsOf depMap n)) e1) as [e2|] eqn:E2;
        [|discriminate].
      destruct (expandNames_expands _ _ _ _ E2 Hd1 Hinv1) as (Hinv2 & Hg2 & Hexp2 & Hq2).
      assert (Hacc2 : keptAccounted buildFuncs (fun _ => False) e2).
      { apply Hq2. intros g Hgk. subst e1. cbn [kept expanded] in *.
        apply union_In in Hgk. destruct Hgk as [Hgk|Hgk]; [|auto].
        destruct (Hacc g Hgk) as [H|[H|[]]]; auto.
        right. left. apply in_app_iff. now left. }
      destruct (IH e2 e' Hrun Hincl' Hinv2 Hacc2) as (Hinv' & Hg' & Hacc' & Hall).
      assert (Hgrow : grows e e')
        by (eapply grows_trans; [exact Hg1 | eapply grows_trans; eassumption]).
      split; [exact Hinv'|]. split; [exact Hgrow|]. split; [exact Hacc'|].
      intros g ids' [[= <- <-]|Hin] Hk.
      -- now apply Hg', Hg2.
      -- apply (Hall g ids' Hin). now apply Hg2, Hg1.
    * apply contains_false in K.
      destruct (IH e e' Hrun Hincl' Hinv Hacc) as (Hinv' & Hg & Hacc' & Hall).
      split; [exact Hinv'|]. split; [exact Hg|]. split; [exact Hacc'|].
      intros g ids' [[= <- <-]|Hin] Hk; [contradiction | now apply (Hall g ids')].
Qed.

Lemma expand_closure fuel e :
expand funcDepMap depMap fuel result buildFuncs = Some e ->
(forall id, In id (identifiers e)
            <-> In id result \/ exists f, In f (kept e) /\ In id (depsOf depMap f))
/\ (forall g, In g (kept e)
              <-> In g buildFuncs
                  \/ exists f id, In f (kept e) /\ In id (depsOf depMap f)
                                  /\ dependsOn funcDepMap id g)
/\ NoDup (identifiers e).
Proof.
unfold expand.
destruct (expandEntries funcDepMap depMap fuel depMap _) as [e1|] eqn:E;
  [|discriminate].
intros [= <-]. cbn [identifiers kept].
apply expandEntries_expands in E.
- destruct E as ((I1 & I2 & I3 & I4 & I5) & (G1 & G2 & G3) & Hacc & Hall).
  cbn [identifiers expanded kept] in *.
  assert (Hexp : forall f id, In f (kept e1) -> In id (depsOf depMap f) ->
                              In f (expanded e1)).
  { intros f id Hf Hid. destruct (Hacc f Hf) as [H|[H|[]]]; [|assumption].
    apply depsOf_entry in Hid. destruct Hid as (ids & Hentry & _).
    now apply (Hall f ids). }
  split; [|split].
  + intros id. rewrite uniq_In. split.
    * intros Hid. destruct (I4 id Hid) as [H|(f & Hf & H)]; [now left|].
      right. exists f. split; [now apply I1 | assumption].
    * intros [H|(f & Hf & H)]; [now apply G1|].
      apply (I2 f); [|assumption]. now apply (Hexp f id).
  + intros g. split.
    * intros Hg. destruct (I5 g Hg) as [H|(f & Hf & H)]; [now left|].
      right. unfold gathered in H. rewrite uniq_In, in_flat_map in H.
      destruct H as (id & Hid & H). exists f, id.
      split; [now apply I1|]. split; [assumption|].
      now apply getDependencies_of_name.
    * intros [H|(f & id & Hf & Hid & H)]; [now apply G3|].
      apply (I3 f); [now apply (Hexp f id)|].
      unfold gathered. rewrite uniq_In, in_flat_map. exists id.
      split; [assumption|]. now apply getDependencies_of_name.
  + apply uniq_NoDup.
- apply incl_refl.
- unfold expansionInvariant. cbn [identifiers expanded kept]. repeat split.
  + intros x [].
  + intros f [].
  + intros f [].
  + intros id Hid. now left.
  + intros g Hg. now left.
- intros g Hg. now left.
Qed.
End ExpandClosure.

(** ** The rewrites of the dependency maps keep their keys *)

Lemma hasOwn_keys {A} (m : list (string * A)) k :
  hasOwn m k = true <-> In k (keys m).
Proof.
  unfold hasOwn, keys. induction m as [|[k' v] m IH]; simpl.
  - split; [discriminate | intros []].
  - destruct (String.eqb k k') eqn:E.
    + apply String.eqb_eq in E. subst. split; auto.
    + rewrite IH. split; [auto|]. intros [H|H]; [|assumption].
      subst. now rewrite String.eqb_refl in E.
Qed.

Lemma keys_set {A} (m : list (string * A)) k v :
  keys (set m k v) = if hasOwn m k then keys m else keys m ++ [k].
Proof.
  unfold hasOwn, keys. induction m as [|[k' v'] m IH]; simpl; [reflexivity|].
  destruct (String.eqb k k') eqn:E.
  - apply String.eqb_eq in E. now subst.
  - simpl. rewrite IH. now destruct (get m k).
Qed.

Lemma get_set_same {A} (m : list (string * A)) k v : get (set m k v) k = Some v.
Proof.
  induction m as [|[k' v'] m IH]; simpl.
  - now rewrite String.eqb_refl.
  - destruct (String.eqb k k') eqn:E; simpl.
    + now rewrite String.eqb_refl.
    + now rewrite E.
Qed.

Lemma get_set_other {A} (m : list (string * A)) k k' v :
  k' <> k -> get (set m k v) k' = get m k'.
Proof.
  intros Hne. induction m as [|[k0 v0] m IH]; simpl.
  - apply String.eqb_neq in Hne. now rewrite Hne.
  - destruct (String.eqb k k0) eqn:E; simpl.
    + apply String.eqb_eq in E. subst k0.
      apply String.eqb_neq in Hne. now rewrite Hne.
    + now rewrite IH.
Qed.

Section SameKeys.
Variable m0 : DepMap.

Lemma sameKeys_set m k v :
In k (keys m0) -> sameKeys m0 m -> sameKeys m0 (set m k v).
Proof.
unfold sameKeys. intros Hk H. rewrite keys_set.
rewrite <- H in Hk. apply hasOwn_keys in Hk. now rewrite Hk.
Qed.

Lemma sameKeys_pullAt m k values : sameKeys m0 m -> sameKeys m0 (pullAt m k values).
Proof.
unfold sameKeys, pullAt. intros H.
destruct (get m k) as [deps|] eqn:E; [|assumption].
rewrite keys_set.
assert (Hk : hasOwn m k = true) by (apply hasOwn_get; eauto).
now rewrite Hk.
Qed.

Lemma sameKeys_pushAt m k values : sameKeys m0 m -> sameKeys m0 (pushAt m k values).
Proof.
unfold sameKeys, pushAt. intros H.
destruct (get m k) as [deps|] eqn:E; [|assumption].
rewrite keys_set.
assert (Hk : hasOwn m k = true) by (apply hasOwn_get; eauto).
now rewrite Hk.
Qed.

Lemma sameKeys_if (c : bool) m m' :
sameKeys m0 m -> sameKeys m0 m' -> sameKeys m0 (if c then m else m').
Proof. now destruct c. Qed.

Lemma sameKeys_each names edit m :
(forall m n, sameKeys m0 m -> sameKeys m0 (edit m n)) ->
sameKeys m0 m -> sameKeys m0 (each names edit m).
Proof.
intros Hedit. unfold each. revert m.
induction names as [|n names IH]; intros m H; simpl; [assumption|].
apply IH. now apply Hedit.
Qed.

Lemma sameKeys_forOwn m edit : sameKeys m0 m -> sameKeys m0 (forOwn m edit).
Proof.
unfold forOwn. generalize (keys m) as ks. intros ks. revert m.
induction ks as [|k ks IH]; intros m H; simpl; [assumption|].
apply IH. destruct (get m k) as [deps|] eqn:E; [|assumption].
unfold sameKeys in *. rewrite keys_set.
assert (Hk : hasOwn m k = true) by (apply hasOwn_get; eauto).
now rewrite Hk.
Qed.
End SameKeys.

Section ExtendsKeys.
Variable m0 : DepMap.

Lemma extendsKeys_set m k v : extendsKeys m0 m -> extendsKeys m0 (set m k v).
Proof.
unfold extendsKeys. intros [Hincl Hnd]. rewrite keys_set.
destruct (hasOwn m k) eqn:E; [now split|].
split.
- intros x Hx. apply in_app_iff. left. now apply Hincl.
- apply NoDup_app; [assumption | repeat constructor; intros [] |].
  intros x Hx [<-|[]]. apply hasOwn_keys in Hx. congruence.
Qed.

Lemma extendsKeys_pushOrCreate m k values :
extendsKeys m0 m -> extendsKeys m0 (pushOrCreate m k values).
Proof. apply extendsKeys_set. Qed.

Lemma extendsKeys_if (c : bool) m m' :
extendsKeys m0 m -> extendsKeys m0 m' -> extendsKeys m0 (if c then m else m').
Proof. now destruct c. Qed.

Lemma extendsKeys_each names edit m :
(forall m n, extendsKeys m0 m -> extendsKeys m0 (edit m n)) ->
extendsKeys m0 m -> extendsKeys m0 (each names edit m).
Proof.
intros Hedit. unfold each. revert m.
induction names as [|n names IH]; intros m H; simpl; [assumption|].
apply IH. now apply Hedit.
Qed.

Lemma extendsKeys_forOwn m edit : extendsKeys m0 m -> extendsKeys m0 (forOwn m edit).
Proof.
unfold forOwn. generalize (keys m) as ks. intros ks. revert m.
induction ks as [|k ks IH]; intros m H; simpl; [assumption|].
apply IH. destruct (get m k) as [deps|] eqn:E; [|assumption].
now apply extendsKeys_set.
Qed.
End ExtendsKeys.

(** *** The rewrites of [build], one after the other *)

Lemma sameKeys_refl m : sameKeys m m.
Proof. reflexivity. Qed.

Lemma extendsKeys_refl m : NoDup (keys m) -> extendsKeys m m.
Proof. intros H. split; [apply incl_refl | assumption]. Qed.

Ltac keysStep :=
  lazymatch goal with
  | |- sameKeys _ (if _ then _ else _) => apply sameKeys_if
  | |- sameKeys _ (pullAt _ _ _) => apply sameKeys_pullAt
  | |- sameKeys _ (pushAt _ _ _) => apply sameKeys_pushAt
  | |- sameKeys _ (forOwn _ _) => apply sameKeys_forOwn
  | |- sameKeys _ (each _ _ _) => apply sameKeys_each; [intros|]
  | |- sameKeys _ (set _ _ _) =>
      apply sameKeys_set;
      [match goal with H : In _ _ |- _ => exact H end|]
  | |- sameKeys ?a ?b =>
      first [ constr_eq a b; apply sameKeys_refl
            | match goal with H : sameKeys a b |- _ => exact H end ]
  | |- extendsKeys _ (if _ then _ else _) => apply extendsKeys_if
  | |- extendsKeys _ (pushOrCreate _ _ _) => apply extendsKeys_pushOrCreate
  | |- extendsKeys _ (set _ _ _) => apply extendsKeys_set
  | |- extendsKeys _ (forOwn _ _) => apply extendsKeys_forOwn
  | |- extendsKeys _ (each _ _ _) => apply extendsKeys_each; [intros|]
  | |- extendsKeys ?a ?b =>
      first [ constr_eq a b; apply extendsKeys_refl;
              match goal with H : NoDup _ |- _ => exact H end
            | match goal with H : extendsKeys a b |- _ => exact H end ]
  end.

Ltac keysTac := cbv beta zeta; repeat (keysStep; cbv beta zeta).

(** One [let] of the definition: name its value, settle what is known of it
    and go on with the body. *)
Ltac nextLet st :=
  lazymatch goal with
  | |- ?G (let x := ?v in @?b x) =>
      let y := fresh x in
      change (let y := v in G (b y)); intro y; cbv beta;
      try (let H := fresh "F" in
           assert (H : sameKeys (funcDepMap st) y) by (subst y; keysTac));
      try (let H := fresh "P" in
           assert (H : sameKeys (propDepMap st) y) by (subst y; keysTac));
      try (let H := fresh "V" in
           assert (H : extendsKeys (varDepMap st) y) by (subst y; keysTac));
      clearbody y
  end.

Lemma fold_left_pairKept st {X} (step : DepMap * DepMap -> X -> DepMap * DepMap)
    l init :
  (forall acc x, pairKept st acc -> pairKept st (step acc x)) ->
  pairKept st init -> pairKept st (fold_left step l init).
Proof.
  intros Hstep. revert init. induction l as [|x l IH]; intros init H; simpl.
  - assumption.
  - apply IH. now apply Hstep.
Qed.

Ltac finishKept :=
  unfold mapsKept, pairKept; cbn [fst snd];
  repeat lazymatch goal with
    | |- _ /\ _ => split
    | |- sameKeys ?a ?b => match goal with H : sameKeys a b |- _ => exact H end
    | |- extendsKeys ?a ?b => match goal with H : extendsKeys a b |- _ => exact H end
    end.

(** The whole definition, one [let] after the other; a pair or a triple of
    maps that a branch returns is settled first and then taken apart. *)
Ltac walk st :=
  lazymatch goal with
  | |- ?G (let x := ?v in _) => nextLet st; walk st
  | |- pairKept _ (fold_left _ _ _) =>
      apply fold_left_pairKept;
      [ intros [? ?] ? [? ?]; cbn [fst snd] in * |-; cbv beta iota; walk st
      | walk st ]
  | |- ?G (match ?e with _ => _ end) =>
      lazymatch type of e with
      | bool => destruct e; walk st
      | prod (prod _ _) _ =>
          let H := fresh "Q" in
          assert (H : mapsKept st e);
          [ walk st
          | destruct e as [[? ?] ?]; destruct H as (? & ? & ?); cbn [fst snd] in * |-;
            cbv beta iota; walk st ]
      | prod _ _ =>
          let H := fresh "Q" in
          assert (H : pairKept st e);
          [ walk st
          | destruct e as [? ?]; destruct H as [? ?]; cbn [fst snd] in * |-;
            cbv beta iota; walk st ]
      end
  | |- _ => finishKept
  end.

Lemma updateDependencies_mapsKept st :
  In "isPlainObject" (keys (funcDepMap st)) ->
  In "keys" (keys (funcDepMap st)) ->
  In "isEmpty" (keys (funcDepMap st)) ->
  NoDup (keys (varDepMap st)) ->
  mapsKept st (updateDependencies st).
Proof.
  intros H1 H2 H3 H4. cbv beta delta [updateDependencies].
  walk st.
Qed.

Lemma uniq_fixed_NoDup l : uniq l = l -> NoDup l.
Proof. intros H. rewrite <- H. apply uniq_NoDup. Qed.

(** The maps a build starts from. *)
Lemma parseOptions_maps typeofLodash options :
  let st := parseOptions typeofLodash options in
  funcDepMap st = (if isUnderscore st then funcDependencyMap
                   else delete funcDependencyMap "findWhere")
  /\ propDepMap st = propDependencyMap
  /\ varDepMap st = varDependencyMap.
Proof.
  cbv zeta. split; [|split; reflexivity].
  change (funcDepMap (parseOptions typeofLodash options))
    with (if negb (isUnderscore (parseOptions typeofLodash options))
             || isLodash [] [] [] "findWhere"
          then delete funcDependencyMap "findWhere" else funcDependencyMap).
  replace (isLodash [] [] [] "findWhere") with false by (vm_compute; reflexivity).
  now destruct (isUnderscore (parseOptions typeofLodash options)).
Qed.

Lemma parseOptions_mapsKept typeofLodash options :
  let st := parseOptions typeofLodash options in
  mapsKept st (updateDependencies st)
  /\ NoDup (keys (funcDepMap st))
  /\ NoDup (keys (propDepMap st)).
Proof.
  intros st. destruct (parseOptions_maps typeofLodash options) as (Hf & Hp & Hv).
  fold st in Hf, Hp, Hv.
  assert (Hkeys : forallb (contains (keys (funcDepMap st)))
                    ["isPlainObject"; "keys"; "isEmpty"] = true
                  /\ uniq (keys (funcDepMap st)) = keys (funcDepMap st)).
  { rewrite Hf. destruct (isUnderscore st); split; vm_compute; reflexivity. }
  destruct Hkeys as [Hkeys Hnd]. rewrite forallb_forall in Hkeys.
  split; [|split].
  - apply updateDependencies_mapsKept.
    + apply contains_In, Hkeys. simpl. auto.
    + apply contains_In, Hkeys. simpl. auto.
    + apply contains_In, Hkeys. simpl. auto.
    + rewrite Hv. apply uniq_fixed_NoDup. vm_compute. reflexivity.
  - now apply uniq_fixed_NoDup.
  - rewrite Hp. apply uniq_fixed_NoDup. vm_compute. reflexivity.
Qed.

(** X12.  The rewrites that adapt the dependency maps to the kind of build
    only change what the functions depend on: whatever the options, the
    function map that results has the keys of [funcDependencyMap], without
    [findWhere] unless the build is an Underscore build, and the property
    map has the keys of [propDependencyMap], in the same order; the
    variable map keeps the keys of [varDependencyMap] and may gain others;
    no key occurs twice in any of the three. *)
Theorem updateDependencies_keeps_keys :
  forall (typeofLodash : string -> string) (options : list string),
  let st := parseOptions typeofLodash options in
  let maps := updateDependencies st in
  keys (fst (fst maps))
  = (if isUnderscore st then keys funcDependencyMap
     else keys (delete funcDependencyMap "findWhere"))
  /\ keys (snd (fst maps)) = keys propDependencyMap
  /\ incl (keys varDependencyMap) (keys (snd maps))
  /\ NoDup (keys (fst (fst maps)))
  /\ NoDup (keys (snd (fst maps)))
  /\ NoDup (keys (snd maps)).
Proof.
  intros typeofLodash options st maps.
  destruct (parseOptions_mapsKept typeofLodash options)
    as ((Kf & Kp & Kv & Knd) & Hndf & Hndp).
  destruct (parseOptions_maps typeofLodash options) as (Hf & Hp & Hv).
  fold st in Kf, Kp, Kv, Knd, Hndf, Hndp, Hf, Hp, Hv. fold maps in Kf, Kp, Kv, Knd.
  unfold sameKeys in Kf, Kp.
  split; [|split; [|split; [|split; [|split]]]].
  - rewrite Kf, Hf. now destruct (isUnderscore st).
  - now rewrite Kp, Hp.
  - now rewrite <- Hv.
  - now rewrite Kf.
  - now rewrite Kp.
  - exact Knd.
Qed.

(** ** What the build set holds *)

(** X13.  [expand] computes a closure.  For a map of identifiers with
    distinct keys and names [buildFuncs] that are closed under the function
    map, it returns; the identifiers it returns are those it was given and
    the identifiers of the names it keeps, no more and no less, each once;
    the names it keeps are those it was given and the functions that the
    identifiers of the names it keeps depend on. *)
Theorem expand_computes_closure :
  forall (funcDepMap depMap : DepMap) (result buildFuncs : list string),
  NoDup (keys depMap) ->
  closedUnder funcDepMap buildFuncs ->
  exists e,
    expand funcDepMap depMap (expandFuel funcDepMap) result buildFuncs = Some e
    /\ (forall id, In id (identifiers e)
                   <-> In id result
                       \/ exists f, In f (kept e) /\ In id (depsOf depMap f))
    /\ (forall g, In g (kept e)
                  <-> In g buildFuncs
                      \/ exists f id, In f (kept e) /\ In id (depsOf depMap f)
                                      /\ dependsOn funcDepMap id g)
    /\ NoDup (identifiers e).
Proof.
  intros funcDepMap depMap result buildFuncs Hnd Hclosed.
  destruct (expand_total funcDepMap depMap result buildFuncs Hclosed)
    as (e & He & _).
  exists e. split; [exact He|].
  exact (expand_closure funcDepMap depMap result buildFuncs Hnd _ e He).
Qed.

Lemma expand_computes_closure_witness :
  exists e,
    expand cyclicMap [("x", ["a"])] (expandFuel cyclicMap) [] ["x"] = Some e
    /\ In "a" (identifiers e)
    /\ In "c" (kept e).
Proof.
  destruct (expand_computes_closure cyclicMap [("x", ["a"])] [] ["x"])
    as (e & He & Hid & Hkept & _).
  - repeat constructor. intros [].
  - intros i d [<-|[]] Hd. vm_compute in Hd. destruct Hd.
  - exists e. split; [exact He|].
    assert (Hx : In "x" (kept e)) by (apply Hkept; left; now left).
    split.
    + apply Hid. right. exists "x". split; [exact Hx | now left].
    + apply Hkept. right. exists "x", "a". split; [exact Hx|]. split; [now left|].
      apply dependsOn_trans with (d := "b").
      * vm_compute. auto.
      * apply dependsOn_direct. vm_compute. auto.
Defined.

Section KeptOnce.
Variable funcDepMap : DepMap.
Variable depMap : DepMap.

Lemma expandName_kept_NoDup again funcName ids e e' :
(forall names e1 e2, again names e1 = Some e2 -> NoDup (kept e1) -> NoDup (kept e2)) ->
expandName funcDepMap again funcName ids e = Some e' -> NoDup (kept e').
Proof.
intros Hagain H. unfold expandName in H.
apply Hagain in H; [assumption|]. cbn [kept]. apply uniq_NoDup.
Qed.

Lemma reduceNames_kept_NoDup again funcNames :
(forall names e1 e2, again names e1 = Some e2 -> NoDup (kept e1) -> NoDup (kept e2)) ->
forall e e', reduceNames funcDepMap depMap again funcNames e = Some e' ->
             NoDup (kept e) -> NoDup (kept e').
Proof.
intros Hagain.
induction funcNames as [|n rest IH]; intros e e' H Hnd; simpl in H.
- now injection H as <-.
- destruct (negb (contains (expanded e) n)); [|now apply (IH e)].
  destruct (expandName funcDepMap again n (depsOf depMap n) e) as [e1|] eqn:E;
    [|discriminate].
  apply (IH e1); [assumption|]. eapply expandName_kept_NoDup; eassumption.
Qed.

Lemma expandNames_kept_NoDup : forall fuel names e1 e2,
expandNames funcDepMap depMap fuel names e1 = Some e2 ->
NoDup (kept e1) -> NoDup (kept e2).
Proof.
induction fuel as [|fuel IH]; intros names e1 e2 H Hnd; [discriminate|].
simpl in H.
destruct (reduceNames funcDepMap depMap (expandNames funcDepMap depMap fuel) names e1)
  as [e3|] eqn:E; [|discriminate].
injection H as <-. cbn [kept]. eapply reduceNames_kept_NoDup; eassumption.
Qed.

Lemma expandEntries_kept_NoDup fuel entries : forall e0 e1,
NoDup (kept e0) ->
expandEntries funcDepMap depMap fuel entries e0 = Some e1 ->
NoDup (kept e1).
Proof.
induction entries as [|[n ids] entries IH]; intros e0 e1 Hnd0 H; simpl in H.
- now injection H as <-.
- destruct (negb (contains (expanded e0) n) && contains (kept e0) n);
    [|now apply (IH e0)].
  destruct (expandName funcDepMap (expandNames funcDepMap depMap fuel) n ids e0)
    as [e2|] eqn:E; [|discriminate].
  apply (IH e2); [|assumption].
  eapply expandName_kept_NoDup; [|eassumption]. apply expandNames_kept_NoDup.
Qed.

Lemma expand_kept_NoDup fuel result buildFuncs e :
NoDup buildFuncs ->
expand funcDepMap depMap fuel result buildFuncs = Some e ->
NoDup (kept e).
Proof.
intros Hnd. unfold expand.
destruct (expandEntries funcDepMap depMap fuel depMap _) as [e1|] eqn:E;
  [|discriminate].
intros [= <-]. cbn [kept].
eapply expandEntries_kept_NoDup; [|exact E]. exact Hnd.
Qed.
End KeptOnce.

Lemma getDependencies_NoDup funcName depMap :
  NoDup (getDependencies funcName depMap false).
Proof.
  destruct (getDependencies_run funcName depMap) as (st & Hrun).
  unfold traversalFuel in Hrun. rewrite getDependenciesRec_S in Hrun.
  destruct (argDeps funcName depMap) as [|d deps].
  - injection Hrun as <- _. constructor.
  - apply uniqResult_Some in Hrun.
    destruct Hrun as (r0 & st0 & _ & [= -> _]). apply uniq_NoDup.
Qed.

Lemma resolve_total typeofLodash st : exists r, resolve typeofLodash st = Some r.
Proof.
  unfold resolve.
  destruct (updateDependencies st) as [[funcDepMap propDepMap] varDepMap].
  destruct (expand_total funcDepMap propDepMap (includeProps st)
              (initialBuildFuncs typeofLodash st funcDepMap))
    as (props & -> & Hc1 & _); [apply initialBuildFuncs_closed|].
  destruct (expand_total funcDepMap varDepMap (includeVars st) (kept props) Hc1)
    as (vars & -> & _).
  eexists. reflexivity.
Qed.

(** X14.  Whatever the options, the build set is computed and holds what
    it needs and no more.  It holds a variable exactly when the variable
    was included by name or one of the functions kept needs it; every
    property it holds was included by name or is needed by one of the
    functions kept; every function kept is one the build started from, or
    one that a property or a variable needed by a function kept depends
    on; and no function, property or variable is listed twice. *)
Theorem build_set_holds_what_it_needs :
  forall (typeofLodash : string -> string) (options : list string),
  let st := parseOptions typeofLodash options in
  exists r,
    resolve typeofLodash st = Some r
    /\ (forall v, In v (buildVars r)
                  <-> In v (includeVars st)
                      \/ exists f, In f (buildFuncs r)
                                   /\ In v (depsOf (resolvedVarDepMap r) f))
    /\ (forall p, In p (buildProps r) ->
                  In p (includeProps st)
                  \/ exists f, In f (buildFuncs r)
                               /\ In p (depsOf (resolvedPropDepMap r) f))
    /\ (forall g, In g (buildFuncs r) ->
                  In g (initialBuildFuncs typeofLodash st (resolvedFuncDepMap r))
                  \/ exists f id,
                       In f (buildFuncs r)
                       /\ (In id (depsOf (resolvedPropDepMap r) f)
                           \/ In id (depsOf (resolvedVarDepMap r) f))
                       /\ dependsOn (resolvedFuncDepMap r) id g)
    /\ NoDup (buildFuncs r) /\ NoDup (buildProps r) /\ NoDup (buildVars r).
Proof.
  intros typeofLodash options st.
  destruct (resolve_total typeofLodash st) as (r & Hr).
  exists r. split; [exact Hr|].
  destruct (parseOptions_mapsKept typeofLodash options)
    as ((Kf & Kp & Kv & Knd) & Hndf & Hndp).
  fold st in Kf, Kp, Kv, Knd, Hndf, Hndp.
  destruct (resolve_fields _ _ _ Hr) as (Hmaps & props & vars & Hp & Hv & Ef & Ep & Ev).
  rewrite Hmaps in Kf, Kp, Kv, Knd. cbn [fst snd] in Kf, Kp, Kv, Knd.
  assert (Hndp' : NoDup (keys (resolvedPropDepMap r))).
  { unfold sameKeys in Kp. now rewrite Kp. }
  destruct (expand_closure _ _ _ _ Hndp' _ _ Hp) as (Pid & Pkept & Pnd).
  destruct (expand_closure _ _ _ _ Knd _ _ Hv) as (Vid & Vkept & Vnd).
  assert (Hgrow : incl (kept props) (kept vars)).
  { intros x Hx. apply Vkept. now left. }
  rewrite Ef, Ep, Ev.
  split; [exact Vid|]. split; [|split; [|split; [|split; assumption]]].
  - intros p Hin. apply Pid in Hin. destruct Hin as [H|(f & Hf & H)]; [now left|].
    right. exists f. split; [now apply Hgrow | assumption].
  - intros g Hg. apply Vkept in Hg. destruct Hg as [Hg|(f & id & Hf & Hid & Hdep)].
    + apply Pkept in Hg. destruct Hg as [Hg|(f & id & Hf & Hid & Hdep)]; [now left|].
      right. exists f, id. split; [now apply Hgrow|]. split; [now left | assumption].
    + right. exists f, id. split; [assumption|]. split; [now right | assumption].
  - eapply expand_kept_NoDup; [|exact Hv].
    eapply expand_kept_NoDup; [|exact Hp].
    unfold initialBuildFuncs. destruct (isTemplate st); [constructor|].
    apply getDependencies_NoDup.
Qed.

(** ** The candidates for removal and the loop that removes them *)

Lemma insertSorted_In x l y : In y (insertSorted x l) <-> y = x \/ In y l.
Proof.
  induction l as [|a l IH]; simpl.
  - split; [intros [<-|[]]; now left | intros [->|[]]; now left].
  - destruct (String.leb x a); simpl.
    + split; [intros [<-|H]; auto | intros [->|H]; auto].
    + rewrite IH. split; [intros [<-|[->|H]]; auto | intros [->|[<-|H]]; auto].
Qed.

Lemma sort_In l y : In y (sort l) <-> In y l.
Proof.
  unfold sort. induction l as [|a l IH]; simpl; [tauto|].
  rewrite insertSorted_In, IH. split; [intros [->|H]; auto | intros [<-|H]; auto].
Qed.

Lemma insertSorted_NoDup x l : ~ In x l -> NoDup l -> NoDup (insertSorted x l).
Proof.
  induction l as [|a l IH]; simpl; intros Hx Hnd.
  - constructor; [intros [] | constructor].
  - destruct (String.leb x a).
    + constructor; assumption.
    + inversion Hnd as [|? ? Ha Hl]; subst. constructor.
      * rewrite insertSorted_In. intros [->|H]; [apply Hx; now left | contradiction].
      * apply IH; [|assumption]. intros H. apply Hx. now right.
Qed.

Lemma sort_NoDup l : NoDup l -> NoDup (sort l).
Proof.
  unfold sort. induction l as [|a l IH]; simpl; intros Hnd; [constructor|].
  inversion Hnd as [|? ? Ha Hl]; subst.
  apply insertSorted_NoDup; [|now apply IH].
  fold (sort l). now rewrite sort_In.
Qed.

Lemma insertSorted_ascending x l : ascending l -> ascending (insertSorted x l).
Proof.
  induction l as [|a l IH]; simpl; intros H.
  - exact I.
  - destruct (String.leb x a) eqn:E.
    + simpl. rewrite E. split; [reflexivity | exact H].
    + assert (Hax : String.leb a x = true).
      { destruct (String.leb_total a x) as [Hl|Hl]; [assumption | congruence]. }
      destruct l as [|b l].
      * simpl. now rewrite Hax.
      * simpl in H. destruct H as [Hab H]. specialize (IH H).
        simpl in IH |- *. destruct (String.leb x b) eqn:Exb.
        -- split; [exact Hax | exact IH].
        -- split; [exact Hab | exact IH].
Qed.

Lemma sort_ascending l : ascending (sort l).
Proof.
  unfold sort. induction l as [|a l IH]; simpl; [exact I|].
  now apply insertSorted_ascending.
Qed.

Lemma filter_NoDup {A} (f : A -> bool) l : NoDup l -> NoDup (filter f l).
Proof.
  induction l as [|a l IH]; simpl; intros H; [constructor|].
  inversion H as [|? ? Ha Hl]; subst. destruct (f a); [|now apply IH].
  constructor; [|now apply IH]. intros Hin. apply filter_In in Hin. tauto.
Qed.

(** X15.  Whatever the source text, [getVars] returns its names in
    ascending order of their character codes, each once, and none of them
    is the name of a function. *)
Theorem getVars_sorted_distinct_not_functions :
  forall (typeofLodash : string -> string) (source : string) (isShallow : bool)
         (v : string),
  ascending (getVars typeofLodash source isShallow)
  /\ NoDup (getVars typeofLodash source isShallow)
  /\ (In v (getVars typeofLodash source isShallow) -> ~ In v (allFuncs typeofLodash)).
Proof.
  intros typeofLodash source isShallow v. unfold getVars. cbv zeta.
  destruct (fold_left _ _ (source, [])) as [rest result].
  split; [apply sort_ascending|]. split.
  - apply sort_NoDup. unfold difference. apply filter_NoDup, uniq_NoDup.
  - rewrite sort_In, difference_In. tauto.
Qed.

Lemma getVars_sorted_distinct_not_functions_witness :
  In "c" (getVars libraryTypeof sourceWithDeadVariables true)
  /\ ~ In "c" (allFuncs libraryTypeof).
Proof.
  assert (H : In "c" (getVars libraryTypeof sourceWithDeadVariables true))
    by (vm_compute; auto).
  split; [exact H|].
  exact (proj2 (proj2 (getVars_sorted_distinct_not_functions libraryTypeof
                         sourceWithDeadVariables true "c")) H).
Defined.

Section IncludedVars.
Variable includeVars : list string.
Variable isShallow : bool.

Lemma filter_filter {A} (f g : A -> bool) l :
filter f (filter g l) = filter (fun x => g x && f x) l.
Proof.
induction l as [|a l IH]; simpl; [reflexivity|].
destruct (g a); simpl; [destruct (f a); now rewrite IH | exact IH].
Qed.

Lemma filter_ext_in' {A} (f g : A -> bool) l :
(forall x, In x l -> f x = g x) -> filter f l = filter g l.
Proof.
induction l as [|a l IH]; simpl; intros H; [reflexivity|].
rewrite (H a (or_introl eq_refl)), IH; [reflexivity|].
intros x Hx. apply H. now right.
Qed.

Lemma included_isKept p v :
notIncluded includeVars v = false -> isKept includeVars isShallow p v = true.
Proof.
unfold notIncluded, isKept. intros H. apply negb_false_iff in H. now rewrite H.
Qed.

(** The names that are included play no part in the loop. *)
Lemma loop_without_included : forall fuel varNames p,
List.length varNames <= fuel ->
removeUnusedLoop includeVars isShallow fuel
  (filter (notIncluded includeVars) varNames) p
= removeUnusedLoop includeVars isShallow fuel varNames p.
Proof.
induction fuel as [|fuel IH]; intros varNames p Hlen.
- destruct varNames; [reflexivity | simpl in Hlen; lia].
- set (K := isKept includeVars isShallow p).
  set (ok := notIncluded includeVars).
  assert (Hnot : filter (fun x => negb (K x)) (filter ok varNames)
                 = filter (fun x => negb (K x)) varNames).
  { rewrite filter_filter. apply filter_ext_in'. intros x _.
    destruct (ok x) eqn:E; [reflexivity|].
    subst K. cbv beta. now rewrite (included_isKept p x E). }
  assert (Hkept : filter K (filter ok varNames) = filter ok (filter K varNames)).
  { rewrite !filter_filter. apply filter_ext_in'. intros x _. apply andb_comm. }
  destruct (filter (fun x => negb (K x)) varNames) as [|n ns] eqn:Hnon.
  + (* every name is kept *)
    assert (Hall : forall x, In x varNames -> K x = true).
    { intros x Hx. destruct (K x) eqn:E; [reflexivity|].
      assert (Hin : In x (filter (fun x => negb (K x)) varNames))
        by (apply filter_In; split; [assumption | now rewrite E]).
      rewrite Hnon in Hin. destruct Hin. }
    rewrite (proj1 (loop_all_kept includeVars isShallow (S fuel) varNames p Hlen Hall)).
    apply (loop_all_kept includeVars isShallow (S fuel)).
    * pose proof (List.filter_length_le ok varNames). lia.
    * intros x Hx. apply Hall. apply filter_In in Hx. tauto.
  + (* some name is not kept: both runs remove the same names *)
    assert (Hn : K n = false).
    { assert (Hin : In n (filter (fun x => negb (K x)) varNames))
        by (rewrite Hnon; now left).
      apply filter_In in Hin. now apply negb_true_iff. }
    assert (Hstep : forall l,
              filter (fun x => negb (K x)) l = n :: ns ->
              removeUnusedLoop includeVars isShallow (S fuel) l p
              = removeUnusedLoop includeVars isShallow fuel (filter K l)
                  (removeVars (n :: ns) p)).
    { intros l Hl. destruct l as [|a l]; [discriminate|].
      cbn [removeUnusedLoop]. fold K. unfold sortBy. rewrite Hl.
      cbn [app]. rewrite Hn.
      change (n :: ns ++ filter K (a :: l)) with ((n :: ns) ++ filter K (a :: l)).
      rewrite <- Hl, !filter_app, !filter_filter.
      rewrite (filter_ext_in' (fun x => negb (K x) && K x) (fun _ => false))
        by (intros x _; now destruct (K x)).
      rewrite (filter_ext_in' (fun x => negb (K x) && negb (K x))
                 (fun x => negb (K x)))
        by (intros x _; now destruct (K x)).
      rewrite (filter_ext_in' (fun x => K x && negb (K x)) (fun _ => false))
        by (intros x _; now destruct (K x)).
      rewrite (filter_ext_in' (fun x => K x && K x) K)
        by (intros x _; now destruct (K x)).
      assert (Hfalse : forall l0 : list string, filter (fun _ => false) l0 = [])
        by (induction l0; simpl; auto).
      rewrite !Hfalse. cbn [app]. rewrite app_nil_r. reflexivity. }
    rewrite (Hstep varNames Hnon).
    rewrite (Hstep (filter ok varNames) Hnot).
    rewrite Hkept. apply IH.
    assert (Hlt : List.length (filter K varNames) < List.length varNames).
    { pose proof (List.filter_length K varNames) as HL.
      fold (filter (fun x => negb (K x)) varNames) in HL.
      rewrite Hnon in HL. simpl in HL. lia. }
    lia.
Qed.
End IncludedVars.

(** X16.  A variable listed in [includeVars] is never handed to
    [removeVar]: the loop returns the texts it returns when the included
    names are not among the candidates at all. *)
Theorem included_variables_are_not_candidates :
  forall (includeVars : list string) (isShallow : bool) (varNames : list string)
         (p : Pruning),
  removeUnusedLoop includeVars isShallow (List.length varNames)
    (filter (notIncluded includeVars) varNames) p
  = removeUnusedLoop includeVars isShallow (List.length varNames) varNames p.
Proof.
  intros. now apply loop_without_included.
Qed.

(** X17.  A text in which every variable found is included or used is
    left as it is. *)
Theorem nothing_unused_nothing_removed :
  forall (typeofLodash : string -> string) (buildFuncs includeVars : list string)
         (text : string),
  let isShallow := negb (contains buildFuncs "runInContext") in
  let p := withoutStringsAndComments text in
  (forall v, In v (getVars typeofLodash (snippet p) isShallow) ->
             contains includeVars v || isVarUsed (snippet p) v isShallow = true) ->
  removeUnusedVars typeofLodash buildFuncs includeVars text = Some text.
Proof.
  intros typeofLodash buildFuncs includeVars text isShallow p Hall.
  unfold removeUnusedVars. cbv zeta. fold isShallow.
  change {| snippet := removeStrings (removeComments text); source := text |} with p.
  rewrite (proj1 (loop_all_kept includeVars isShallow _ _ p (le_n _) Hall)).
  reflexivity.
Qed.

Lemma nothing_unused_nothing_removed_witness :
  removeUnusedVars libraryTypeof [] []
    ("  var c = 3;" +++ LF +++ "  function f() { return c; }" +++ LF)
  = Some ("  var c = 3;" +++ LF +++ "  function f() { return c; }" +++ LF).
Proof.
  apply (nothing_unused_nothing_removed libraryTypeof [] []).
  intros v Hv.
  assert (Hall : forallb
                   (fun v => isVarUsed
                               (snippet (withoutStringsAndComments
                                  ("  var c = 3;" +++ LF
                                   +++ "  function f() { return c; }" +++ LF)))
                               v true)
                   (getVars libraryTypeof
                      (snippet (withoutStringsAndComments
                         ("  var c = 3;" +++ LF
                          +++ "  function f() { return c; }" +++ LF))) true)
                 = true) by (vm_compute; reflexivity).
  rewrite forallb_forall in Hall. cbn [contains existsb orb].
  apply Hall. exact Hv.
Defined.

(** ** Removing what a locator found *)

Lemma string_of_list_app l1 l2 :
  string_of_list_ascii (l1 ++ l2)
  = string_of_list_ascii l1 +++ string_of_list_ascii l2.
Proof. induction l1 as [|c l1 IH]; simpl; [reflexivity | now rewrite IH]. Qed.

Lemma list_of_string_app s1 s2 :
  list_ascii_of_string (s1 +++ s2) = list_ascii_of_string s1 ++ list_ascii_of_string s2.
Proof. induction s1 as [|c s1 IH]; simpl; [reflexivity | now rewrite IH]. Qed.

Lemma string_length_app s1 s2 :
  String.length (s1 +++ s2) = String.length s1 + String.length s2.
Proof. induction s1 as [|c s1 IH]; simpl; [reflexivity | now rewrite IH]. Qed.

Lemma startsWith_prefix p l :
  startsWith p l = true <-> l = p ++ skipn (List.length p) l.
Proof.
  revert l. induction p as [|a p IH]; intros l; simpl.
  - tauto.
  - destruct l as [|b l]; [split; discriminate|].
    rewrite andb_true_iff, IH. split.
    + intros [Hab Hl]. apply Ascii.eqb_eq in Hab. subst. now f_equal.
    + intros [= -> Hl]. split; [apply Ascii.eqb_refl | assumption].
Qed.

Lemma splitAtFirst_splits p : forall rest prev l r,
  splitAtFirst p prev rest = Some (l, r) -> rev prev ++ rest = l ++ p ++ r.
Proof.
  induction rest as [|c rest IH]; intros prev l r; simpl.
  - destruct (startsWith p []) eqn:E; [|discriminate].
    intros [= <- <-]. apply startsWith_prefix in E. now rewrite <- E.
  - destruct (startsWith p (c :: rest)) eqn:E.
    + intros [= <- <-]. apply startsWith_prefix in E. now rewrite <- E.
    + intros H. apply IH in H. simpl in H. now rewrite <- app_assoc in H.
Qed.

Lemma splitAtFirst_finds p : forall a b prev,
  exists l r, splitAtFirst p prev (a ++ p ++ b) = Some (l, r).
Proof.
  induction a as [|c a IH]; intros b prev.
  - assert (E : startsWith p (p ++ b) = true).
    { apply startsWith_prefix. now rewrite skipn_app, skipn_all, Nat.sub_diag. }
    simpl app. destruct (p ++ b) as [|x rest] eqn:Hp; simpl; rewrite E; eauto.
  - simpl. destruct (startsWith p (c :: a ++ p ++ b)); [eauto|]. apply IH.
Qed.

(** [string.replace(text, '')] takes out one occurrence of the text, if
    there is one. *)
Lemma removeText_splits s searchText :
  removeText s searchText = s
  \/ exists before after,
       s = before +++ searchText +++ after
       /\ removeText s searchText = before +++ after.
Proof.
  unfold removeText, replaceTextWith.
  destruct (splitAtFirst _ [] _) as [[l r]|] eqn:E; [|now left].
  right. apply splitAtFirst_splits in E. simpl in E.
  exists (string_of_list_ascii l), (string_of_list_ascii r). split.
  - rewrite <- (string_of_list_ascii_of_string s), E.
    now rewrite !string_of_list_app, string_of_list_ascii_of_string.
  - simpl. now rewrite string_of_list_app.
Qed.

Lemma removeText_of_part before searchText after :
  exists before' after',
    before +++ searchText +++ after = before' +++ searchText +++ after'
    /\ removeText (before +++ searchText +++ after) searchText = before' +++ after'.
Proof.
  unfold removeText, replaceTextWith.
  rewrite !list_of_string_app.
  destruct (splitAtFirst_finds (list_ascii_of_string searchText)
              (list_ascii_of_string before) (list_ascii_of_string after) [])
    as (l & r & E).
  rewrite E. pose proof (splitAtFirst_splits _ _ _ _ _ E) as H. simpl in H.
  exists (string_of_list_ascii l), (string_of_list_ascii r). split.
  - rewrite <- (string_of_list_ascii_of_string (before +++ searchText +++ after)).
    rewrite !list_of_string_app, H.
    now rewrite !string_of_list_app, string_of_list_ascii_of_string.
  - simpl. now rewrite string_of_list_app.
Qed.

(** What [exec] returns as the match is a part of the text. *)
Lemma search_matched re : forall rest prev f,
  search re prev rest = Some f ->
  exists skipped after,
    rest = skipped ++ list_ascii_of_string (matched f) ++ after.
Proof.
  induction rest as [|c rest IH]; intros prev f; simpl.
  - unfold matchAt. destruct (pattern re) as [r|]; [|discriminate].
    destruct (run re r _ _) as [s|]; [|discriminate].
    intros [= <-]. cbn [matched]. exists [], [].
    rewrite list_ascii_of_string_of_list_ascii. now rewrite firstn_nil.
  - destruct (matchAt re prev (c :: rest)) as [f'|] eqn:E.
    + intros [= <-]. unfold matchAt in E.
      destruct (pattern re) as [r|]; [|discriminate].
      destruct (run re r _ _) as [s|]; [|discriminate].
      injection E as <-. cbn [matched].
      exists [], (skipn (List.length (before s) - List.length prev) (c :: rest)).
      rewrite list_ascii_of_string_of_list_ascii. simpl app.
      now rewrite firstn_skipn.
    + intros H. apply IH in H. destruct H as (skipped & after & ->).
      now exists (c :: skipped), after.
Qed.

Lemma exec_matched re s f :
  exec re s = Some f ->
  exists before after, s = before +++ matched f +++ after.
Proof.
  unfold exec. intros H. apply search_matched in H.
  destruct H as (skipped & after & H).
  exists (string_of_list_ascii skipped), (string_of_list_ascii after).
  rewrite <- (string_of_list_ascii_of_string s), H.
  now rewrite !string_of_list_app, string_of_list_ascii_of_string.
Qed.

Lemma matchProp_part source propName leadingComments :
  exists before after,
    source = before +++ matchProp source propName leadingComments +++ after.
Proof.
  unfold matchProp. destruct (exec _ source) as [f|] eqn:E.
  - now apply exec_matched in E.
  - now exists "", source.
Qed.

Lemma matchVar_part source varName isShallow :
  exists before after,
    source = before +++ matchVar source varName isShallow +++ after.
Proof.
  unfold matchVar.
  assert (H : forall patterns (result : option string),
            (forall m, result = Some m ->
                       exists before after, source = before +++ m +++ after) ->
            forall m,
            fold_left
              (fun (result : option string) reSource =>
                 if truthy result then result
                 else match exec (varRegExp reSource) source with
                      | Some f => Some (matched f)
                      | None => None
                      end) patterns result = Some m ->
            exists before after, source = before +++ m +++ after).
  { induction patterns as [|p patterns IH]; intros result Hres m; simpl.
    - apply Hres.
    - apply IH. destruct (truthy result); [exact Hres|].
      destruct (exec (varRegExp p) source) as [f|] eqn:E; [|discriminate].
      intros m' [= <-]. now apply exec_matched in E. }
  destruct (fold_left _ _ None) as [m|] eqn:E.
  - destruct (truthy (Some m)); [|now exists "", source].
    cbn [text]. apply (H (varPatterns varName isShallow) None); [discriminate | exact E].
  - now exists "", source.
Qed.

(** X18.  The locators of properties and variables return a part of the
    source, and [removeProp] takes exactly that part out once: the
    source is the text before, the snippet [matchProp] found and the text
    after, and what [removeProp] returns is the text before and the text
    after.  [removeFunction], for a name other than [runInContext], either
    leaves the source as it is or takes one occurrence of the snippet
    [matchFunction] found out of it.  Neither makes the source longer. *)
Theorem removal_takes_out_the_snippet :
  forall (source name : string) (leadingComments isShallow : bool),
  (exists before after,
      source = before +++ matchProp source name leadingComments +++ after)
  /\ (exists before after,
        source = before +++ matchVar source name isShallow +++ after)
  /\ (exists before after,
        source = before +++ matchProp source name true +++ after
        /\ removeProp source name = before +++ after)
  /\ String.length (removeProp source name) + String.length (matchProp source name true)
     = String.length source
  /\ (name <> "runInContext" ->
      (removeFunction source name = source
       \/ exists before after,
            source = before +++ matchFunction source name true +++ after
            /\ removeFunction source name = before +++ after)
      /\ String.length (removeFunction source name) <= String.length source).
Proof.
  intros source name leadingComments isShallow.
  split; [apply matchProp_part|]. split; [apply matchVar_part|].
  assert (Hprop : exists before after,
            source = before +++ matchProp source name true +++ after
            /\ removeProp source name = before +++ after).
  { unfold removeProp.
    destruct (matchProp_part source name true) as (b & a & Hs).
    destruct (removeText_of_part b (matchProp source name true) a)
      as (b' & a' & H1 & H2).
    exists b', a'. rewrite <- Hs in H1, H2. now split. }
  split; [exact Hprop|]. split.
  - destruct Hprop as (b & a & Hs & Hr). rewrite Hr.
    rewrite Hs at 2. rewrite !string_length_app. lia.
  - intros Hne. unfold removeFunction, removeFunctionWith.
    apply String.eqb_neq in Hne. rewrite Hne.
    destruct (negb (String.eqb (matchFunction source name true) ""));
      [|split; [now left | lia]].
    destruct (removeText_splits source (matchFunction source name true))
      as [H|(b & a & Hs & Hr)].
    + rewrite H. split; [now left | lia].
    + split; [right; now exists b, a|].
      rewrite Hr. rewrite Hs at 1. rewrite !string_length_app. lia.
Qed.

Lemma removal_takes_out_the_snippet_witness :
  removeFunction sourceUsingContext "keys" = sourceUsingContext
  \/ exists before after,
       sourceUsingContext = before +++ matchFunction sourceUsingContext "keys" true +++ after
       /\ removeFunction sourceUsingContext "keys" = before +++ after.
Proof.
  destruct (removal_takes_out_the_snippet sourceUsingContext "keys" true true)
    as (_ & _ & _ & _ & H).
  apply H. discriminate.
Defined.

(** ** The matcher on simple patterns *)

Lemma run_Repeat re lo hi greedy a s k :
  run re (Repeat lo hi greedy a) s k
  = repeatFrom re a k greedy (lo + List.length (after s) + 1) lo hi s.
Proof. reflexivity. Qed.

Lemma filter_true {A} (l : list A) : filter (fun _ => true) l = l.
Proof. induction l as [|a l IH]; simpl; [reflexivity | now rewrite IH]. Qed.

Lemma takesOne_Char re c0 :
  ignoreCase re = false -> takesOne re (Char c0) (Ascii.eqb c0).
Proof.
  intros Hi. split; [reflexivity|]. intros b a c k. simpl. unfold one. simpl.
  destruct a as [|x a']; [reflexivity|]. unfold sameChar. rewrite Hi. reflexivity.
Qed.

Lemma takesOne_Dot re : takesOne re Dot (fun c => negb (isLineTerminator c)).
Proof.
  split; [reflexivity|]. intros b a c k. simpl. unfold one. simpl.
  destruct a as [|x a']; reflexivity.
Qed.

Lemma takesOne_Word re : takesOne re (Class false [CWord false]) isWordChar.
Proof.
  split; [reflexivity|]. intros b a c k. simpl. unfold one. simpl.
  destruct a as [|x a']; [reflexivity|].
  now destruct (isWordChar x).
Qed.

Lemma clearCaptures_nil b a c :
  clearCaptures [] {| before := b; after := a; captures := c |}
  = {| before := b; after := a; captures := c |}.
Proof.
  unfold clearCaptures. cbn [before after captures]. f_equal.
  exact (filter_true c).
Qed.

(** A greedy quantifier over such a node takes every character it can
    when what follows the quantifier then matches. *)
Lemma repeat_greedy_all re atom p k :
  takesOne re atom p ->
  forall w b t c lo fuel z,
  forallb p w = true ->
  match t with x :: _ => p x = false | [] => True end ->
  lo <= List.length w ->
  List.length w < fuel ->
  k {| before := rev w ++ b; after := t; captures := c |} = Some z ->
  repeatFrom re atom k true fuel lo None {| before := b; after := w ++ t; captures := c |}
  = Some z.
Proof.
  intros [Hgroups Hone]. induction w as [|x w IH]; intros b t c lo fuel z Hw Ht Hlo Hfuel Hk.
  - destruct fuel as [|fuel]; [simpl in Hfuel; lia|].
    assert (lo = 0) by (simpl in Hlo; lia). subst lo.
    cbn [repeatFrom Nat.ltb Nat.leb]. rewrite Hgroups, clearCaptures_nil, Hone.
    cbn [app]. destruct t as [|y t]; [exact Hk|]. rewrite Ht. exact Hk.
  - destruct fuel as [|fuel]; [simpl in Hfuel; lia|].
    simpl in Hw. apply andb_true_iff in Hw. destruct Hw as [Hx Hw].
    cbn [repeatFrom]. rewrite Hgroups, clearCaptures_nil, Hone.
    cbn [app option_map]. rewrite Hx.
    cbn [before after captures].
    assert (Hlen : (List.length (w ++ t) =? List.length (x :: w ++ t)) = false).
    { apply Nat.eqb_neq. simpl. lia. }
    rewrite Hlen, andb_false_r.
    rewrite (IH (x :: b) t c (pred lo) fuel z); trivial.
    + now destruct (0 <? lo).
    + simpl in Hlo. lia.
    + simpl in Hfuel. lia.
    + simpl in Hk. now rewrite <- app_assoc in Hk.
Qed.

Lemma repeat_greedy_to_end re atom p k :
  takesOne re atom p ->
  forall w b c lo fuel z,
  forallb p w = true ->
  lo <= List.length w ->
  List.length w < fuel ->
  k {| before := rev w ++ b; after := []; captures := c |} = Some z ->
  repeatFrom re atom k true fuel lo None {| before := b; after := w; captures := c |}
  = Some z.
Proof.
  intros Hone w b c lo fuel z Hw Hlo Hfuel Hk.
  pose proof (repeat_greedy_all re atom p k Hone w b [] c lo fuel z Hw I Hlo Hfuel Hk)
    as H.
  now rewrite app_nil_r in H.
Qed.

Lemma run_Seq re a b s k :
  run re (Seq a b) s k = run re a s (fun s' => run re b s' k).
Proof. reflexivity. Qed.

Lemma run_Empty re s k : run re Empty s k = k s.
Proof. reflexivity. Qed.

Lemma run_Group re i a s k :
  run re (Group i a) s k
  = run re a s
      (fun s' =>
         let taken := List.length (before s') - List.length (before s) in
         k {| before := before s';
              after := after s';
              captures := (i, rev (firstn taken (before s'))) :: captures s' |}).
Proof. reflexivity. Qed.

(** *** The pattern that takes the value of an option *)

Lemma option_pattern :
  RegExp "\w+=(.*)$" ""
  = {| pattern :=
         Some (Seq (Repeat 1 None true (Class false [CWord false]))
                 (Seq (Char "=")
                    (Seq (Group 1 (Seq (Repeat 0 None true Dot) Empty))
                       (Seq Eol Empty))));
       groupCount := 1;
       ignoreCase := false;
       global := false;
       multiline := false |}.
Proof. vm_compute. reflexivity. Qed.

Lemma matchAt_option name rest :
  name <> [] ->
  forallb isWordChar name = true ->
  forallb (fun c => negb (isLineTerminator c)) rest = true ->
  matchAt (RegExp "\w+=(.*)$" "") [] (name ++ "="%char :: rest)
  = Some {| index := 0;
            matched := string_of_list_ascii (name ++ "="%char :: rest);
            groups := [Some (string_of_list_ascii rest)];
            following := [] |}.
Proof.
  intros Hne Hname Hrest. rewrite option_pattern.
  set (re := {| pattern := _; groupCount := 1; ignoreCase := false;
                global := false; multiline := false |}).
  unfold matchAt. cbn [pattern re].
  rewrite run_Seq, run_Repeat.
  rewrite (repeat_greedy_all re _ isWordChar _ (takesOne_Word re) name [] ("="%char :: rest)
             [] 1 _
             {| before := rev rest ++ "="%char :: rev name ++ [];
                after := [];
                captures := [(1, rest)] |}); trivial.
  - cbn [before]. rewrite app_nil_r, !length_app. cbn [List.length Nat.sub].
    rewrite !length_rev, Nat.sub_0_r.
    replace (List.length rest + S (List.length name))
      with (List.length (name ++ "="%char :: rest))
      by (rewrite length_app; simpl; lia).
    rewrite firstn_all. reflexivity.
  - destruct name; [congruence | simpl; lia].
  - cbn [after]. rewrite length_app. lia.
  - rewrite run_Seq.
    rewrite (proj2 (takesOne_Char re "="%char eq_refl)).
    cbn [Ascii.eqb Bool.eqb andb].
    rewrite run_Seq, run_Group, run_Seq, run_Repeat.
    rewrite (repeat_greedy_to_end re _ _ _ (takesOne_Dot re) rest _ [] 0 _
               {| before := rev rest ++ "="%char :: rev name ++ [];
                  after := [];
                  captures := [(1, rest)] |}); trivial.
    + lia.
    + cbn [after]. lia.
    + rewrite run_Empty. cbv zeta. cbn [before after captures].
      replace (List.length (rev rest ++ "="%char :: rev name ++ [])
               - List.length ("="%char :: rev name ++ []))
        with (List.length (rev rest))
        by (rewrite length_app; simpl; lia).
      rewrite firstn_app, firstn_all, Nat.sub_diag. cbn [firstn].
      rewrite (app_nil_r (rev rest)), rev_involutive.
      reflexivity.
Qed.

(** *** The pattern that separates the entries of an option *)

Lemma comma_pattern :
  RegExp ", *" ""
  = {| pattern := Some (Seq (Char ",") (Seq (Repeat 0 None true (Char " ")) Empty));
       groupCount := 0;
       ignoreCase := false;
       global := false;
       multiline := false |}.
Proof. vm_compute. reflexivity. Qed.

Lemma matchAt_comma prev n t :
  match t with x :: _ => Ascii.eqb " " x = false | [] => True end ->
  matchAt (RegExp ", *" "") prev (","%char :: repeat " "%char n ++ t)
  = Some {| index := List.length prev;
            matched := string_of_list_ascii (","%char :: repeat " "%char n);
            groups := [];
            following := t |}.
Proof.
  intros Ht. rewrite comma_pattern.
  set (re := {| pattern := _; groupCount := 0; ignoreCase := false;
                global := false; multiline := false |}).
  unfold matchAt. cbn [pattern re].
  rewrite run_Seq, (proj2 (takesOne_Char re ","%char eq_refl)).
  cbn [Ascii.eqb Bool.eqb andb].
  rewrite run_Seq, run_Repeat.
  rewrite (repeat_greedy_all re _ _ _ (takesOne_Char re " "%char eq_refl)
             (repeat " "%char n) _ t [] 0 _
             {| before := rev (repeat " "%char n) ++ ","%char :: prev;
                after := t;
                captures := [] |}); trivial.
  - cbn [before after captures groupCount re seq map].
    rewrite length_app, length_rev. cbn [List.length].
    replace (List.length (repeat " "%char n) + S (List.length prev) - List.length prev)
      with (S (List.length (repeat " "%char n))) by lia.
    cbn [firstn]. rewrite firstn_app, firstn_all, Nat.sub_diag. cbn [firstn].
    now rewrite app_nil_r.
  - clear. induction n as [|n IH]; simpl; [reflexivity | exact IH].
  - lia.
  - cbn [after]. rewrite length_app. lia.
Qed.

Lemma matchAt_not_comma prev c rest :
  Ascii.eqb "," c = false -> matchAt (RegExp ", *" "") prev (c :: rest) = None.
Proof.
  intros Hc. rewrite comma_pattern.
  set (re := {| pattern := _; groupCount := 0; ignoreCase := false;
                global := false; multiline := false |}).
  unfold matchAt. cbn [pattern re].
  rewrite run_Seq, (proj2 (takesOne_Char re ","%char eq_refl)).
  now rewrite Hc.
Qed.

Lemma matchAt_comma_end prev : matchAt (RegExp ", *" "") prev [] = None.
Proof.
  rewrite comma_pattern.
  set (re := {| pattern := _; groupCount := 0; ignoreCase := false;
                global := false; multiline := false |}).
  unfold matchAt. cbn [pattern re].
  now rewrite run_Seq, (proj2 (takesOne_Char re ","%char eq_refl)).
Qed.

(** ** The entries of an option *)

Lemma ch_eqb c d : ch c (String d "") = Ascii.eqb c d.
Proof. reflexivity. Qed.

Lemma splitLoop_word w : forall piece prev rest fuel,
  forallb (fun c => negb (ch c ",")) w = true ->
  splitLoop (RegExp ", *" "") (List.length w + fuel) piece prev (w ++ rest)
  = splitLoop (RegExp ", *" "") fuel (rev w ++ piece) (rev w ++ prev) rest.
Proof.
  induction w as [|c w IH]; intros piece prev rest fuel Hw; [reflexivity|].
  cbn [forallb] in Hw. apply andb_true_iff in Hw. destruct Hw as [Hc Hw].
  rewrite ch_eqb, Ascii.eqb_sym in Hc. apply negb_true_iff in Hc.
  cbn [List.length Nat.add app splitLoop].
  rewrite (matchAt_not_comma prev c (w ++ rest) Hc).
  rewrite IH by assumption. cbn [rev]. now rewrite <- !app_assoc.
Qed.

Lemma splitLoop_last w piece prev fuel :
  forallb (fun c => negb (ch c ",")) w = true ->
  List.length w < fuel ->
  splitLoop (RegExp ", *" "") fuel piece prev w
  = [string_of_list_ascii (rev piece ++ w)].
Proof.
  intros Hw Hfuel.
  replace fuel with (List.length w + S (fuel - List.length w - 1)) by lia.
  pose proof (splitLoop_word w piece prev [] (S (fuel - List.length w - 1)) Hw) as E.
  rewrite app_nil_r in E. rewrite E. cbn [splitLoop].
  now rewrite rev_app_distr, rev_involutive.
Qed.

Lemma string_list_length s : List.length (list_ascii_of_string s) = String.length s.
Proof. induction s as [|c s IH]; simpl; [reflexivity | now rewrite IH]. Qed.

Lemma splitLoop_separator n t piece prev fuel :
  match t with x :: _ => Ascii.eqb " " x = false | [] => True end ->
  splitLoop (RegExp ", *" "") (S fuel) piece prev (","%char :: repeat " "%char n ++ t)
  = string_of_list_ascii (rev piece)
    :: splitLoop (RegExp ", *" "") fuel []
         (rev (","%char :: repeat " "%char n) ++ prev) t.
Proof.
  intros Ht. cbn [splitLoop].
  rewrite (matchAt_comma prev n t Ht). cbn [matched following].
  rewrite list_ascii_of_string_of_list_ascii. reflexivity.
Qed.

Lemma join_cons separator x y l :
  join separator (x :: y :: l) = x +++ separator +++ join separator (y :: l).
Proof. reflexivity. Qed.

Lemma list_of_blanks n : list_ascii_of_string (blanks n) = repeat " "%char n.
Proof. unfold blanks. apply list_ascii_of_string_of_list_ascii. Qed.

Lemma isEntry_chars s :
  isEntry s = true ->
  forallb (fun c => negb (ch c ",")) (list_ascii_of_string s) = true
  /\ forallb (fun c => negb (isLineTerminator c)) (list_ascii_of_string s) = true
  /\ exists c w, list_ascii_of_string s = c :: w /\ Ascii.eqb " " c = false.
Proof.
  unfold isEntry. intros H. apply andb_true_iff in H. destruct H as [Hhd Hall].
  split; [|split].
  - rewrite forallb_forall in *. intros c Hc. specialize (Hall c Hc).
    apply andb_true_iff in Hall. tauto.
  - rewrite forallb_forall in *. intros c Hc. specialize (Hall c Hc).
    apply andb_true_iff in Hall. tauto.
  - destruct (list_ascii_of_string s) as [|c w]; [discriminate|].
    exists c, w. split; [reflexivity|].
    rewrite ch_eqb in Hhd. rewrite Ascii.eqb_sym. now apply negb_true_iff.
Qed.

Lemma splitLoop_entries n : forall names prev fuel,
  names <> [] ->
  forallb isEntry names = true ->
  String.length (join ("," +++ blanks n) names) < fuel ->
  splitLoop (RegExp ", *" "") fuel [] prev
    (list_ascii_of_string (join ("," +++ blanks n) names))
  = names.
Proof.
  induction names as [|x names IH]; intros prev fuel Hne Hall Hfuel; [congruence|].
  cbn [forallb] in Hall. apply andb_true_iff in Hall. destruct Hall as [Hx Hall].
  destruct (isEntry_chars x Hx) as (Hcomma & _ & _).
  destruct names as [|y names].
  - cbn [join] in *. rewrite splitLoop_last.
    + cbn [rev app]. now rewrite string_of_list_ascii_of_string.
    + assumption.
    + now rewrite string_list_length.
  - rewrite join_cons in *. rewrite !list_of_string_app.
    pose proof string_list_length as Hlen.
    rewrite !string_length_app in Hfuel.
    cbn [list_ascii_of_string append] in *. rewrite list_of_blanks.
    replace fuel with (List.length (list_ascii_of_string x)
                       + (fuel - List.length (list_ascii_of_string x)))
      by (rewrite Hlen; lia).
    rewrite splitLoop_word by assumption.
    destruct (fuel - List.length (list_ascii_of_string x)) as [|fuel'] eqn:E;
      [rewrite Hlen in E; lia|].
    assert (Hy : isEntry y = true).
    { cbn [forallb] in Hall. apply andb_true_iff in Hall. tauto. }
    destruct (isEntry_chars y Hy) as (_ & _ & c & w & Hyc & Hc).
    rewrite <- app_assoc. cbn [app]. rewrite splitLoop_separator.
    + rewrite app_nil_r, rev_involutive, string_of_list_ascii_of_string.
      f_equal. apply IH; [discriminate | exact Hall|].
      rewrite Hlen in E. cbn [String.length] in Hfuel. lia.
    + destruct (list_ascii_of_string (join _ (y :: names)))
        as [|c' rest] eqn:Ej; [exact I|].
      assert (Hhd : c' = c).
      { destruct names as [|z names].
        - cbn [join] in Ej. rewrite Hyc in Ej. now injection Ej.
        - rewrite join_cons, list_of_string_app, Hyc in Ej. now injection Ej. }
      now subst c'.
Qed.

Lemma join_no_line_break n names :
  forallb isEntry names = true ->
  forallb (fun c => negb (isLineTerminator c))
    (list_ascii_of_string (join ("," +++ blanks n) names)) = true.
Proof.
  assert (Hsep : forallb (fun c => negb (isLineTerminator c))
                   (list_ascii_of_string ("," +++ blanks n)) = true).
  { cbn [append list_ascii_of_string forallb]. rewrite list_of_blanks.
    cbn. induction n as [|n IH]; simpl; [reflexivity | exact IH]. }
  induction names as [|x names IH]; intros Hall; [reflexivity|].
  cbn [forallb] in Hall. apply andb_true_iff in Hall. destruct Hall as [Hx Hall].
  destruct (isEntry_chars x Hx) as (_ & Hlt & _).
  destruct names as [|y names]; [exact Hlt|].
  rewrite join_cons.
  rewrite (list_of_string_app x).
  rewrite (list_of_string_app ("," +++ blanks n) (join ("," +++ blanks n) (y :: names))).
  rewrite !forallb_app, Hlt, Hsep.
  now rewrite (IH Hall).
Qed.

Lemma compact_entries names : forallb isEntry names = true -> compact names = names.
Proof.
  intros Hall. unfold compact. apply filter_all. intros x Hx.
  rewrite forallb_forall in Hall. specialize (Hall x Hx).
  destruct (isEntry_chars x Hall) as (_ & _ & c & w & Hc & _).
  destruct x; [discriminate | reflexivity].
Qed.

Lemma search_at_start re l f :
  matchAt re [] l = Some f -> search re [] l = Some f.
Proof. intros H. destruct l; cbn [search]; now rewrite H. Qed.

Lemma split_entries n names :
  forallb isEntry names = true ->
  compact (split (join ("," +++ blanks n) names) (RegExp ", *" "")) = names.
Proof.
  intros Hall. unfold split.
  destruct names as [|x names].
  - cbn [join list_ascii_of_string]. now rewrite matchAt_comma_end.
  - destruct (list_ascii_of_string (join ("," +++ blanks n) (x :: names)))
      as [|c l] eqn:E.
    + exfalso. cbn [forallb] in Hall. apply andb_true_iff in Hall.
      destruct Hall as [Hx _].
      destruct (isEntry_chars x Hx) as (_ & _ & c & w & Hc & _).
      destruct names as [|y names].
      * cbn [join] in E. congruence.
      * rewrite join_cons, list_of_string_app, Hc in E. discriminate.
    + rewrite <- E. rewrite splitLoop_entries.
      * now apply compact_entries.
      * discriminate.
      * assumption.
      * rewrite string_list_length. lia.
Qed.

(** X19.  [optionToArray] reads back the entries that were joined into the
    text of an option: for an option name made of word characters and
    entries that are not empty, hold no comma and no line break and do not
    start with a space, the option [name=e1,e2,...] gives the array of the
    entries, in order, whether the commas are followed by spaces or not;
    [optionToMethodsArray] gives their real names. *)
Theorem optionToArray_reads_joined_entries :
  forall (name : string) (entries : list string) (n : nat) (depMap : DepMap),
  isOptionName name = true ->
  forallb isEntry entries = true ->
  optionToArray (name +++ "=" +++ join ("," +++ blanks n) entries) = entries
  /\ optionToMethodsArray (name +++ "=" +++ join ("," +++ blanks n) entries) depMap
     = map (fun identifier => getRealName identifier (Some depMap)) entries.
Proof.
  intros name entries n depMap Hname Hall.
  assert (H : optionToArray (name +++ "=" +++ join ("," +++ blanks n) entries) = entries).
  { unfold optionToArray, exec.
    rewrite !list_of_string_app. cbn [list_ascii_of_string app].
    unfold isOptionName in Hname. apply andb_true_iff in Hname.
    destruct Hname as [Hne Hword].
    destruct (list_ascii_of_string name) as [|c w] eqn:Ename.
    { destruct name; [discriminate | discriminate]. }
    rewrite (search_at_start _ _ _
               (matchAt_option (c :: w)
                  (list_ascii_of_string (join ("," +++ blanks n) entries))
                  ltac:(discriminate) Hword (join_no_line_break n entries Hall))).
    cbn [matchArray groups item nth text].
    rewrite string_of_list_ascii_of_string. now apply split_entries. }
  split; [exact H|]. unfold optionToMethodsArray. now rewrite H.
Qed.

Lemma optionToArray_reads_joined_entries_witness :
  optionToArray ("include=" +++ join ("," +++ blanks 1) ["each"; "map"; "zip"])
  = ["each"; "map"; "zip"]
  /\ optionToMethodsArray ("include=" +++ join ("," +++ blanks 1) ["each"; "map"; "zip"])
       funcDependencyMap
     = ["forEach"; "map"; "zip"].
Proof.
  destruct (optionToArray_reads_joined_entries "include" ["each"; "map"; "zip"] 1
              funcDependencyMap) as [H1 H2]; [reflexivity | reflexivity|].
  split; [exact H1 | exact H2].
Defined.

(** ** The build commands in the header *)

Lemma splitAtFirst_prefix p : forall rest acc l r,
  splitAtFirst p acc rest = Some (l, r) ->
  exists a, l = rev acc ++ a /\ rest = a ++ p ++ r.
Proof.
  induction rest as [|c rest IH]; intros acc l r; cbn [splitAtFirst].
  - destruct (startsWith p []) eqn:E; [|discriminate].
    intros H. injection H as <- <-. exists []. split; [now rewrite app_nil_r|].
    now apply startsWith_prefix in E.
  - destruct (startsWith p (c :: rest)) eqn:E.
    + intros H. injection H as <- <-. exists []. split; [now rewrite app_nil_r|].
      now apply startsWith_prefix in E.
    + intros H. destruct (IH _ _ _ H) as (a & -> & ->).
      exists (c :: a). split; [|reflexivity].
      cbn [rev]. now rewrite <- app_assoc.
Qed.

(** A pattern that matches one given text, replaced everywhere by one
    given text. *)
Section LiteralReplace.
Variable re : regexp.
Variable p : list ascii.
Variable r : list ascii.
Variable callback : found -> string.
Hypothesis Hglobal : global re = true.
Hypothesis Hp : p <> [].
Hypothesis HmatchAt : forall prev rest,
matchAt re prev rest
= if startsWith p rest
  then Some {| index := List.length prev;
               matched := string_of_list_ascii p;
               groups := [];
               following := skipn (List.length p) rest |}
  else None.
Hypothesis Hcallback : forall f, list_ascii_of_string (callback f) = r.

Lemma search_literal : forall rest prev acc,
search re prev rest
= match splitAtFirst p acc rest with
  | Some (l, r') =>
      Some {| index := List.length prev + List.length l - List.length acc;
              matched := string_of_list_ascii p;
              groups := [];
              following := r' |}
  | None => None
  end.
Proof.
induction rest as [|c rest IH]; intros prev acc; cbn [search splitAtFirst];
  rewrite HmatchAt.
- destruct (startsWith p []); [|reflexivity].
  now rewrite length_rev, Nat.add_sub.
- destruct (startsWith p (c :: rest)).
  + now rewrite length_rev, Nat.add_sub.
  + rewrite (IH (c :: prev) (c :: acc)).
    destruct (splitAtFirst p (c :: acc) rest) as [[l r']|] eqn:E; [|reflexivity].
    reflexivity.
Qed.

Lemma replaceLoop_literal fuel prev rest :
replaceLoop re callback (S fuel) prev rest
= match splitAtFirst p [] rest with
  | Some (l, r') =>
      l ++ r ++ replaceLoop re callback fuel (rev p ++ rev l ++ prev) r'
  | None => rest
  end.
Proof.
cbn [replaceLoop]. rewrite (search_literal rest prev []).
destruct (splitAtFirst p [] rest) as [[l r']|] eqn:E; [|reflexivity].
destruct (splitAtFirst_prefix _ _ _ _ _ E) as (a & Hl & Hrest).
cbn [rev app] in Hl. subst a.
cbv zeta. cbn [index matched following List.length].
rewrite Hglobal, Hcallback, list_ascii_of_string_of_list_ascii.
rewrite Nat.sub_0_r, Nat.add_comm, Nat.add_sub.
clear E. subst rest. rewrite firstn_app, firstn_all, Nat.sub_diag.
cbn [firstn]. rewrite app_nil_r.
destruct p as [|c0 p']; [congruence|].
now rewrite <- app_assoc.
Qed.

(** What holds of every character of the text and of the replacement
  holds of every character of the result. *)
Lemma replaceLoop_keeps (q : ascii -> bool) :
forallb q r = true ->
forall fuel prev rest,
forallb q rest = true ->
forallb q (replaceLoop re callback fuel prev rest) = true.
Proof.
intros Hr. induction fuel as [|fuel IH]; intros prev rest Hrest; [exact Hrest|].
rewrite replaceLoop_literal.
destruct (splitAtFirst p [] rest) as [[l r']|] eqn:E; [|exact Hrest].
destruct (splitAtFirst_prefix _ _ _ _ _ E) as (a & Hl & Hsplit).
cbn [rev app] in Hl. subst a. rewrite Hsplit in Hrest.
rewrite !forallb_app in Hrest.
apply andb_true_iff in Hrest. destruct Hrest as [H1 Hrest].
apply andb_true_iff in Hrest. destruct Hrest as [_ H2].
rewrite !forallb_app, H1, Hr. now apply IH.
Qed.
End LiteralReplace.

(** *** A pattern of one character *)

Section OneCharacter.
Variable re : regexp.
Variable c0 : ascii.
Hypothesis Hpattern : pattern re = Some (Seq (Char c0) Empty).
Hypothesis Hcase : ignoreCase re = false.
Hypothesis Hcount : groupCount re = 0.

Lemma matchAt_character prev rest :
matchAt re prev rest
= if startsWith [c0] rest
  then Some {| index := List.length prev;
               matched := string_of_list_ascii [c0];
               groups := [];
               following := skipn 1 rest |}
  else None.
Proof.
unfold matchAt. rewrite Hpattern, Hcount.
rewrite run_Seq, (proj2 (takesOne_Char re c0 Hcase)).
destruct rest as [|x rest]; [reflexivity|].
cbn [startsWith]. destruct (Ascii.eqb_spec c0 x) as [<-|_]; [|reflexivity].
rewrite run_Empty. cbn [andb before after List.length seq map skipn].
replace (S (List.length prev) - List.length prev) with 1 by lia.
reflexivity.
Qed.

Lemma splitAtFirst_character : forall rest acc,
match splitAtFirst [c0] acc rest with
| Some (l, r') =>
    exists a, l = rev acc ++ a
              /\ forallb (fun c => negb (Ascii.eqb c0 c)) a = true
              /\ rest = a ++ c0 :: r'
| None => forallb (fun c => negb (Ascii.eqb c0 c)) rest = true
end.
Proof.
induction rest as [|c rest IH]; intros acc; [reflexivity|].
cbn [splitAtFirst startsWith]. rewrite andb_true_r.
destruct (Ascii.eqb_spec c0 c) as [<-|Hc].
- exists []. now rewrite app_nil_r.
- specialize (IH (c :: acc)).
  destruct (splitAtFirst [c0] (c :: acc) rest) as [[l r']|].
  + destruct IH as (a & -> & Ha & ->). exists (c :: a).
    cbn [rev forallb]. rewrite <- app_assoc, Ha.
    destruct (Ascii.eqb_spec c0 c); [contradiction | now split].
  + cbn [forallb]. rewrite IH.
    now destruct (Ascii.eqb_spec c0 c).
Qed.

Variable r : list ascii.
Variable callback : found -> string.
Hypothesis Hglobal : global re = true.
Hypothesis Hcallback : forall f, list_ascii_of_string (callback f) = r.
Hypothesis Hr : forallb (fun c => negb (Ascii.eqb c0 c)) r = true.

(** The character is in no place of the result. *)
Lemma replaceLoop_character : forall fuel prev rest,
List.length rest < fuel ->
forallb (fun c => negb (Ascii.eqb c0 c)) (replaceLoop re callback fuel prev rest)
= true.
Proof.
induction fuel as [|fuel IH]; intros prev rest Hfuel; [lia|].
rewrite (replaceLoop_literal re [c0] r callback Hglobal ltac:(discriminate)
           matchAt_character Hcallback).
pose proof (splitAtFirst_character rest []) as H.
destruct (splitAtFirst [c0] [] rest) as [[l r']|]; [|exact H].
destruct H as (a & Hl & Ha & Hrest). cbn [rev app] in Hl. subst a.
rewrite !forallb_app, Ha, Hr. apply IH.
rewrite Hrest, length_app in Hfuel. cbn [List.length] in Hfuel. lia.
Qed.
End OneCharacter.

(** *** A pattern of two characters *)

Lemma pairIn_app a b x y :
  pairIn a b x = false ->
  pairIn a b y = false ->
  match y with c :: _ => Ascii.eqb b c = false | [] => True end ->
  pairIn a b (x ++ y) = false.
Proof.
  intros Hx Hy Hhead. induction x as [|c x IH]; [exact Hy|].
  cbn [pairIn app] in *. apply orb_false_iff in Hx. destruct Hx as [Hc Hx].
  rewrite (IH Hx), orb_false_r.
  destruct x as [|d x]; [|exact Hc].
  cbn [app]. destruct y as [|d y]; [now rewrite andb_false_r|].
  now rewrite Hhead, andb_false_r.
Qed.

Lemma pairIn_found a b pre post : pairIn a b (pre ++ a :: b :: post) = true.
Proof.
  induction pre as [|c pre IH]; cbn [app pairIn].
  - now rewrite !Ascii.eqb_refl.
  - rewrite IH. apply orb_true_r.
Qed.

Section TwoCharacters.
Variable re : regexp.
Variables a b : ascii.
Hypothesis Hpattern : pattern re = Some (Seq (Char a) (Seq (Char b) Empty)).
Hypothesis Hcase : ignoreCase re = false.
Hypothesis Hcount : groupCount re = 0.

Lemma matchAt_characters prev rest :
matchAt re prev rest
= if startsWith [a; b] rest
  then Some {| index := List.length prev;
               matched := string_of_list_ascii [a; b];
               groups := [];
               following := skipn 2 rest |}
  else None.
Proof.
unfold matchAt. rewrite Hpattern, Hcount.
rewrite run_Seq, (proj2 (takesOne_Char re a Hcase)).
destruct rest as [|x rest]; [reflexivity|].
cbn [startsWith]. destruct (Ascii.eqb_spec a x) as [<-|_]; [|reflexivity].
rewrite run_Seq, (proj2 (takesOne_Char re b Hcase)).
destruct rest as [|y rest]; [reflexivity|].
cbn [startsWith]. destruct (Ascii.eqb_spec b y) as [<-|_]; [|reflexivity].
rewrite run_Empty. cbn [andb before after List.length seq map skipn].
replace (S (S (List.length prev)) - List.length prev) with 2 by lia.
reflexivity.
Qed.

Lemma splitAtFirst_characters : forall rest acc,
match splitAtFirst [a; b] acc rest with
| Some (l, r') =>
    exists x, l = rev acc ++ x
              /\ pairIn a b x = false
              /\ rest = x ++ a :: b :: r'
| None => pairIn a b rest = false
end.
Proof.
induction rest as [|c rest IH]; intros acc; [reflexivity|].
cbn [splitAtFirst].
destruct (startsWith [a; b] (c :: rest)) eqn:E.
- apply startsWith_prefix in E.
  destruct rest as [|d rest]; [discriminate|].
  cbn [List.length skipn app] in E.
  injection E as -> ->. exists []. now rewrite app_nil_r.
- specialize (IH (c :: acc)).
  assert (Hhead : (Ascii.eqb a c
                   && match rest with y :: _ => Ascii.eqb b y | [] => false end)
                  = false).
  { cbn [startsWith] in E. destruct rest as [|d rest]; [apply andb_false_r|].
    now rewrite andb_true_r in E. }
  destruct (splitAtFirst [a; b] (c :: acc) rest) as [[l r']|].
  + destruct IH as (x & -> & Hx & Hrest). exists (c :: x).
    cbn [rev]. rewrite <- app_assoc. split; [reflexivity|].
    split; [|now rewrite Hrest].
    cbn [pairIn]. rewrite Hx, orb_false_r.
    rewrite Hrest in Hhead. destruct x as [|d x]; [apply andb_false_r|].
    exact Hhead.
  + cbn [pairIn]. now rewrite IH, Hhead.
Qed.
End TwoCharacters.

Section TwoCharactersReplaced.
Variable re : regexp.
Variables a b : ascii.
Hypothesis Hpattern : pattern re = Some (Seq (Char a) (Seq (Char b) Empty)).
Hypothesis Hcase : ignoreCase re = false.
Hypothesis Hcount : groupCount re = 0.
Variable r : list ascii.
Variable callback : found -> string.
Hypothesis Hglobal : global re = true.
Hypothesis Hcallback : forall f, list_ascii_of_string (callback f) = r.
Hypothesis Hr : forall y, pairIn a b y = false -> pairIn a b (r ++ y) = false.
Hypothesis Hhead : forall y,
match r ++ y with c :: _ => Ascii.eqb b c = false | [] => True end.

(** The two characters are in no place of the result one after the other. *)
Lemma replaceLoop_characters : forall fuel prev rest,
List.length rest < fuel ->
pairIn a b (replaceLoop re callback fuel prev rest) = false.
Proof.
induction fuel as [|fuel IH]; intros prev rest Hfuel; [lia|].
rewrite (replaceLoop_literal re [a; b] r callback Hglobal ltac:(discriminate)
           (matchAt_characters re a b Hpattern Hcase Hcount) Hcallback).
pose proof (splitAtFirst_characters a b rest []) as H.
destruct (splitAtFirst [a; b] [] rest) as [[l r']|]; [|exact H].
destruct H as (x & Hl & Hx & Hrest). cbn [rev app] in Hl. subst x.
apply pairIn_app; [exact Hx | | apply Hhead].
apply Hr, IH.
rewrite Hrest, length_app in Hfuel. cbn [List.length] in Hfuel. lia.
Qed.
End TwoCharactersReplaced.

(** *** The three replacements of a command *)

Lemma replace_list s re replacement :
  list_ascii_of_string (replace s re replacement)
  = replaceLoop re
      (fun f => string_of_list_ascii
                  (RegExp.expand (list_ascii_of_string replacement) f))
      (S (List.length (list_ascii_of_string s))) [] (list_ascii_of_string s).
Proof. unfold replace, replaceWith. apply list_ascii_of_string_of_list_ascii. Qed.

Lemma line_feed_pattern :
  RegExp "\n" "g"
  = {| pattern := Some (Seq (Char "010") Empty);
       groupCount := 0; ignoreCase := false; global := true; multiline := false |}.
Proof. vm_compute. reflexivity. Qed.

Lemma carriage_return_pattern :
  RegExp "\r" "g"
  = {| pattern := Some (Seq (Char "013") Empty);
       groupCount := 0; ignoreCase := false; global := true; multiline := false |}.
Proof. vm_compute. reflexivity. Qed.

Lemma comment_end_pattern :
  RegExp "\*\/" "g"
  = {| pattern := Some (Seq (Char "*") (Seq (Char "/") Empty));
       groupCount := 0; ignoreCase := false; global := true; multiline := false |}.
Proof. vm_compute. reflexivity. Qed.

Lemma escaped_text s :
  let escaped :=
    list_ascii_of_string
      (replace
         (replace (replace s (RegExp "\n" "g") "\n") (RegExp "\r" "g") "\r")
         (RegExp "\*\/" "g") "*\/") in
  forallb (fun c => negb (Ascii.eqb "010" c)) escaped = true
  /\ forallb (fun c => negb (Ascii.eqb "013" c)) escaped = true
  /\ pairIn "*" "/" escaped = false.
Proof.
  cbv zeta.
  set (s1 := replace s (RegExp "\n" "g") "\n").
  set (s2 := replace s1 (RegExp "\r" "g") "\r").
  assert (H1 : forallb (fun c => negb (Ascii.eqb "010" c)) (list_ascii_of_string s1)
               = true).
  { unfold s1. rewrite replace_list, line_feed_pattern.
    lazymatch goal with
    | |- context [replaceLoop ?re ?cb _ _ _] =>
        apply (replaceLoop_character re "010"%char eq_refl eq_refl eq_refl
                 ["\"%char; "n"%char] cb eq_refl (fun f => eq_refl) eq_refl)
    end.
    lia. }
  assert (H2 : forallb (fun c => negb (Ascii.eqb "013" c)) (list_ascii_of_string s2)
               = true).
  { unfold s2. rewrite replace_list, carriage_return_pattern.
    lazymatch goal with
    | |- context [replaceLoop ?re ?cb _ _ _] =>
        apply (replaceLoop_character re "013"%char eq_refl eq_refl eq_refl
                 ["\"%char; "r"%char] cb eq_refl (fun f => eq_refl) eq_refl)
    end.
    lia. }
  assert (H3 : forallb (fun c => negb (Ascii.eqb "010" c)) (list_ascii_of_string s2)
               = true).
  { unfold s2. rewrite replace_list, carriage_return_pattern.
    lazymatch goal with
    | |- context [replaceLoop ?re ?cb _ _ _] =>
        apply (replaceLoop_keeps re ["013"%char] ["\"%char; "r"%char] cb eq_refl
                 ltac:(discriminate)
                 (matchAt_character re "013"%char eq_refl eq_refl eq_refl)
                 (fun f => eq_refl) (fun c => negb (Ascii.eqb "010" c)) eq_refl)
    end.
    exact H1. }
  rewrite replace_list, comment_end_pattern.
  split; [|split].
  - lazymatch goal with
    | |- context [replaceLoop ?re ?cb _ _ _] =>
        apply (replaceLoop_keeps re ["*"%char; "/"%char]
                 ["*"%char; "\"%char; "/"%char] cb
                 eq_refl ltac:(discriminate)
                 (matchAt_characters re "*"%char "/"%char eq_refl eq_refl eq_refl)
                 (fun f => eq_refl) (fun c => negb (Ascii.eqb "010" c)) eq_refl)
    end.
    exact H3.
  - lazymatch goal with
    | |- context [replaceLoop ?re ?cb _ _ _] =>
        apply (replaceLoop_keeps re ["*"%char; "/"%char]
                 ["*"%char; "\"%char; "/"%char] cb
                 eq_refl ltac:(discriminate)
                 (matchAt_characters re "*"%char "/"%char eq_refl eq_refl eq_refl)
                 (fun f => eq_refl) (fun c => negb (Ascii.eqb "013" c)) eq_refl)
    end.
    exact H2.
  - lazymatch goal with
    | |- context [replaceLoop ?re ?cb _ _ _] =>
        apply (replaceLoop_characters re "*"%char "/"%char eq_refl eq_refl eq_refl
                 ["*"%char; "\"%char; "/"%char] cb eq_refl (fun f => eq_refl))
    end.
    + intros y Hy. cbn [app pairIn]. exact Hy.
    + intros y. reflexivity.
    + lia.
Qed.

Lemma quoteCommand_escaped command :
  forallb (fun c => negb (Ascii.eqb "010" c))
    (list_ascii_of_string (quoteCommand command)) = true
  /\ forallb (fun c => negb (Ascii.eqb "013" c))
       (list_ascii_of_string (quoteCommand command)) = true
  /\ pairIn "*" "/" (list_ascii_of_string (quoteCommand command)) = false.
Proof. unfold quoteCommand. apply escaped_text. Qed.

Lemma join_forallb (q : ascii -> bool) separator l :
  forallb q (list_ascii_of_string separator) = true ->
  (forall x, In x l -> forallb q (list_ascii_of_string x) = true) ->
  forallb q (list_ascii_of_string (join separator l)) = true.
Proof.
  intros Hsep. induction l as [|x l IH]; intros Hl; [reflexivity|].
  destruct l as [|y l]; [apply Hl; now left|].
  rewrite join_cons, !list_of_string_app, !forallb_app, Hsep.
  rewrite (Hl x (or_introl eq_refl)). apply IH.
  intros z Hz. apply Hl. now right.
Qed.

Lemma join_pairIn a b l :
  Ascii.eqb a " " = false ->
  Ascii.eqb b " " = false ->
  (forall x, In x l -> pairIn a b (list_ascii_of_string x) = false) ->
  pairIn a b (list_ascii_of_string (join " " l)) = false.
Proof.
  intros Ha Hb. induction l as [|x l IH]; intros Hl; [reflexivity|].
  destruct l as [|y l]; [apply Hl; now left|].
  rewrite join_cons, !list_of_string_app. cbn [list_ascii_of_string app].
  apply pairIn_app.
  - apply Hl. now left.
  - cbn [pairIn]. rewrite Ha. apply IH. intros z Hz. apply Hl. now right.
  - exact Hb.
Qed.

Lemma forallb_not_In c0 l :
  forallb (fun c => negb (Ascii.eqb c0 c)) l = true -> ~ In c0 l.
Proof.
  intros H Hin. rewrite forallb_forall in H. specialize (H c0 Hin).
  now rewrite Ascii.eqb_refl in H.
Qed.

(** X20.  The commands that [addCommandsToHeader] writes into the header
    cannot end the comment they are written into, nor its line: whatever
    the commands of the build are, the text of the [Build:] line holds no
    line feed, no carriage return, and nowhere a star followed by a
    slash. *)
Theorem header_commands_stay_in_the_comment :
  forall (sepEscaped : string) (commands : list string),
  let line := list_ascii_of_string (join " " (headerCommands sepEscaped commands)) in
  ~ In "010"%char line
  /\ ~ In "013"%char line
  /\ forall before after, line <> before ++ "*"%char :: "/"%char :: after.
Proof.
  intros sepEscaped commands. cbv zeta. unfold headerCommands.
  set (given := if test (reNode sepEscaped) (toString (nth_error commands 0))
                then skipn 2 commands else commands).
  split; [|split].
  - apply forallb_not_In, join_forallb; [reflexivity|].
    intros x Hx. apply in_map_iff in Hx. destruct Hx as (command & <- & _).
    apply quoteCommand_escaped.
  - apply forallb_not_In, join_forallb; [reflexivity|].
    intros x Hx. apply in_map_iff in Hx. destruct Hx as (command & <- & _).
    apply quoteCommand_escaped.
  - intros before after E.
    assert (H : pairIn "*" "/"
                  (list_ascii_of_string (join " " (map quoteCommand given))) = false).
    { apply join_pairIn; [reflexivity | reflexivity|].
      intros x Hx. apply in_map_iff in Hx. destruct Hx as (command & <- & _).
      apply quoteCommand_escaped. }
    rewrite E, pairIn_found in H. discriminate.
Qed.

(** *** Commands with nothing to escape *)

Lemma takesOne_Class re negated items :
  takesOne re (Class negated items)
    (fun c => xorb negated (existsb (itemMatches re c) items)).
Proof.
  split; [reflexivity|]. intros b a c k. simpl. unfold one. simpl.
  destruct a as [|x a']; reflexivity.
Qed.

Lemma separator_pattern :
  RegExp "[= ]" ""
  = {| pattern := Some (Seq (Class false [CChar "="; CChar " "]) Empty);
       groupCount := 0; ignoreCase := false; global := false; multiline := false |}.
Proof. vm_compute. reflexivity. Qed.

Lemma matchAt_separator prev rest :
  matchAt (RegExp "[= ]" "") prev rest
  = match rest with
    | x :: t =>
        if isSeparator x
        then Some {| index := List.length prev;
                     matched := string_of_list_ascii [x];
                     groups := [];
                     following := t |}
        else None
    | [] => None
    end.
Proof.
  rewrite separator_pattern.
  set (re := {| pattern := _; groupCount := 0; ignoreCase := false;
                global := false; multiline := false |}).
  unfold matchAt. cbn [pattern re].
  rewrite run_Seq, (proj2 (takesOne_Class re false _)).
  destruct rest as [|x t]; [reflexivity|].
  cbn [existsb itemMatches xorb]. unfold sameChar. cbn [ignoreCase re].
  rewrite orb_false_r. fold (isSeparator x).
  destruct (isSeparator x); [|reflexivity].
  rewrite run_Empty. cbn [before after List.length seq map groupCount].
  replace (S (List.length prev) - List.length prev) with 1 by lia.
  reflexivity.
Qed.

Lemma search_no_separator : forall w prev,
  forallb (fun c => negb (isSeparator c)) w = true ->
  search (RegExp "[= ]" "") prev w = None.
Proof.
  induction w as [|c w IH]; intros prev Hw; cbn [search];
    rewrite matchAt_separator; [reflexivity|].
  cbn [forallb] in Hw. apply andb_true_iff in Hw. destruct Hw as [Hc Hw].
  apply negb_true_iff in Hc. rewrite Hc. now apply IH.
Qed.

Lemma search_separator x t : forall w prev,
  forallb (fun c => negb (isSeparator c)) w = true ->
  isSeparator x = true ->
  exists i,
    search (RegExp "[= ]" "") prev (w ++ x :: t)
    = Some {| index := i; matched := string_of_list_ascii [x];
              groups := []; following := t |}.
Proof.
  induction w as [|c w IH]; intros prev Hw Hx; cbn [app search];
    rewrite matchAt_separator.
  - rewrite Hx. now eexists.
  - cbn [forallb] in Hw. apply andb_true_iff in Hw. destruct Hw as [Hc Hw].
    apply negb_true_iff in Hc. rewrite Hc. now apply IH.
Qed.

Lemma splitAtFirst_absent c0 rest acc :
  forallb (fun c => negb (Ascii.eqb c0 c)) rest = true ->
  splitAtFirst [c0] acc rest = None.
Proof.
  intros H. pose proof (splitAtFirst_character c0 rest acc) as S.
  destruct (splitAtFirst [c0] acc rest) as [[l r']|]; [|reflexivity].
  destruct S as (a & _ & _ & ->).
  rewrite forallb_app in H. apply andb_true_iff in H. destruct H as [_ H].
  cbn [forallb] in H. now rewrite Ascii.eqb_refl in H.
Qed.

Lemma splitAtFirst_present c0 r' : forall w acc,
  forallb (fun c => negb (Ascii.eqb c0 c)) w = true ->
  splitAtFirst [c0] acc (w ++ c0 :: r') = Some (rev acc ++ w, r').
Proof.
  induction w as [|c w IH]; intros acc Hw; cbn [app splitAtFirst startsWith].
  - now rewrite Ascii.eqb_refl, app_nil_r.
  - cbn [forallb] in Hw. apply andb_true_iff in Hw. destruct Hw as [Hc Hw].
    apply negb_true_iff in Hc. rewrite Hc. cbn [andb].
    rewrite (IH (c :: acc) Hw). cbn [rev]. now rewrite <- app_assoc.
Qed.

Lemma splitAtFirst_no_pair a b rest acc :
  pairIn a b rest = false -> splitAtFirst [a; b] acc rest = None.
Proof.
  intros H. pose proof (splitAtFirst_characters a b rest acc) as S.
  destruct (splitAtFirst [a; b] acc rest) as [[l r']|]; [|reflexivity].
  destruct S as (x & _ & _ & ->). now rewrite pairIn_found in H.
Qed.

Lemma needsNoEscape_parts l :
  needsNoEscape l = true ->
  forallb (fun c => negb (Ascii.eqb "010" c)) l = true
  /\ forallb (fun c => negb (Ascii.eqb "013" c)) l = true
  /\ pairIn "*" "/" l = false.
Proof.
  unfold needsNoEscape. intros H. apply andb_true_iff in H. destruct H as [H Hp].
  apply negb_true_iff in Hp. rewrite forallb_forall in H.
  repeat split; [| |exact Hp]; apply forallb_forall; intros c Hc;
    specialize (H c Hc); apply andb_true_iff in H; tauto.
Qed.

(** The three replacements leave such a text as it is. *)
Lemma escape_nothing s :
  needsNoEscape (list_ascii_of_string s) = true ->
  replace
    (replace (replace s (RegExp "\n" "g") "\n") (RegExp "\r" "g") "\r")
    (RegExp "\*\/" "g") "*\/"
  = s.
Proof.
  intros H. destruct (needsNoEscape_parts _ H) as (Hlf & Hcr & Hend).
  assert (E1 : replace s (RegExp "\n" "g") "\n" = s).
  { unfold replace, replaceWith. rewrite line_feed_pattern.
    lazymatch goal with
    | |- context [replaceLoop ?re ?cb _ _ _] =>
        rewrite (replaceLoop_literal re ["010"%char] ["\"%char; "n"%char] cb eq_refl
                   ltac:(discriminate)
                   (matchAt_character re "010"%char eq_refl eq_refl eq_refl)
                   (fun f => eq_refl))
    end.
    rewrite (splitAtFirst_absent _ _ _ Hlf).
    apply string_of_list_ascii_of_string. }
  rewrite E1.
  assert (E2 : replace s (RegExp "\r" "g") "\r" = s).
  { unfold replace, replaceWith. rewrite carriage_return_pattern.
    lazymatch goal with
    | |- context [replaceLoop ?re ?cb _ _ _] =>
        rewrite (replaceLoop_literal re ["013"%char] ["\"%char; "r"%char] cb eq_refl
                   ltac:(discriminate)
                   (matchAt_character re "013"%char eq_refl eq_refl eq_refl)
                   (fun f => eq_refl))
    end.
    rewrite (splitAtFirst_absent _ _ _ Hcr).
    apply string_of_list_ascii_of_string. }
  rewrite E2.
  unfold replace, replaceWith. rewrite comment_end_pattern.
  lazymatch goal with
  | |- context [replaceLoop ?re ?cb _ _ _] =>
      rewrite (replaceLoop_literal re ["*"%char; "/"%char]
                 ["*"%char; "\"%char; "/"%char] cb eq_refl
                 ltac:(discriminate)
                 (matchAt_characters re "*"%char "/"%char eq_refl eq_refl eq_refl)
                 (fun f => eq_refl))
  end.
  rewrite (splitAtFirst_no_pair _ _ _ _ Hend).
  apply string_of_list_ascii_of_string.
Qed.

Lemma pairIn_separated a b c x y :
  Ascii.eqb a c = false ->
  Ascii.eqb b c = false ->
  pairIn a b (x ++ c :: y) = pairIn a b x || pairIn a b y.
Proof.
  intros Ha Hb. induction x as [|d x IH]; cbn [app pairIn].
  - now rewrite Ha.
  - rewrite IH, orb_assoc. f_equal. f_equal.
    destruct x as [|e x]; [|reflexivity].
    cbn [app]. now rewrite Hb, andb_false_r.
Qed.

Lemma needsNoEscape_quoted name value :
  needsNoEscape (list_ascii_of_string name) = true ->
  needsNoEscape (list_ascii_of_string value) = true ->
  needsNoEscape
    (list_ascii_of_string (name +++ "=" +++ DQ +++ value +++ DQ)) = true.
Proof.
  intros Hn Hv.
  destruct (needsNoEscape_parts _ Hn) as (N1 & N2 & N3).
  destruct (needsNoEscape_parts _ Hv) as (V1 & V2 & V3).
  rewrite !list_of_string_app. cbn [list_ascii_of_string DQ app].
  unfold needsNoEscape. apply andb_true_iff. split.
  - rewrite forallb_forall in N1, N2, V1, V2. apply forallb_forall.
    intros c Hc. rewrite in_app_iff in Hc. cbn [In] in Hc.
    rewrite in_app_iff in Hc. cbn [In] in Hc.
    destruct Hc as [Hc | [<- | [<- | [Hc | [<- | []]]]]]; try reflexivity.
    + now rewrite (N1 c Hc), (N2 c Hc).
    + now rewrite (V1 c Hc), (V2 c Hc).
  - apply negb_true_iff.
    rewrite (pairIn_separated "*" "/" "=") by reflexivity.
    rewrite N3. cbn [orb pairIn].
    rewrite (pairIn_separated "*" "/" (ascii_of_nat 34)) by reflexivity.
    now rewrite V3.
Qed.

Lemma splitText_pair name value :
  forallb (fun c => negb (Ascii.eqb "=" c)) (list_ascii_of_string name) = true ->
  forallb (fun c => negb (Ascii.eqb "=" c)) (list_ascii_of_string value) = true ->
  splitText (name +++ "=" +++ value) "=" = [name; value].
Proof.
  intros Hn Hv. unfold splitText. rewrite !list_of_string_app.
  cbn [list_ascii_of_string app splitTextLoop].
  rewrite (splitAtFirst_present "="%char _ _ [] Hn). cbn [rev app].
  rewrite string_of_list_ascii_of_string, length_app. cbn [List.length].
  rewrite Nat.add_succ_r. cbn [splitTextLoop].
  rewrite (splitAtFirst_absent _ _ _ Hv).
  now rewrite string_of_list_ascii_of_string.
Qed.

(** X22.  What the header shows of a command with nothing to escape: a
    command without an equals sign or a space is written as it is, and
    a command [name=value] is written with its value in double quotes. *)
Theorem plain_commands_are_written_as_given :
  forall name value : string,
  needsNoEscape (list_ascii_of_string name) = true ->
  needsNoEscape (list_ascii_of_string value) = true ->
  forallb (fun c => negb (isSeparator c)) (list_ascii_of_string name) = true ->
  forallb (fun c => negb (Ascii.eqb "=" c)) (list_ascii_of_string value) = true ->
  quoteCommand name = name
  /\ quoteCommand (name +++ "=" +++ value) = name +++ "=" +++ DQ +++ value +++ DQ.
Proof.
  intros name value Hn Hv Hsep Heq.
  assert (Hname : forallb (fun c => negb (Ascii.eqb "=" c))
                    (list_ascii_of_string name) = true).
  { rewrite forallb_forall in *. intros c Hc. specialize (Hsep c Hc).
    unfold isSeparator in Hsep. now destruct (Ascii.eqb "=" c). }
  split.
  - unfold quoteCommand, exec. rewrite (search_no_separator _ _ Hsep).
    now apply escape_nothing.
  - unfold quoteCommand, exec. rewrite !list_of_string_app.
    cbn [list_ascii_of_string app].
    destruct (search_separator "="%char (list_ascii_of_string value)
                (list_ascii_of_string name) [] Hsep eq_refl) as [i ->].
    cbn [matchArray item nth text matched string_of_list_ascii].
    rewrite (splitText_pair name value Hname Heq).
    cbn [nth_error toString].
    now apply escape_nothing, needsNoEscape_quoted.
Qed.

Lemma plain_commands_are_written_as_given_witness :
  quoteCommand "include" = "include"
  /\ quoteCommand ("include" +++ "=" +++ "each, map")
     = "include" +++ "=" +++ DQ +++ "each, map" +++ DQ.
Proof.
  apply (plain_commands_are_written_as_given "include" "each, map");
    reflexivity.
Defined.

(** ** The names of categories *)

Lemma lowerChar_lowerChar c : lowerChar (lowerChar c) = lowerChar c.
Proof. destruct c as [[] [] [] [] [] [] [] []]; reflexivity. Qed.

Lemma lowerChar_toUpper c : lowerChar (toUpper (lowerChar c)) = lowerChar c.
Proof. destruct c as [[] [] [] [] [] [] [] []]; reflexivity. Qed.

Lemma toLowerCase_capitalize s :
  toLowerCase (capitalize (toLowerCase s)) = toLowerCase s.
Proof.
  unfold toLowerCase, mapChars.
  destruct (list_ascii_of_string s) as [|c l]; [reflexivity|].
  cbn [map string_of_list_ascii capitalize toUpperCase mapChars
       list_ascii_of_string append].
  rewrite list_ascii_of_string_of_list_ascii, lowerChar_toUpper.
  f_equal. f_equal. rewrite map_map. apply map_ext. apply lowerChar_lowerChar.
Qed.

Lemma capitalize_category :
  forallb (fun category => String.eqb (capitalize (toLowerCase category)) category)
    allCategories = true.
Proof. vm_compute. reflexivity. Qed.

(** X21.  A category is named without regard to the case of its letters:
    the text of a [category=] entry, which is not empty, is brought by
    [capitalize(category.toLowerCase())] to the name of a category exactly
    when the two differ in the case of letters only. *)
Theorem category_names_ignore_case :
  forall given category : string,
  In category allCategories ->
  given <> "" ->
  capitalize (toLowerCase given) = category
  <-> toLowerCase given = toLowerCase category.
Proof.
  intros given category Hin _. split.
  - intros <-. now rewrite toLowerCase_capitalize.
  - intros ->. pose proof capitalize_category as H.
    rewrite forallb_forall in H. now apply String.eqb_eq, H.
Qed.

Lemma category_names_ignore_case_witness :
  capitalize (toLowerCase "oBJECTS") = "Objects"
  <-> toLowerCase "oBJECTS" = toLowerCase "Objects".
Proof.
  apply (category_names_ignore_case "oBJECTS" "Objects").
  - vm_compute. tauto.
  - discriminate.
Defined.
